(** * Beam-search decoding of the lexicon-enhanced lemmatizer

    A shallow embedding of [lexenlem/models/common/seq2seq_model.py]
    (class [Seq2SeqModelCombined]: [forward], [predict_greedy], [predict]
    and the local helper [update_state]) together with the properties its
    specification states about the search layer. Further sections embed
    the preparation of the encoder inputs ([Seq2SeqModel.forward], the
    first phase of [Seq2SeqModel.predict], [encode]) and the reshaping of
    the decoder outputs ([decode], [get_log_prob]), which the file shares
    with [stanfordnlp/models/common/seq2seq_model.py].

    Conventions.
    - Python integers are [Z]; indices and lengths are [nat].
    - A 2-D tensor of shape (rows, d) is a list of rows; the row type of the
      recurrent state is abstract ([H], a vector of [dec_hidden_dim] floats).
    - Log-probabilities are exact numbers ([Z], fixed point); cumulative beam
      scores add the value minus infinity to them.
    - A Python exception is the [Raise] branch of [outcome]; calls into the
      neural network and the file system are recorded in an event log.
    - The random masks of a dropout layer and the numbers drawn for the
      lexicon dropout are inputs of the functions that draw them.
    - Tensors that a caller hands to [forward] live in a heap, so that
      writes in place are visible after the call. *)

From Stdlib Require Import ZArith QArith Lia.
From stdpp Require Import base numbers list gmap.

(** ** Python outcomes and the call log *)

Inductive exn : Type :=
  | RuntimeError
  | IndexError
  | ZeroDivisionError
  | AttributeError
  | ValueError.

Inductive outcome (A : Type) : Type :=
  | Ok (a : A)
  | Raise (e : exn).
Arguments Ok {A} a.
Arguments Raise {A} e.

#[global] Instance outcome_ret : MRet outcome := @Ok.
#[global] Instance outcome_bind : MBind outcome := fun A B f m =>
  match m with
  | Ok a => f a
  | Raise e => Raise e
  end.

(** [l[i]] on a Python list or along the first axis of a tensor. *)
Definition index {A} (l : list A) (i : nat) : outcome A :=
  match l !! i with
  | Some x => Ok x
  | None => Raise IndexError
  end.

(** [[f(x) for x in l]] where [f] may raise. *)
Fixpoint for_each {A B} (f : A → outcome B) (l : list A) : outcome (list B) :=
  match l with
  | [] => Ok []
  | x :: l' => y ← f x; ys ← for_each f l'; Ok (y :: ys)
  end.

(** [for i in l: s = f(i, s)] where [f] may raise. *)
Fixpoint for_in {S} (l : list nat) (f : nat → S → outcome S) (s : S) : outcome S :=
  match l with
  | [] => Ok s
  | i :: l' => s' ← f i s; for_in l' f s'
  end.

(** Calls that leave the search layer. *)
Inductive event : Type :=
  | EvEncodeSource    (* self.encode(self.encoder, ...) *)
  | EvEncodeLexicon   (* self.encode(self.lexicon_encoder, ...) *)
  | EvDecode          (* self.decode(...) *)
  | EvJsonDump.       (* json.dump(log_attn, open('log_attn.json', 'w')) *)

#[global] Instance event_eq_dec : EqDecision event.
Proof. solve_decision. Defined.

(** A computation that logs events and may raise. *)
Record run (A : Type) : Type := Run { trace : list event; result : outcome A }.
Arguments Run {A} trace result.
Arguments trace {A} r.
Arguments result {A} r.

#[global] Instance run_ret : MRet run := fun A a => Run [] (Ok a).
#[global] Instance run_bind : MBind run := fun A B f m =>
  match result m with
  | Ok a => Run (trace m ++ trace (f a)) (result (f a))
  | Raise e => Run (trace m) (Raise e)
  end.

Definition emit (e : event) : run () := Run [e] (Ok ()).
Definition lift {A} (o : outcome A) : run A := Run [] o.

Definition count_event (e : event) (l : list event) : nat :=
  length (filter (λ x, x = e) l).

(** ** Scores and ranking *)

Inductive score : Type :=
  | NegInf
  | Fin (z : Z).

#[global] Instance score_eq_dec : EqDecision score.
Proof. solve_decision. Defined.

Definition sadd (s : score) (lp : Z) : score :=
  match s with
  | NegInf => NegInf
  | Fin a => Fin (a + lp)
  end.

(** [sltb a b]: [a] is strictly smaller than [b]. *)
Definition sltb (a b : score) : bool :=
  match a, b with
  | NegInf, NegInf => false
  | NegInf, Fin _ => true
  | Fin _, NegInf => false
  | Fin x, Fin y => (x <? y)%Z
  end.

(** Descending insertion: [x] goes before the first entry that is not
    strictly greater, so among equal scores the entry inserted last (the one
    with the lower index, see [rank_desc]) comes first. *)
Fixpoint insert_desc (x : nat * score) (l : list (nat * score)) : list (nat * score) :=
  match l with
  | [] => [x]
  | y :: l' => if sltb x.2 y.2 then y :: insert_desc x l' else x :: l
  end.

(** All entries paired with their index, best first, ties by lower index. *)
Definition rank_desc (l : list score) : list (nat * score) :=
  foldr insert_desc [] (imap (λ i s, (i, s)) l).

(** [topk(k, 0, True, True)]: raises when fewer than [k] entries exist. *)
Definition topk (k : nat) (l : list score) : outcome (list (nat * score)) :=
  if decide (k ≤ length l) then Ok (take k (rank_desc l)) else Raise RuntimeError.

(** [row.max()] index: the first maximal entry; [None] on an empty row. *)
Fixpoint argmax_from (i : nat) (best : nat * Z) (l : list Z) : nat * Z :=
  match l with
  | [] => best
  | x :: l' => argmax_from (S i) (if (best.2 <? x)%Z then (i, x) else best) l'
  end.

Definition argmax (l : list Z) : option nat :=
  match l with
  | [] => None
  | x :: l' => Some (argmax_from 1 (0, x) l').1
  end.

(** ** Parameters of the model *)

(** [x < y] on rationals, as a boolean. *)
Definition Qltb (x y : Q) : bool := if Qlt_le_dec x y then true else false.

(** The module [seq2seq_constant] is not among the verified files; its
    three control-token ids are parameters of the development. *)
Class Constant : Type := {
  PAD_ID : nat;
  SOS_ID : nat;
  EOS_ID : nat
}.

(** The entries of [args] that the decoding code reads from [self], and
    the flag [self.training] of the module, which [model.train()] sets and
    [model.eval()] clears. *)
Class Args : Type := {
  vocab_size : nat;
  dec_hidden_dim : nat;
  max_dec_len : Z;
  edit : bool;
  is_lexicon : bool;
  lexicon_dropout : Q;
  emb_dropout : Q;
  training : bool
}.

(** The tensors [src], [src_mask], [lem] and [lem_mask] handed to [predict]
    are a batch of examples, one row of each per example. Before the
    encoders run, the code computes from the two masks the lengths of the
    source and of the lexicon entry of every example,
    [mask.data.eq(constant.PAD_ID).long().sum(1)]: the numbers of positions
    that are not masked. *)
Class Lens (Inp : Type) : Type := {
  src_len : Inp → nat;
  lem_len : Inp → nat
}.

(** [self.emb_drop] is an [nn.Dropout(emb_dropout)]; [predict] applies it
    to the embedded lexicon entries. When it is active, a call draws a
    random mask, zeroes the entries of the embedding that the mask selects
    and rescales the others: [emb_mask b x] is the example [x] of row [b]
    with the embedding of its lexicon entry as the mask of one call leaves
    it. *)
Class EmbMask (Inp : Type) : Type := {
  emb_mask : nat → Inp → Inp
}.

(** [utils.prune_hyp] is not among the verified files: it is a parameter of
    the development. Section 4.4 of the specification has it remove the
    control tokens around a hypothesis. *)
Class Utils : Type := {
  prune_hyp : list nat → list nat
}.

(** Modelled from the spec: the encoder, decoder and classifier modules
    ([seq2seq_modules], [torch.nn]) are outside the verified files;
    sections 1 and 6 of the specification give their interface, one example
    (one row of the batch) at a time. [encode] yields the contexts with
    their masks and the initial decoder state (after [hn_linear] and
    [cn_linear]), [step] the next-token log-probabilities, the next state
    and the attention weights, [edit_clf] the edit logits of a state row.
    [H] is a row of a recurrent-state tensor. *)
Class Scorer (H Inp Ctx Attn Logits : Type) : Type := {
  encode : Inp → Ctx * (H * H);
  step : Ctx → nat → H * H → (nat → Z) * (H * H) * Attn;
  edit_clf : H → Logits
}.

(** ** Beam

    Modelled from the spec: the class [Beam] ([models/common/beam.py]) is
    missing; the record and its operations follow sections 3 and 4.1 of the
    specification. Rows are appended at the end, as in a Python list. The
    specification does not say what a beam does when fewer than K candidates
    exist; the ranking is the [topk] above, which raises. *)

Record Beam : Type := mkBeam {
  size : nat;                       (* width K *)
  scores : list score;              (* K cumulative log-probabilities *)
  tokens : list (list nat);         (* one K-wide token row per step *)
  backpointers : list (list nat);   (* one K-wide origin row per step *)
  done : bool
}.

Section Beam.

Context {constant : Constant}.

(** Score 0 for the first candidate, minus infinity for the rest. *)
Definition new_beam (K : nat) : Beam :=
  {| size := K;
     scores := take K (Fin 0 :: replicate K NegInf);
     tokens := [];
     backpointers := [];
     done := false |}.

(** The K most recent token ids; before the first step the one real start
    state holds the start-of-sequence token, the other slots are padding. *)
Definition get_current_state (b : Beam) : list nat :=
  match last (tokens b) with
  | Some row => row
  | None => take (size b) (SOS_ID :: replicate (size b) PAD_ID)
  end.

(** The K backpointer values of the most recent row. *)
Definition get_current_origin (b : Beam) : outcome (list nat) :=
  match last (backpointers b) with
  | Some row => Ok row
  | None => Raise IndexError
  end.

(** [candidate_score[i][v] = scores[i] + step_log_probs[i][v]], flattened
    row after row; at step 0 only the first candidate is expanded. *)
Definition candidates (b : Beam) (step_log_probs : list (list Z)) : outcome (list score) :=
  match tokens b with
  | [] =>
      row0 ← index step_log_probs 0;
      s0 ← index (scores b) 0;
      Ok (map (sadd s0) row0)
  | _ :: _ =>
      Ok (concat (zip_with (λ s row, map (sadd s) row) (scores b) step_log_probs))
  end.

Definition advance (b : Beam) (step_log_probs : list (list Z)) : outcome (Beam * bool) :=
  if done b then Ok (b, true)
  else
    row0 ← index step_log_probs 0;
    let V := length row0 in
    flat ← candidates b step_log_probs;
    best ← topk (size b) flat;
    let toks := map (λ p : nat * score, p.1 `mod` V) best in
    let origins := map (λ p : nat * score, p.1 `div` V) best in
    top ← index toks 0;
    let d := bool_decide (top = EOS_ID) in
    Ok ({| size := size b;
           scores := best.*2;
           tokens := tokens b ++ [toks];
           backpointers := backpointers b ++ [origins];
           done := d |}, d).

(** All K final scores with their slots, best first. *)
Definition sort_best (b : Beam) : list (nat * score) := rank_desc (scores b).

(** Backtrace over the rows, most recent first. *)
Fixpoint backtrace (rows : list (list nat * list nat)) (k : nat) : outcome (list nat) :=
  match rows with
  | [] => Ok []
  | (trow, brow) :: older =>
      tok ← index trow k;
      k' ← index brow k;
      hyp ← backtrace older k';
      Ok (hyp ++ [tok])
  end.

Definition get_hyp (b : Beam) (k : nat) : outcome (list nat) :=
  backtrace (reverse (zip (tokens b) (backpointers b))) k.

End Beam.

(** ** Reordering the carried state: [update_state] *)

Section UpdateState.

Context {args : Args} {H : Type}.

(** [e.contiguous().view(beam_size, br // beam_size, d)]: Python's floor
    division raises on 0; [view] raises unless the sizes are valid (a
    negative [beam_size] never is) and their product is the number of
    elements. Returns [br // beam_size]. *)
Definition view_beam (beam_size : Z) (br : nat) : outcome nat :=
  if decide (beam_size = 0%Z) then Raise ZeroDivisionError
  else
    let n := (Z.of_nat br `div` beam_size)%Z in
    if decide (0 < beam_size ∧
               beam_size * n * Z.of_nat dec_hidden_dim
               = Z.of_nat br * Z.of_nat dec_hidden_dim)%Z
    then Ok (Z.to_nat n)
    else Raise RuntimeError.

(** [s.data.copy_(sel)] where [s] is the strided slice [[:, idx]] (row
    [k * n + idx] for slot [k]); a single selected row is broadcast. *)
Definition write_slots (e : list H) (n idx : nat) (vals : list H) : list H :=
  foldr (λ kv acc, <[kv.1 * n + idx := kv.2]> acc) e (imap (λ k x, (k, x)) vals).

Definition copy_ (e : list H) (n idx K : nat) (sel : list H) : outcome (list H) :=
  if decide (length sel = K) then Ok (write_slots e n idx sel)
  else match sel with
       | [x] => Ok (write_slots e n idx (replicate K x))
       | _ => Raise RuntimeError
       end.

(** The body of [for e in states]. *)
Definition update_tensor (e : list H) (idx : nat) (positions : list nat)
    (beam_size : Z) : outcome (list H) :=
  n ← view_beam beam_size (length e);
  let K := Z.to_nat beam_size in
  if decide (idx < n) then
    sel ← for_each (λ p, if decide (p < K) then index e (p * n + idx)
                         else Raise IndexError) positions;
    copy_ e n idx K sel
  else Raise IndexError.

Definition update_state (states : list (list H)) (idx : nat) (positions : list nat)
    (beam_size : Z) : outcome (list (list H)) :=
  for_each (λ e, update_tensor e idx positions beam_size) states.

End UpdateState.

(** ** Results of [predict] *)

Record attn_log (Inp Attn : Type) : Type := AttnLog {
  la_inputs : list Inp;               (* 'src' and 'lem' *)
  la_attns : list (list Attn);        (* 'attns': [step][example] *)
  la_all_hyp : list (list nat)        (* 'all_hyp' *)
}.
Arguments AttnLog {Inp Attn} la_inputs la_attns la_all_hyp.
Arguments la_inputs {Inp Attn} a.
Arguments la_attns {Inp Attn} a.
Arguments la_all_hyp {Inp Attn} a.

(** The greedy path returns three values, the beam path two. *)
Inductive py_result (Inp Attn Logits : Type) : Type :=
  | Ret3 (output_seqs : list (list nat)) (edit_logits : option (list Logits))
         (log_attns : option (attn_log Inp Attn))
  | Ret2 (all_hyp : list (list nat)) (edit_logits : option (list Logits)).
Arguments Ret3 {Inp Attn Logits} output_seqs edit_logits log_attns.
Arguments Ret2 {Inp Attn Logits} all_hyp edit_logits.

Definition result_hyps {Inp Attn Logits} (r : py_result Inp Attn Logits) : list (list nat) :=
  match r with
  | Ret3 seqs _ _ => seqs
  | Ret2 hyps _ => hyps
  end.

Definition result_edit_logits {Inp Attn Logits} (r : py_result Inp Attn Logits)
    : option (list Logits) :=
  match r with
  | Ret3 _ el _ => el
  | Ret2 _ el => el
  end.

Section Predict.

Context {constant : Constant} {args : Args} {utils : Utils}.
Context {H Inp Ctx Attn Logits : Type} {scorer : Scorer H Inp Ctx Attn Logits}.
Context {lens : Lens Inp} {mask : EmbMask Inp}.

(** [self.emb_drop(...)] on the lexicon entry of the example of row [b]:
    a dropout layer is the identity in evaluation mode and at rate 0. *)
Definition emb_drop (b : nat) (x : Inp) : Inp :=
  if training && Qltb 0 emb_dropout then emb_mask b x else x.

(** What the encoders make of the example of row [b]. *)
Definition encoded (b : nat) (x : Inp) : Ctx * (H * H) := encode (emb_drop b x).

(** [nn.utils.rnn.pack_padded_sequence(enc_inputs, lens, batch_first=True,
    enforce_sorted=False)] at the start of [self.encode], as far as the
    lengths decide: the library refuses an empty batch and a length that is
    not positive. *)
Definition pack_lens (lens : list nat) : outcome () :=
  if decide (lens ≠ [] ∧ Forall (λ l, 0 < l) lens) then Ok () else Raise RuntimeError.

(** The two calls of [self.encode] and the projection of their final
    states, on the whole batch: the source first, then the lexicon entries
    after [emb_drop]. Each call packs its input before its encoder runs. *)
Definition encode_batch (batch : list Inp) : run (list Ctx * (list H * list H)) :=
  emit EvEncodeSource;;
  lift (pack_lens (map src_len batch));;
  emit EvEncodeLexicon;;
  lift (pack_lens (map lem_len batch));;
  let enc := imap encoded batch in
  mret (enc.*1, (enc.*2.*1, enc.*2.*2)).

(** [self.edit_clf(hn)] when the model has an edit classifier. *)
Definition edit_logits_of (hn : list H) : option (list Logits) :=
  if edit then Some (map edit_clf hn) else None.

(** [self.decode(dec_inputs, hn, cn, h_in, h_in1, src_mask, lem_mask)]:
    one decoder step on every row; the batch axes must agree. *)
Definition decode (dec_inputs : list nat) (hn cn : list H) (ctx : list Ctx)
    : run (list (list Z) * (list H * list H) * list Attn) :=
  emit EvDecode;;
  if decide (length dec_inputs = length hn ∧ length cn = length hn
             ∧ length ctx = length hn) then
    let rows := zip_with (λ c x, step c x.1 x.2) ctx (zip dec_inputs (zip hn cn)) in
    mret (map (λ r, map r.1.1 (seq 0 vocab_size)) rows,
          (map (λ r, r.1.2.1) rows, map (λ r, r.1.2.2) rows),
          map (λ r, r.2) rows)
  else lift (Raise RuntimeError).

(** ** [predict_greedy] *)

Record greedy_state : Type := GreedyState {
  g_dec_inputs : list nat;            (* tokens embedded as [dec_inputs] *)
  g_hn : list H;
  g_cn : list H;
  g_done : list bool;
  g_total_done : nat;
  g_max_len : Z;
  g_output_seqs : list (list nat);
  g_attns : list (list Attn)
}.

(** [log_probs.squeeze(1).max(1, keepdim=True)]: the first maximal token
    of every row; an empty vocabulary axis raises. *)
Definition max_preds (log_probs : list (list Z)) : outcome (list nat) :=
  for_each (λ row, match argmax row with
                   | Some v => Ok v
                   | None => Raise IndexError
                   end) log_probs.

(** The body of [for i in range(batch_size)]. *)
Definition greedy_mark (preds : list nat) (i : nat)
    (acc : list bool * nat * list (list nat))
    : outcome (list bool * nat * list (list nat)) :=
  let '(done, total_done, output_seqs) := acc in
  d ← index done i;
  if d : bool then Ok acc
  else
    token ← index preds i;
    if decide (token = EOS_ID) then Ok (<[i := true]> done, S total_done, output_seqs)
    else
      out ← index output_seqs i;
      Ok (done, total_done, <[i := out ++ [token]]> output_seqs).

(** The body of the [while] loop. The assertion on [log_probs.size(1)]
    holds because one token per row is fed. *)
Definition greedy_body (ctx : list Ctx) (batch_size : nat) (st : greedy_state)
    : run greedy_state :=
  '(log_probs, (hn, cn), attn) ← decode (g_dec_inputs st) (g_hn st) (g_cn st) ctx;
  preds ← lift (max_preds log_probs);
  '(done, total_done, output_seqs) ←
    lift (for_in (seq 0 batch_size) (greedy_mark preds)
                 (g_done st, g_total_done st, g_output_seqs st));
  mret {| g_dec_inputs := preds;
          g_hn := hn;
          g_cn := cn;
          g_done := done;
          g_total_done := total_done;
          g_max_len := (g_max_len st + 1)%Z;
          g_output_seqs := output_seqs;
          g_attns := g_attns st ++ [attn] |}.

Definition greedy_continue (batch_size : nat) (st : greedy_state) : Prop :=
  g_total_done st < batch_size ∧ (g_max_len st < max_dec_len)%Z.

(** [while total_done < batch_size and max_len < self.max_dec_len]. The
    loop is cut after [fuel] iterations; [predict_greedy] supplies
    [max_dec_len] of them, which is never too few
    (see [greedy_loop_fuel]). *)
Fixpoint greedy_loop (fuel : nat) (ctx : list Ctx) (batch_size : nat)
    (st : greedy_state) : run greedy_state :=
  if decide (greedy_continue batch_size st) then
    match fuel with
    | 0 => mret st
    | S fuel' =>
        st' ← greedy_body ctx batch_size st;
        greedy_loop fuel' ctx batch_size st'
    end
  else mret st.

Definition greedy_init (batch_size : nat) (hn cn : list H) : greedy_state :=
  {| g_dec_inputs := replicate batch_size SOS_ID;
     g_hn := hn;
     g_cn := cn;
     g_done := replicate batch_size false;
     g_total_done := 0;
     g_max_len := 0;
     g_output_seqs := replicate batch_size [];
     g_attns := [] |}.

(** [np.array(output_seqs)] on a list of lists: NumPy (from version 1.24
    on) refuses rows of different lengths; earlier versions build an array
    of lists and warn. *)
Definition np_array {A} (rows : list (list A)) : outcome (list (list A)) :=
  match rows with
  | [] => Ok []
  | row0 :: _ =>
      if decide (Forall (λ r, length r = length row0) rows) then Ok rows
      else Raise ValueError
  end.

(** The [if log_attn:] block at the end of [predict_greedy]. *)
Definition greedy_log_attns (batch : list Inp) (log_attn : bool)
    (attns : list (list Attn)) (output_seqs : list (list nat))
    : outcome (option (attn_log Inp Attn)) :=
  if log_attn then
    all_hyp ← np_array output_seqs;
    Ok (Some (AttnLog batch attns all_hyp))
  else Ok None.

Definition predict_greedy (batch : list Inp) (log_attn : bool)
    : run (py_result Inp Attn Logits) :=
  '(ctx, (hn, cn)) ← encode_batch batch;
  let batch_size := length batch in
  let edit_logits := edit_logits_of hn in
  st ← greedy_loop (Z.to_nat max_dec_len) ctx batch_size (greedy_init batch_size hn cn);
  log_attns ← lift (greedy_log_attns batch log_attn (g_attns st) (g_output_seqs st));
  mret (Ret3 (g_output_seqs st) edit_logits log_attns).

(** ** [predict]: the beam path *)

Record beam_state : Type := BeamState {
  bs_beam : list Beam;
  bs_hn : list H;
  bs_cn : list H;
  bs_attns : list (list Attn)
}.

(** [torch.stack([b.get_current_state() for b in beam]).t().contiguous()
    .view(-1, 1)]: slot-major, entry [k * batch_size + b] is the token of
    slot [k] of example [b]. [stack] raises on an empty list and on rows of
    different sizes, [view(-1, 1)] on a tensor without elements. *)
Definition stack_t (cur : list (list nat)) : outcome (list nat) :=
  match cur with
  | [] => Raise RuntimeError
  | row0 :: _ =>
      if decide (Forall (λ r, length r = length row0) cur ∧ 0 < length row0) then
        for_each (λ i, row ← index cur (i `mod` length cur);
                       index row (i `div` length cur))
                 (seq 0 (length row0 * length cur))
      else Raise RuntimeError
  end.

(** [log_probs.view(beam_size, batch_size, -1).transpose(0, 1)[b]]: the
    K rows of example [b]. *)
Definition slice_of (log_probs : list (list Z)) (K batch_size b : nat)
    : outcome (list (list Z)) :=
  for_each (λ k, index log_probs (k * batch_size + b)) (seq 0 K).

(** The body of [for b in range(batch_size)] in the main loop. The tuple
    [(hn, cn)] goes through [update_state], which mutates both in place. *)
Definition advance_one (beam_size : Z) (batch_size : nat) (log_probs : list (list Z))
    (b : nat) (acc : list Beam * list H * list H * list nat)
    : outcome (list Beam * list H * list H * list nat) :=
  let '(beam, hn, cn, done) := acc in
  bm ← index beam b;
  slice ← slice_of log_probs (Z.to_nat beam_size) batch_size b;
  '(bm', is_done) ← advance bm slice;
  let done' := if is_done : bool then done ++ [b] else done in
  origin ← get_current_origin bm';
  states ← update_state [hn; cn] b origin beam_size;
  match states with
  | [hn'; cn'] => Ok (<[b := bm']> beam, hn', cn', done')
  | _ => Raise RuntimeError
  end.

(** One iteration of [for i in range(self.max_dec_len)]; the flag says
    whether [len(done) == batch_size], that is whether the loop breaks.
    The view of [log_probs] needs [beam_size * batch_size] rows and a
    non-empty vocabulary axis. *)
Definition beam_body (beam_size : Z) (ctx : list Ctx) (batch_size : nat)
    (st : beam_state) : run (beam_state * bool) :=
  dec_inputs ← lift (stack_t (map get_current_state (bs_beam st)));
  '(log_probs, (hn, cn), attn) ← decode dec_inputs (bs_hn st) (bs_cn st) ctx;
  if decide (length log_probs = Z.to_nat beam_size * batch_size ∧ 0 < vocab_size) then
    '(beam, hn', cn', done) ←
      lift (for_in (seq 0 batch_size) (advance_one beam_size batch_size log_probs)
                   (bs_beam st, hn, cn, []));
    mret ({| bs_beam := beam; bs_hn := hn'; bs_cn := cn';
             bs_attns := bs_attns st ++ [attn] |},
          bool_decide (length done = batch_size))
  else lift (Raise RuntimeError).

Fixpoint main_loop (fuel : nat) (beam_size : Z) (ctx : list Ctx) (batch_size : nat)
    (st : beam_state) : run beam_state :=
  match fuel with
  | 0 => mret st
  | S fuel' =>
      '(st', stop) ← beam_body beam_size ctx batch_size st;
      if stop : bool then mret st'
      else main_loop fuel' beam_size ctx batch_size st'
  end.

(** Back trace of one example: [scores[0]], [ks[0]], [get_hyp], [prune_hyp]. *)
Definition best_hyp (bm : Beam) : outcome (list nat * score) :=
  best ← index (sort_best bm) 0;
  hyp ← get_hyp bm best.1;
  Ok (prune_hyp hyp, best.2).

(** [for b in range(batch_size)] over [beam[b]]: hypotheses and scores. *)
Definition back_trace (beam : list Beam) : outcome (list (list nat) * list score) :=
  found ← for_each best_hyp beam;
  Ok (found.*1, found.*2).

(** [x.tolist()] on an entry of a hypothesis. After
    [hyp = [i.item() for i in hyp]] the entries are Python ints, which have
    no such attribute. *)
Definition int_tolist (x : nat) : outcome nat := Raise AttributeError.

(** The [if log_attn:] block at the end of [predict]. *)
Definition dump_log_attn (all_hyp : list (list nat)) : run () :=
  _ ← lift (for_each (for_each int_tolist) all_hyp);
  emit EvJsonDump.

(** [h.repeat(beam_size, 1)]: the rows of the batch, [K] times over. *)
Definition repeat_rows {X} (K : nat) (l : list X) : list X :=
  concat (replicate K l).

Definition beam_init (K batch_size : nat) (hn cn : list H) : beam_state :=
  {| bs_beam := replicate batch_size (new_beam K);
     bs_hn := repeat_rows K hn;
     bs_cn := repeat_rows K cn;
     bs_attns := [] |}.

(** Steps (1) to (3) of [predict]: encoding, set-up of the beams and main
    loop; [repeat] raises on a negative count. Returns the final loop state
    and the edit logits. *)
Definition beam_decode (batch : list Inp) (beam_size : Z)
    : run (beam_state * option (list Logits)) :=
  '(ctx, (hn, cn)) ← encode_batch batch;
  let batch_size := length batch in
  let edit_logits := edit_logits_of hn in
  if decide (beam_size < 0)%Z then lift (Raise RuntimeError)
  else
    let K := Z.to_nat beam_size in
    st ← main_loop (Z.to_nat max_dec_len) beam_size (repeat_rows K ctx) batch_size
                   (beam_init K batch_size hn cn);
    mret (st, edit_logits).

(** The search with its back trace: the hypotheses, their scores
    ([all_scores], local to [predict]), the edit logits and the attention
    weights. *)
Definition beam_search (batch : list Inp) (beam_size : Z)
    : run (list (list nat) * list score * option (list Logits) * list (list Attn)) :=
  '(st, edit_logits) ← beam_decode batch beam_size;
  '(all_hyp, all_scores) ← lift (back_trace (bs_beam st));
  mret (all_hyp, all_scores, edit_logits, bs_attns st).

(** The part of [predict] below the [beam_size == 1] test. *)
Definition predict_beam (batch : list Inp) (beam_size : Z) (log_attn : bool)
    : run (py_result Inp Attn Logits) :=
  '(all_hyp, _, edit_logits, _) ← beam_search batch beam_size;
  (if log_attn then dump_log_attn all_hyp else mret ());;
  mret (Ret2 all_hyp edit_logits).

Definition predict (batch : list Inp) (beam_size : Z) (log_attn : bool)
    : run (py_result Inp Attn Logits) :=
  if decide (beam_size = 1%Z) then predict_greedy batch log_attn
  else predict_beam batch beam_size log_attn.

End Predict.

(** ** [forward]: lexicon dropout

    [lem] and [lem_mask] are the caller's tensors: they are passed by
    reference, and the masked assignments write into them. [draw i] is the
    i-th number produced by [uniform_()]. The whole of [forward] follows
    the encoder inputs below. *)

Abbreviation heap := (gmap nat (list (list nat))).

Section Forward.

Context {constant : Constant} {args : Args}.

(** [t.size(1)]. *)
Definition cols (t : list (list nat)) : nat := length (default [] (head t)).

(** [[SOS_ID, EOS_ID] + [PAD_ID] * (L - 2)]; a negative count gives the
    empty list, like the truncated subtraction. *)
Definition lem_stump (L : nat) : list nat :=
  [SOS_ID; EOS_ID] ++ replicate (L - 2) PAD_ID.

(** [[0]*3 + [1]*(L - 3)]. *)
Definition lem_mask_stump (L : nat) : list nat :=
  replicate 3 0 ++ replicate (L - 3) 1.

(** [torch.FloatTensor(n).uniform_() < self.lexicon_dropout]. *)
Definition lem_hide (draw : nat → Q) (n : nat) : list bool :=
  map (λ i, Qltb (draw i) lexicon_dropout) (seq 0 n).

(** [t[hide] = stump.repeat(t[hide].size(0), 1)]: the mask has one entry
    per row of [t], and the stump the width of [t]. *)
Definition masked_assign (t : list (list nat)) (hide : list bool) (stump : list nat)
    : outcome (list (list nat)) :=
  if decide (length hide = length t) then
    if decide (length stump = cols t) then
      Ok (zip_with (λ (h : bool) row, if h then stump else row) hide t)
    else Raise RuntimeError
  else Raise IndexError.

(** The block under [if self.is_lexicon and self.lexicon_dropout > 0].
    The two stubs are built first, from [lem.size(1)] and
    [lem_mask.dtype]: a reference that holds no tensor ([lem=None],
    [lem_mask=None]) has neither, and nothing is written then. *)
Definition lexicon_dropout_block (lem lem_mask : nat) (draw : nat → Q) (h : heap)
    : heap * outcome () :=
  if is_lexicon && Qltb 0 lexicon_dropout then
    match h !! lem, h !! lem_mask with
    | Some lem_t, Some _ =>
        let L := cols lem_t in
        let hide := lem_hide draw (length lem_t) in
        if existsb id hide then
          match masked_assign lem_t hide (lem_stump L) with
          | Raise e => (h, Raise e)
          | Ok lem_t' =>
              let h1 := <[lem := lem_t']> h in
              match h1 !! lem_mask with
              | None => (h1, Raise AttributeError)
              | Some mask_t =>
                  match masked_assign mask_t hide (lem_mask_stump L) with
                  | Raise e => (h1, Raise e)
                  | Ok mask_t' => (<[lem_mask := mask_t']> h1, Ok ())
                  end
              end
          end
        else (h, Ok ())
    | _, _ => (h, Raise AttributeError)
    end
  else (h, Ok ()).

End Forward.

(** ** A stub scorer for concrete runs

    Vocabulary: PAD = 0, SOS = 1, EOS = 2, a = 3, b = 4. The recurrent state
    of a row counts the steps taken; an input is the script of tokens the
    scorer favours, step after step (end-of-sequence once the script is
    exhausted). The source and the lexicon entry of an example hold its
    script and one more position. The module is in evaluation mode. *)
Module Stub.

Definition constant : Constant := {| PAD_ID := 0; SOS_ID := 1; EOS_ID := 2 |}.

Definition args (max_len : Z) : Args :=
  {| vocab_size := 5;
     dec_hidden_dim := 4;
     max_dec_len := max_len;
     edit := true;
     is_lexicon := true;
     lexicon_dropout := 1 # 2;
     emb_dropout := 1 # 2;
     training := false |}.


Definition lens : Lens (list nat) :=
  {| src_len script := S (length script);
     lem_len script := S (length script) |}.

(** Two draws of the dropout mask, as the stub encoder reads the lexicon
    entry after them: one that drops no entry and leaves the whole script,
    one that drops every entry and leaves no script. *)
Definition keep : EmbMask (list nat) := {| emb_mask _ script := script |}.

(** A pruning for the concrete runs: the hypothesis up to its first
    end-of-sequence token. *)
Fixpoint until_eos (hyp : list nat) : list nat :=
  match hyp with
  | [] => []
  | t :: hyp' => if decide (t = 2) then [] else t :: until_eos hyp'
  end.

Definition utils : Utils := {| prune_hyp := until_eos |}.

Definition favoured (script : list nat) (n : nat) : nat := default 2 (script !! n).

Definition scorer : Scorer nat (list nat) (list nat) nat nat :=
  {| encode script := (script, (0, 0));
     step script prev st :=
       (λ v, if decide (v = favoured script st.1) then (-1)%Z else (-5)%Z,
        (S st.1, st.2), st.1);
     edit_clf h := h + 7 |}.

Definition predict (max_len : Z) (batch : list (list nat)) (beam_size : Z)
    (log_attn : bool) : run (py_result (list nat) nat nat) :=
  predict (constant := constant) (args := args max_len) (utils := utils)
          (scorer := scorer) (lens := lens) (mask := keep) batch beam_size log_attn.

Definition predict_greedy (max_len : Z) (batch : list (list nat)) (log_attn : bool)
    : run (py_result (list nat) nat nat) :=
  predict_greedy (constant := constant) (args := args max_len) (scorer := scorer)
                 (lens := lens) (mask := keep) batch log_attn.

Definition predict_beam (max_len : Z) (batch : list (list nat)) (beam_size : Z)
    (log_attn : bool) : run (py_result (list nat) nat nat) :=
  predict_beam (constant := constant) (args := args max_len) (utils := utils)
               (scorer := scorer) (lens := lens) (mask := keep)
               batch beam_size log_attn.

(** The main loop alone, with its own bound, on an encoded batch. *)
Definition loop (fuel : nat) (batch : list (list nat)) (beam_size : Z)
    : run (beam_state (H := nat) (Attn := nat)) :=
  let enc := map (encode (Scorer := scorer)) batch in
  let K := Z.to_nat beam_size in
  main_loop (constant := constant) (args := args 4) (scorer := scorer)
            fuel beam_size (repeat_rows K enc.*1) (length batch)
            (beam_init K (length batch) enc.*2.*1 enc.*2.*2).

End Stub.

(** ** Predicates used in the statements *)


(** Every example's beam reports done. *)
Definition all_done (beam : list Beam) : Prop :=
  Forall (λ b, done b = true) beam.

(** A beam of width [K] is well formed: [K] scores, as many token rows as
    backpointer rows, all [K] wide, backpointers below [K], and a finished
    beam has made at least one step. *)
Definition beam_wf (K : nat) (b : Beam) : Prop :=
  size b = K
  ∧ length (scores b) = K
  ∧ length (tokens b) = length (backpointers b)
  ∧ Forall (λ row, length row = K) (tokens b)
  ∧ Forall (λ row, length row = K ∧ Forall (λ p, p < K) row) (backpointers b)
  ∧ (done b = true → tokens b ≠ []).

Section StatePredicates.

Context {H Attn : Type}.


End StatePredicates.

Section Reachable.

Context {constant : Constant} {args : Args}.
Context {H Inp Ctx Attn Logits : Type} {scorer : Scorer H Inp Ctx Attn Logits}.






End Reachable.

(** A batch that both calls of [encode] accept: it is not empty, and every
    example has a position that is not masked in its source and in its
    lexicon entry. *)
Definition packable {Inp : Type} {lens : Lens Inp} (batch : list Inp) : Prop :=
  batch ≠ [] ∧ Forall (λ x, 0 < src_len x ∧ 0 < lem_len x) batch.

(** A pruning that returns a hypothesis without end-of-sequence token as it
    is, and one closed by that token without it. *)
Definition cuts_closing_eos {constant : Constant} {utils : Utils} : Prop :=
  ∀ hyp, EOS_ID ∉ hyp → prune_hyp hyp = hyp ∧ prune_hyp (hyp ++ [EOS_ID]) = hyp.


(** [p] is the index of the first maximal entry of [l]. *)
Definition first_max (l : list Z) (p : nat) : Prop :=
  ∃ m, l !! p = Some m
       ∧ (∀ j x, l !! j = Some x → (x ≤ m)%Z)
       ∧ (∀ j x, l !! j = Some x → j < p → (x < m)%Z).

(** Number of examples marked done. *)
Definition count_true (l : list bool) : nat := length (filter (λ d, d = true) l).

Section Simulation.

Context {constant : Constant} {H Attn : Type}.

(** The beam of width 1 of an example, against the greedy record of that
    example ([d]: done, [t]: token to feed next, [out]: output so far): one
    token per row, the output followed by end-of-sequence once done, every
    origin 0, and, while live, the fed token as current state. *)
Definition sim_beam (d : bool) (t : nat) (out : list nat) (bm : Beam) : Prop :=
  size bm = 1
  ∧ (∃ s, scores bm = [Fin s])
  ∧ done bm = d
  ∧ tokens bm = map (λ x, [x]) (if d then out ++ [EOS_ID] else out)
  ∧ backpointers bm = map (λ _, [0]) (tokens bm)
  ∧ (d = false → get_current_state bm = [t]).

(** The loop state of the greedy path against that of the beam path of
    width 1, on [n] examples: the beams match example by example, and the
    carried states agree on the examples that are not done. *)
Definition sim_state (n : nat) (g : greedy_state (H := H) (Attn := Attn))
    (s : beam_state (H := H) (Attn := Attn)) : Prop :=
  length (g_dec_inputs g) = n ∧ length (g_hn g) = n ∧ length (g_cn g) = n
  ∧ length (g_done g) = n ∧ length (g_output_seqs g) = n
  ∧ length (bs_beam s) = n ∧ length (bs_hn s) = n ∧ length (bs_cn s) = n
  ∧ g_total_done g = count_true (g_done g)
  ∧ ∀ b d t out,
      g_done g !! b = Some d → g_dec_inputs g !! b = Some t →
      g_output_seqs g !! b = Some out →
      ∃ bm, bs_beam s !! b = Some bm ∧ sim_beam d t out bm
            ∧ (d = false → g_hn g !! b = bs_hn s !! b ∧ g_cn g !! b = bs_cn s !! b).

End Simulation.


(** ** The greedy path, one example at a time *)

Section GreedySequence.

Context {constant : Constant} {args : Args}.
Context {H Inp Ctx Attn Logits : Type} {scorer : Scorer H Inp Ctx Attn Logits}.
Context {mask : EmbMask Inp}.



End GreedySequence.

Section GreedyProgressDef.

Context {args : Args} {H Attn : Type}.


End GreedyProgressDef.

(** ** Inputs of the encoders

    [Seq2SeqModel.forward], the first phase of [Seq2SeqModel.predict] and
    the lines of [Seq2SeqModelCombined.forward] between the dropout block
    and the decoder prepare what the recurrent encoders read. Besides the
    exceptions above they raise that of [assert], and a [TypeError] where
    a number stands for a tensor. *)

Inductive py_exn : Type :=
  | Exn (e : exn)
  | AssertionError
  | TypeError.

Inductive attempt (A : Type) : Type :=
  | Returns (a : A)
  | Throws (e : py_exn).
Arguments Returns {A} a.
Arguments Throws {A} e.

#[global] Instance attempt_ret : MRet attempt := @Returns.
#[global] Instance attempt_bind : MBind attempt := fun A B f m =>
  match m with
  | Returns a => f a
  | Throws e => Throws e
  end.

Definition of_outcome {A} (o : outcome A) : attempt A :=
  match o with
  | Ok a => Returns a
  | Raise e => Throws (Exn e)
  end.

Section Rows.

Context {X : Type}.

(** [t.size(1)] of a batch of sequences. *)
Definition width (t : list (list X)) : nat := length (default [] (head t)).

(** The lengths never increase along the batch (the library's
    "decreasing order"). *)
Fixpoint decreasing (lens : list nat) : bool :=
  match lens with
  | [] => true
  | a :: rest =>
      match rest with
      | [] => true
      | b :: _ => (b <=? a) && decreasing rest
      end
  end.

(** [pack_padded_sequence(inputs, lens, batch_first=True,
    enforce_sorted=...)], as the rows that the recurrent network goes on to
    read, in the order of the batch: the first [lens[i]] positions of row
    [i]. The library refuses an empty input, a length that is not
    positive, a number of lengths other than the number of rows (with
    [enforce_sorted=False] the rows are first selected by the sorted
    indices of the lengths, so that only too many lengths are refused), and
    with [enforce_sorted=True], which is the default, lengths that increase
    somewhere along the batch. *)
Definition pack_padded_sequence (enforce_sorted : bool) (inputs : list (list X))
    (lens : list nat) : outcome (list (list X)) :=
  if decide (length inputs < length lens) then
    Raise (if enforce_sorted then RuntimeError else IndexError)
  else if decide (length lens < length inputs ∧ enforce_sorted = true) then
    Raise RuntimeError
  else if decide (lens = [] ∨ width inputs = 0) then Raise RuntimeError
  else if decide (Forall (λ l, 0 < l) lens
                  ∧ (enforce_sorted = true → decreasing lens = true)) then
    Ok (zip_with take lens inputs)
  else Raise RuntimeError.

(** [torch.cat([a, b], dim=1)] on tensors whose vectors have [da] and
    [db] components: the batch sizes and the vector sizes must agree. *)
Definition cat_rows (da db : nat) (a b : list (list X)) : outcome (list (list X)) :=
  if decide (length a = length b ∧ da = db) then Ok (zip_with app a b)
  else Raise RuntimeError.

(** One call of a dropout layer on a batch of sequences: [drop b j] is
    what the mask drawn by this call does to position [j] of row [b] (the
    identity when the module is in evaluation mode). *)
Definition dropout (drop : nat → nat → X → X) (t : list (list X)) : list (list X) :=
  imap (λ b row, imap (drop b) row) t.

(** [emb(ids)] for an [nn.Embedding] of [size] rows given by [table]: an id
    outside the table raises. *)
Definition embed (size : nat) (table : nat → X) (ids : list (list nat))
    : outcome (list (list X)) :=
  if decide (Forall (Forall (λ i, i < size)) ids) then Ok (map (map table) ids)
  else Raise IndexError.

End Rows.

Section Lengths.

Context {constant : Constant}.

(** [list(mask.data.eq(constant.PAD_ID).long().sum(1))]: for every row,
    the number of entries of the mask that equal [PAD_ID]. *)
Definition mask_lens (mask : list (list nat)) : list nat :=
  map (λ row, length (filter (λ m, m = PAD_ID) row)) mask.

(** [max(lens)]. *)
Definition py_max (lens : list nat) : attempt nat :=
  match lens with
  | [] => Throws (Exn ValueError)
  | l :: rest => Returns (foldl Nat.max l rest)
  end.

(** [mask.narrow(1, 0, len)]. *)
Definition narrow (mask : list (list nat)) (len : nat) : attempt (list (list nat)) :=
  if decide (len ≤ width mask) then Returns (map (take len) mask)
  else Throws (Exn RuntimeError).

End Lengths.

(** The entries of [args] that [Seq2SeqModel] reads besides those above,
    with the two embedding tables as functions of the id. *)
Class SingleArgs (E : Type) : Type := {
  emb_dim : nat;
  use_pos : bool;
  pos_first : bool;
  pos_dim : nat;
  pos_vocab_size : nat;
  use_feats : bool;
  feats_first : bool;
  use_vabamorf : bool;
  vabamorf_first : bool;
  embedding : nat → E;
  pos_embedding : nat → E
}.

Section SingleContext.

Context {constant : Constant} {args : Args}.
Context {E Feats Enc Logits LogProbs : Type} {single : SingleArgs E}.

(** The masks drawn by the calls of [emb_drop] on the source, the target
    and the lemma, and by the call of [pos_drop]. *)
Context (emb_drop_src emb_drop_tgt emb_drop_lem : nat → nat → E → E).
Context (pos_drop : nat → E → E).

(** The loop over [self.vocab['feats']], which sums the embeddings of the
    features of every position (and leaves the number 0 when there is no
    feature); the vocabulary object is outside the verified files. *)
Context (feats_inputs : Feats → attempt (list (list E))).

(** The recurrent encoder on the packed rows, from the zero state, with
    the re-padding of its outputs and the concatenation of its final
    states; the classifier of the edit; the decoder on the embedded
    target, the encoding and the source mask. These modules are outside
    the verified files, and each may raise. *)
Context (encoder : list (list E) → attempt Enc).
Context (edit_classifier : Enc → attempt Logits).
Context (decoder : list (list E) → Enc → list (list nat) → attempt LogProbs).

(** [Seq2SeqModel.encode]: [enforce_sorted] is left at its default. *)
Definition encode_single (enc_inputs : list (list E)) (lens : list nat) : attempt Enc :=
  packed ← of_outcome (pack_padded_sequence true enc_inputs lens);
  encoder packed.

(** [self.edit_clf(hn)] when the model has an edit classifier. *)
Definition edit_logits_single (enc : Enc) : attempt (option Logits) :=
  if edit then logits ← edit_classifier enc; Returns (Some logits)
  else Returns None.

(** [torch.cat([extra, enc_inputs], dim=1)] or the other way round. *)
Definition cat_extra (first : bool) (dim : nat) (extra enc_inputs : list (list E))
    : outcome (list (list E)) :=
  if first then cat_rows dim emb_dim extra enc_inputs
  else cat_rows emb_dim dim enc_inputs extra.

(** The three blocks under [if self.use_pos], [if self.use_feats] and
    [if self.use_vabamorf], shared by [forward] and [predict]. *)
Definition extra_inputs (enc_inputs : list (list E)) (pos : option (list nat))
    (feats : option Feats) (lem lem_mask : option (list (list nat)))
    : attempt (list (list E)) :=
  enc1 ←
    (if use_pos then
       match pos with
       | None => Throws AssertionError
       | Some pos =>
           if decide (Forall (λ i, i < pos_vocab_size) pos) then
             let pos_inputs := imap (λ b p, [pos_drop b (pos_embedding p)]) pos in
             of_outcome (cat_extra pos_first pos_dim pos_inputs enc_inputs)
           else Throws (Exn IndexError)
       end
     else Returns enc_inputs);
  enc2 ←
    (if use_feats then
       match feats with
       | None => Throws AssertionError
       | Some feats =>
           f ← feats_inputs feats;
           of_outcome (cat_extra feats_first pos_dim f enc1)
       end
     else Returns enc1);
  if use_vabamorf then
    match lem, lem_mask with
    | Some lem, Some _ =>
        v ← of_outcome (embed vocab_size embedding lem);
        of_outcome (cat_extra vabamorf_first emb_dim (dropout emb_drop_lem v) enc2)
    | _, _ => Throws AssertionError
    end
  else Returns enc2.

(** [Seq2SeqModel.forward]. *)
Definition forward_single (src src_mask tgt_in : list (list nat))
    (pos : option (list nat)) (feats : option Feats)
    (lem lem_mask : option (list (list nat)))
    : attempt (LogProbs * option Logits) :=
  enc0 ← of_outcome (embed vocab_size embedding src);
  dec0 ← of_outcome (embed vocab_size embedding tgt_in);
  let dec_inputs := dropout emb_drop_tgt dec0 in
  let src_lens := mask_lens src_mask in
  enc_inputs ← extra_inputs (dropout emb_drop_src enc0) pos feats lem lem_mask;
  enc ← encode_single enc_inputs src_lens;
  edit_logits ← edit_logits_single enc;
  log_probs ← decoder dec_inputs enc src_mask;
  Returns (log_probs, edit_logits).

(** Phase (1) of [Seq2SeqModel.predict], up to the edit logits: the
    source is embedded without dropout. *)
Definition predict_single_encoding (src src_mask : list (list nat))
    (pos : option (list nat)) (feats : option Feats)
    (lem lem_mask : option (list (list nat)))
    : attempt (Enc * option Logits) :=
  enc0 ← of_outcome (embed vocab_size embedding src);
  let src_lens := mask_lens src_mask in
  enc_inputs ← extra_inputs enc0 pos feats lem lem_mask;
  enc ← encode_single enc_inputs src_lens;
  edit_logits ← edit_logits_single enc;
  Returns (enc, edit_logits).

End SingleContext.

(** The same model without the three optional inputs. *)
Definition without_extras {E} (single : SingleArgs E) : SingleArgs E :=
  {| emb_dim := emb_dim;
     use_pos := false;
     pos_first := pos_first;
     pos_dim := pos_dim;
     pos_vocab_size := pos_vocab_size;
     use_feats := false;
     feats_first := feats_first;
     use_vabamorf := false;
     vabamorf_first := vabamorf_first;
     embedding := embedding;
     pos_embedding := pos_embedding |}.

Section LexiconEncoding.

Context {constant : Constant} {args : Args}.
Context {E Enc : Type}.

(** The embedding table, the mask drawn by the call of [emb_drop] on the
    lemma, and the recurrent encoder of the lexicon on the packed rows,
    which may raise. *)
Context (table : nat → E).
Context (emb_drop_lem : nat → nat → E → E).
Context (lexicon_encoder : list (list E) → attempt Enc).

(** Lines 420 to 428 of [Seq2SeqModelCombined.forward], on the lexicon
    tensors as the dropout block leaves them: the rows that the encoder of
    the lexicon reads ([Seq2SeqModelCombined.encode] packs with
    [enforce_sorted=False]) and the mask handed to the decoder. *)
Definition lexicon_packed (lem lem_mask : list (list nat))
    : attempt (list (list E) * list (list nat)) :=
  lem0 ← of_outcome (embed vocab_size table lem);
  let lem_inputs := dropout emb_drop_lem lem0 in
  let lem_lens := mask_lens lem_mask in
  m ← py_max lem_lens;
  lem_mask' ← (if decide (width lem_mask ≠ m) then narrow lem_mask m
               else Returns lem_mask);
  packed ← of_outcome (pack_padded_sequence false lem_inputs lem_lens);
  Returns (packed, lem_mask').

Definition lexicon_encoding (lem lem_mask : list (list nat))
    : attempt (Enc * list (list nat)) :=
  '(packed, lem_mask') ← lexicon_packed lem lem_mask;
  enc ← lexicon_encoder packed;
  Returns (enc, lem_mask').

(** Lines 404 to 428: the dropout block, then the encoding of the lexicon
    tensors that it leaves in the heap. The embedding refuses [None]; a
    mask that is [None] has no [data]. *)
Definition forward_lexicon (lem lem_mask : nat) (draw : nat → Q) (h : heap)
    : heap * attempt (Enc * list (list nat)) :=
  let '(h1, r) := lexicon_dropout_block lem lem_mask draw h in
  match r with
  | Raise e => (h1, Throws (Exn e))
  | Ok _ =>
      match h1 !! lem with
      | None => (h1, Throws TypeError)
      | Some lem_t =>
          match h1 !! lem_mask with
          | None =>
              (h1, _ ← of_outcome (embed vocab_size table lem_t);
                   Throws (Exn AttributeError))
          | Some mask_t => (h1, lexicon_encoding lem_t mask_t)
          end
      end
  end.

End LexiconEncoding.

Section CombinedForward.

Context {constant : Constant} {args : Args}.
Context {E Enc LexEnc Out : Type}.

(** The embedding table and the masks drawn by the three calls of
    [emb_drop]. *)
Context (table : nat → E).
Context (emb_drop_src emb_drop_tgt emb_drop_lem : nat → nat → E → E).

(** The two recurrent encoders on their packed rows, and what follows the
    encoding of the lexicon (lines 430 to 443: the projection of the final
    states, the edit classifier and the decoder on the embedded target,
    the two encodings and the two masks). These modules are outside the
    verified files, and each may raise. *)
Context (encoder : list (list E) → attempt Enc).
Context (lexicon_encoder : list (list E) → attempt LexEnc).
Context (decoder : list (list E) → Enc → LexEnc → list (list nat) → list (list nat)
                   → attempt Out).

(** Lines 398 to 402 of [Seq2SeqModelCombined.forward]: the embeddings of
    the source and of the target, the lengths of the source and its
    encoding. Nothing has been written when one of them raises. *)
Definition source_encoding (src src_mask tgt_in : list (list nat))
    : attempt (list (list E) * Enc) :=
  enc0 ← of_outcome (embed vocab_size table src);
  dec0 ← of_outcome (embed vocab_size table tgt_in);
  let enc_inputs := dropout emb_drop_src enc0 in
  let dec_inputs := dropout emb_drop_tgt dec0 in
  let src_lens := mask_lens src_mask in
  packed ← of_outcome (pack_padded_sequence false enc_inputs src_lens);
  enc ← encoder packed;
  Returns (dec_inputs, enc).

(** [Seq2SeqModelCombined.forward]: the source, then the dropout block and
    the lexicon, then the decoder. *)
Definition forward (src src_mask tgt_in : list (list nat)) (lem lem_mask : nat)
    (draw : nat → Q) (h : heap) : heap * attempt Out :=
  match source_encoding src src_mask tgt_in with
  | Throws e => (h, Throws e)
  | Returns (dec_inputs, enc) =>
      let '(h1, r) := forward_lexicon table emb_drop_lem lexicon_encoder
                        lem lem_mask draw h in
      match r with
      | Throws e => (h1, Throws e)
      | Returns (lex, lem_mask') => (h1, decoder dec_inputs enc lex src_mask lem_mask')
      end
  end.

End CombinedForward.

(** ** Reshaping the outputs of the decoder

    [get_log_prob] and the last lines of [decode] only reshape and apply
    layers that act on the last axis. A tensor is its shape with its
    entries in row-major order. *)

Record tensor (X : Type) : Type := Tensor { shape : list nat; data : list X }.
Arguments Tensor {X} shape data.
Arguments shape {X} t.
Arguments data {X} t.

Section Reshape.

Context {X : Type}.

(** The number of entries of a tensor of the given sizes. *)
Definition numel (dims : list nat) : nat := foldr Nat.mul 1 dims.

(** [t.size(k)]. *)
Definition size_at (t : tensor X) (k : nat) : outcome nat := index (shape t) k.

(** [t.view(dims)] on a contiguous tensor, with [None] for [-1]: without
    [-1] the sizes must multiply to the number of entries; one [-1] is
    inferred when the other sizes multiply to a positive number that
    divides the number of entries. *)
Definition view (t : tensor X) (dims : list (option nat)) : outcome (tensor X) :=
  let known := numel (omap id dims) in
  let n := length (data t) in
  match length (filter (λ d, d = None) dims) with
  | 0 =>
      if decide (known = n) then Ok (Tensor (omap id dims) (data t))
      else Raise RuntimeError
  | 1 =>
      if decide (0 < known ∧ n `mod` known = 0) then
        Ok (Tensor (map (default (n `div` known)) dims) (data t))
      else Raise RuntimeError
  | _ => Raise RuntimeError
  end.

(** The [n] rows of width [w] of a list of entries. *)
Definition rows_of (n w : nat) (entries : list X) : list (list X) :=
  map (λ r, take w (drop (r * w) entries)) (seq 0 n).

(** A layer [nn.Linear(w_in, w_out)], given by what it does to one
    vector: it acts on the last axis, which must have [w_in] entries. *)
Definition linear (w_in w_out : nat) (f : list X → list X) (t : tensor X)
    : outcome (tensor X) :=
  match reverse (shape t) with
  | c :: outer =>
      if decide (c = w_in) then
        Ok (Tensor (reverse (w_out :: outer))
                   (concat (map f (rows_of (numel outer) c (data t)))))
      else Raise RuntimeError
  | [] => Raise RuntimeError
  end.

End Reshape.

Section DecoderOutputs.

Context {args : Args}.
Context {X : Type}.

(** [F.log_softmax] on one row, and the layer [dec2vocab] on one vector. *)
Context (log_softmax : list X → list X).
Context (dec2vocab : list X → list X).

(** [get_log_prob]; the softmax runs along axis 1 of a view that has two
    axes. *)
Definition get_log_prob (logits : tensor X) : outcome (tensor X) :=
  logits_reshape ← view logits [None; Some vocab_size];
  let n := default 0 (head (shape logits_reshape)) in
  let log_probs :=
    Tensor (shape logits_reshape)
           (concat (map log_softmax (rows_of n vocab_size (data logits_reshape)))) in
  if decide (length (shape logits) = 2) then Ok log_probs
  else
    s0 ← size_at logits 0;
    s1 ← size_at logits 1;
    s2 ← size_at logits 2;
    view log_probs [Some s0; Some s1; Some s2].

(** The lines of [decode] that follow the call of the decoder, on its
    output [h_out]. *)
Definition decode_log_probs (h_out : tensor X) : outcome (tensor X) :=
  s0 ← size_at h_out 0;
  s1 ← size_at h_out 1;
  h_out_reshape ← view h_out [Some (s0 * s1); None];
  decoder_logits ← linear dec_hidden_dim vocab_size dec2vocab h_out_reshape;
  decoder_logits ← view decoder_logits [Some s0; Some s1; None];
  get_log_prob decoder_logits.

End DecoderOutputs.

(** ** A stub of the single-context model

    Vectors are numbers: a token is embedded as its id, a tag as 100 plus
    its id; no dropout; the encoder hands back the rows it reads. *)
Module SingleStub.

Definition tagged (first : bool) : SingleArgs nat :=
  {| emb_dim := 4;
     use_pos := true;
     pos_first := first;
     pos_dim := 4;
     pos_vocab_size := 3;
     use_feats := false;
     feats_first := false;
     use_vabamorf := false;
     vabamorf_first := false;
     embedding := λ i, i;
     pos_embedding := λ p, 100 + p |}.

Definition forward (single : SingleArgs nat) (src src_mask tgt_in : list (list nat))
    (pos : option (list nat))
    : attempt (list (list nat) * list (list nat) * list (list nat) * option nat) :=
  forward_single (constant := Stub.constant) (args := Stub.args 3) (single := single)
    (λ _ _ x, x) (λ _ _ x, x) (λ _ _ x, x) (λ _ x, x)
    (λ _ : (), Throws TypeError)
    (λ rows, Returns rows) (λ rows, Returns (length rows))
    (λ dec enc mask, Returns (dec, enc, mask))
    src src_mask tgt_in pos None None None.

Definition predict_encoding (single : SingleArgs nat) (src src_mask : list (list nat))
    (pos : option (list nat)) : attempt (list (list nat) * option nat) :=
  predict_single_encoding (constant := Stub.constant) (args := Stub.args 3)
    (single := single)
    (λ _ _ x, x) (λ _ x, x) (λ _ : (), Throws TypeError)
    (λ rows, Returns rows) (λ rows, Returns (length rows))
    src src_mask pos None None None.

(** The lexicon part of the combined model, with the same conventions. *)
Definition lexicon_packed (lem lem_mask : list (list nat))
    : attempt (list (list nat) * list (list nat)) :=
  lexicon_packed (constant := Stub.constant) (args := Stub.args 3)
    (λ i, i) (λ _ _ x, x) lem lem_mask.

End SingleStub.

(** ** A stub of the combined model

    The same conventions: both encoders hand back the rows they read, and
    the decoder what it is given. *)
Module CombinedStub.

Definition source_encoding (src src_mask tgt_in : list (list nat))
    : attempt (list (list nat) * list (list nat)) :=
  source_encoding (constant := Stub.constant) (args := Stub.args 3)
    (λ i, i) (λ _ _ x, x) (λ _ _ x, x) (λ rows, Returns rows) src src_mask tgt_in.

Definition forward (args : Args) (src src_mask tgt_in : list (list nat))
    (lem lem_mask : nat) (draw : nat → Q) (h : heap)
    : heap * attempt (list (list nat) * list (list nat) * list (list nat)
                      * list (list nat)) :=
  forward (constant := Stub.constant) (args := args)
    (λ i, i) (λ _ _ x, x) (λ _ _ x, x) (λ _ _ x, x)
    (λ rows, Returns rows) (λ rows, Returns rows)
    (λ dec enc lex _ lem_mask, Returns (dec, enc, lex, lem_mask))
    src src_mask tgt_in lem lem_mask draw h.

(** Two source words, their masks and their targets. *)
Definition src : list (list nat) := [[3; 4]; [3; 2]].
Definition src_mask : list (list nat) := [[0; 0]; [0; 1]].
Definition tgt_in : list (list nat) := [[1; 3]; [1; 4]].

End CombinedStub.

(** * Properties *)

(** ** Reasoning about outcomes and runs *)

Lemma bind_Ok {A B} (m : outcome A) (f : A → outcome B) b :
  m ≫= f = Ok b ↔ ∃ a, m = Ok a ∧ f a = Ok b.
Proof.
  destruct m as [a|e]; simpl; split.
  - intros Hf. by exists a.
  - by intros (a' & [= ->] & Hf).
  - intros [=].
  - by intros (a & [=] & _).
Qed.

Lemma index_Ok {A} (l : list A) i x : index l i = Ok x ↔ l !! i = Some x.
Proof. unfold index. destruct (l !! i); split; congruence. Qed.

Lemma index_lt {A} (l : list A) i : i < length l → ∃ x, index l i = Ok x ∧ l !! i = Some x.
Proof.
  intros Hi. destruct (lookup_lt_is_Some_2 l i Hi) as [x Hx].
  exists x. split; [by apply index_Ok|done].
Qed.

Lemma for_each_Raise {A B} (f : A → outcome B) (l : list A) x e :
  x ∈ l → f x = Raise e → ∃ e', for_each f l = Raise e'.
Proof.
  induction l as [|y l IH]; intros Hin Hx.
  - by apply elem_of_nil in Hin.
  - simpl. destruct (f y) as [b|e1] eqn:Hy; simpl; [|by eexists].
    apply elem_of_cons in Hin as [->|Hin]; [congruence|].
    destruct (IH Hin Hx) as [e' ->]. by eexists.
Qed.


(** [for_each] succeeds exactly when [f] does on every entry; the results
    are then the pointwise images. *)
Lemma for_each_Ok {A B} (f : A → outcome B) (l : list A) (ys : list B) :
  for_each f l = Ok ys ↔ Forall2 (λ x y, f x = Ok y) l ys.
Proof.
  revert ys. induction l as [|x l IH]; intros ys; simpl.
  - split; [intros [= <-]; constructor|by inversion 1].
  - split.
    + intros (y & Hy & Hrest)%bind_Ok. apply bind_Ok in Hrest as (ys' & Hys & [= <-]).
      constructor; [done|by apply IH].
    + inversion 1 as [|? y ? ys' Hy Hys]; subst. rewrite Hy. simpl.
      apply IH in Hys. by rewrite Hys.
Qed.

Lemma for_each_ext {A B} (f g : A → outcome B) (l : list A) :
  (∀ x, x ∈ l → f x = g x) → for_each f l = for_each g l.
Proof.
  induction l as [|x l IH]; intros Hfg; [done|]. simpl.
  rewrite (Hfg x) by (apply elem_of_cons; by left).
  destruct (g x); simpl; [|done].
  rewrite IH; [done|]. intros y Hy. apply Hfg. apply elem_of_cons. by right.
Qed.

Lemma for_in_app {S} (l1 l2 : list nat) (f : nat → S → outcome S) (s : S) :
  for_in (l1 ++ l2) f s = for_in l1 f s ≫= for_in l2 f.
Proof.
  revert s. induction l1 as [|i l1 IH]; intros s; [done|]. simpl.
  destruct (f i s); simpl; [apply IH|done].
Qed.

Lemma run_bind_unfold {A B} (m : run A) (f : A → run B) :
  m ≫= f = match result m with
           | Ok a => Run (trace m ++ trace (f a)) (result (f a))
           | Raise e => Run (trace m) (Raise e)
           end.
Proof. reflexivity. Qed.

Lemma run_bind_Ok {A B} (m : run A) (f : A → run B) tr b :
  m ≫= f = Run tr (Ok b) ↔
  ∃ tr1 a tr2, m = Run tr1 (Ok a) ∧ f a = Run tr2 (Ok b) ∧ tr = tr1 ++ tr2.
Proof.
  rewrite run_bind_unfold. destruct m as [tr1 [a|e]]; simpl; split.
  - destruct (f a) as [tr2 r2] eqn:Hfa; simpl. intros [= <- ->].
    exists tr1, a, tr2. by rewrite Hfa.
  - intros (tr1' & a' & tr2 & [= <- <-] & -> & ->). done.
  - intros [=].
  - intros (? & ? & ? & [=] & _).
Qed.

Lemma run_bind_result_Ok {A B} (m : run A) (f : A → run B) b :
  result (m ≫= f) = Ok b → ∃ a, result m = Ok a ∧ result (f a) = Ok b.
Proof.
  rewrite run_bind_unfold. destruct (result m) as [a|e]; simpl; [|done].
  intros Hf. by exists a.
Qed.

Lemma run_eta {A} (r : run A) : r = Run (trace r) (result r).
Proof. by destruct r. Qed.

Lemma lift_bind {A B} (o : outcome A) (f : A → run B) :
  lift o ≫= f = match o with
                | Ok a => f a
                | Raise e => Run [] (Raise e)
                end.
Proof. destruct o as [a|e]; [|done]. rewrite run_bind_unfold. simpl. by destruct (f a). Qed.

Lemma count_event_app e l1 l2 :
  count_event e (l1 ++ l2) = count_event e l1 + count_event e l2.
Proof. unfold count_event. by rewrite filter_app, length_app. Qed.

(** ** Ranking *)

Lemma length_insert_desc x l : length (insert_desc x l) = S (length l).
Proof.
  induction l as [|y l IH]; [done|]. simpl.
  destruct (sltb x.2 y.2); simpl; by rewrite ?IH.
Qed.

Lemma length_rank_desc l : length (rank_desc l) = length l.
Proof.
  unfold rank_desc. rewrite <- (length_imap (λ i s, (i, s)) l).
  induction (imap (λ i s, (i, s)) l) as [|x l' IH]; [done|].
  simpl. by rewrite length_insert_desc, IH.
Qed.

(** ** [update_state] *)

Section UpdateStateFacts.

Context {args : Args} {H : Type}.

(** The view succeeds only when [beam_size] is positive and divides the
    number of rows, provided the rows are not empty. *)
Lemma view_beam_Ok_divides (beam_size : Z) (br n : nat) :
  0 < dec_hidden_dim →
  view_beam beam_size br = Ok n →
  (0 < beam_size)%Z ∧ (beam_size | Z.of_nat br)%Z.
Proof.
  intros Hd. unfold view_beam.
  destruct (decide (beam_size = 0%Z)) as [|Hnz]; [done|].
  match goal with |- context [decide ?P] => destruct (decide P) as [[Hpos Hsz]|] end;
    [|done].
  intros _. split; [done|].
  apply Z.mul_cancel_r in Hsz; [|lia].
  exists (Z.of_nat br `div` beam_size)%Z. lia.
Qed.

(** C5. Whenever one of the carried state tensors passed to [update_state]
    has a number of rows (its beam axis, of size beam * batch) that
    [beam_size] does not divide, the call raises: the [view] inside refuses
    the shape, so no row is reordered silently. State rows are not empty
    (the hidden size of the decoder is positive). *)
Theorem update_state_raises_on_uneven_beam_axis
    (states : list (list H)) (e : list H) (idx : nat) (positions : list nat)
    (beam_size : Z) :
  0 < dec_hidden_dim →
  e ∈ states →
  ¬ (beam_size | Z.of_nat (length e))%Z →
  ∃ err, update_state states idx positions beam_size = Raise err.
Proof.
  intros Hd Hin Hndiv. unfold update_state.
  destruct (update_tensor e idx positions beam_size) as [e'|err] eqn:He.
  - exfalso. unfold update_tensor in He.
    apply bind_Ok in He as (n & Hview & _).
    by apply view_beam_Ok_divides in Hview as [_ Hdiv].
  - by eapply for_each_Raise.
Qed.

End UpdateStateFacts.

(** Three state rows of width 4 and a beam of width 2. *)
Lemma update_state_raises_on_uneven_beam_axis_witness :
  ∃ err, update_state (args := Stub.args 3) [[10; 11; 12]] 0 [1; 0] 2 = Raise err.
Proof.
  apply (update_state_raises_on_uneven_beam_axis (args := Stub.args 3)
           [[10; 11; 12]] [10; 11; 12] 0 [1; 0] 2).
  - simpl. lia.
  - apply elem_of_cons. by left.
  - intros [q Hq]. simpl in Hq. lia.
Defined.

(** ** [predict]: encoding, routing and results *)

Section PredictFacts.

Context {constant : Constant} {args : Args} {utils : Utils}.
Context {H Inp Ctx Attn Logits : Type} {scorer : Scorer H Inp Ctx Attn Logits}.
Context {lens : Lens Inp} {mask : EmbMask Inp}.

Lemma pack_lens_Ok (l : list nat) :
  pack_lens l = Ok () ↔ l ≠ [] ∧ Forall (λ n, 0 < n) l.
Proof. unfold pack_lens. destruct (decide _); split; (done || intros [=]). Qed.


Lemma packable_pack_lens (batch : list Inp) :
  packable batch ↔
  pack_lens (map src_len batch) = Ok () ∧ pack_lens (map lem_len batch) = Ok ().
Proof.
  unfold packable. rewrite !pack_lens_Ok, !Forall_fmap. split.
  - intros [Hne Hall]. split; (split; [by destruct batch|]);
      eapply Forall_impl; try exact Hall; simpl; intros x [? ?]; done.
  - intros [[Hne Hs] [_ Hl]]. split; [by destruct batch|].
    apply Forall_and. split; done.
Qed.

(** The two calls of [encode], one after the other: the first packing that is
    refused ends the call. *)
Lemma encode_batch_unfold (batch : list Inp) :
  encode_batch batch =
  match pack_lens (map src_len batch) with
  | Raise e => Run [EvEncodeSource] (Raise e)
  | Ok _ =>
      match pack_lens (map lem_len batch) with
      | Raise e => Run [EvEncodeSource; EvEncodeLexicon] (Raise e)
      | Ok _ =>
          Run [EvEncodeSource; EvEncodeLexicon]
              (Ok ((imap encoded batch).*1,
                   ((imap encoded batch).*2.*1, (imap encoded batch).*2.*2)))
      end
  end.
Proof.
  unfold encode_batch.
  destruct (pack_lens (map src_len batch)); [|done].
  destruct (pack_lens (map lem_len batch)); done.
Qed.

Lemma encode_batch_eq (batch : list Inp) :
  packable batch →
  encode_batch batch =
  Run [EvEncodeSource; EvEncodeLexicon]
      (Ok ((imap encoded batch).*1,
           ((imap encoded batch).*2.*1, (imap encoded batch).*2.*2))).
Proof.
  intros [Hs Hl]%packable_pack_lens. by rewrite encode_batch_unfold, Hs, Hl.
Qed.

(** A call of [encode_batch] that returns has run both encoders on a batch
    that they accept. *)
Lemma encode_batch_Ok (batch : list Inp) tr r :
  encode_batch batch = Run tr (Ok r) →
  packable batch
  ∧ tr = [EvEncodeSource; EvEncodeLexicon]
  ∧ r = ((imap encoded batch).*1,
         ((imap encoded batch).*2.*1, (imap encoded batch).*2.*2)).
Proof.
  rewrite encode_batch_unfold.
  destruct (pack_lens (map src_len batch)) as [[]|] eqn:Hs; [|done].
  destruct (pack_lens (map lem_len batch)) as [[]|] eqn:Hl; [|done].
  intros [= <- <-]. split; [|done]. by apply packable_pack_lens.
Qed.





(** An empty batch is refused by the packing of the source: the lexicon
    encoder is not called. *)
Lemma encode_batch_nil :
  encode_batch [] = Run [EvEncodeSource] (Raise RuntimeError).
Proof. reflexivity. Qed.

Lemma length_encoded (batch : list Inp) : length (imap encoded batch) = length batch.
Proof. apply length_imap. Qed.

Lemma edit_logits_of_encode (batch : list Inp) :
  edit_logits_of (imap encoded batch).*2.*1
  = if edit then Some (imap (λ b x, edit_clf (encoded b x).2.1) batch) else None.
Proof.
  unfold edit_logits_of. destruct edit; [|done]. f_equal.
  rewrite <- !list_fmap_compose, fmap_imap. done.
Qed.







(** C7. The edit logits that [predict] returns are those computed from
    the encoder's final state before the search starts
    ([self.edit_clf(hn)] when the model has an edit classifier, [None]
    otherwise); neither the greedy loop nor the beam loop, however many
    steps it takes, changes them. *)
Theorem edit_logits_pass_through (batch : list Inp) beam_size log_attn tr r :
  predict batch beam_size log_attn = Run tr (Ok r) →
  result_edit_logits r
  = if edit then Some (imap (λ b x, edit_clf (encoded b x).2.1) batch) else None.
Proof.
  rewrite <- edit_logits_of_encode.
  unfold predict. destruct (decide (beam_size = 1%Z)) as [->|Hk].
  - unfold predict_greedy.
    intros (tr1 & a & tr2 & (_ & -> & ->)%encode_batch_Ok & Hloop & ->)%run_bind_Ok.
    apply run_bind_Ok in Hloop as (tr3 & st & tr4 & _ & Hlog & ->).
    apply run_bind_Ok in Hlog as (tr5 & la & tr6 & _ & [= <- <-] & ->).
    reflexivity.
  - unfold predict_beam.
    intros (tr1 & [[[hyps scs] el] ats] & tr2 & Hsearch & Hlog & ->)%run_bind_Ok.
    apply run_bind_Ok in Hlog as (tr3 & [] & tr4 & _ & [= <- <-] & ->). simpl.
    unfold beam_search in Hsearch.
    apply run_bind_Ok in Hsearch as (tr5 & [st el'] & tr6 & Hdec & Hbt & ->).
    apply run_bind_Ok in Hbt as (tr9 & [hyps' scs'] & tr10 & _ & [= _ _ _ <- _] & _).
    unfold beam_decode in Hdec.
    apply run_bind_Ok in Hdec
      as (tr7 & a & tr8 & (_ & -> & ->)%encode_batch_Ok & Hrest & ->).
    simpl in Hrest. destruct (decide (beam_size < 0)%Z); [done|].
    apply run_bind_Ok in Hrest as (tr11 & st' & tr12 & _ & [= _ _ <-] & _).
    reflexivity.
Qed.







End PredictFacts.

Lemma stub_packable (batch : list (list nat)) :
  batch ≠ [] → packable (lens := Stub.lens) batch.
Proof.
  intros Hne. split; [done|]. apply Forall_forall. intros x _. simpl. lia.
Qed.

(** The stub scorer on one example, beam width 2. *)
Lemma edit_logits_pass_through_witness :
  Stub.predict 4 [[3; 3]] 2 false
  = Run [EvEncodeSource; EvEncodeLexicon; EvDecode; EvDecode; EvDecode]
        (Ok (Ret2 [[3; 3]] (Some [7])))
  ∧ result_edit_logits (Ret2 (Inp := list nat) (Attn := nat) [[3; 3]] (Some [7]))
    = Some [7].
Proof.
  assert (Hrun : Stub.predict 4 [[3; 3]] 2 false
                 = Run [EvEncodeSource; EvEncodeLexicon; EvDecode; EvDecode; EvDecode]
                       (Ok (Ret2 [[3; 3]] (Some [7])))) by (vm_compute; reflexivity).
  split; [exact Hrun|].
  exact (edit_logits_pass_through (constant := Stub.constant) (args := Stub.args 4)
           (utils := Stub.utils) (scorer := Stub.scorer) (lens := Stub.lens)
           (mask := Stub.keep) [[3; 3]] 2 false _ _ Hrun).
Defined.



(** C8 at the failing input: one example, beam width 2, the scorer favours
    [a], [a], end-of-sequence. Without logging the call returns [[a, a]];
    with [log_attn = True] the same search is run and then [x.tolist()] is
    called on the Python ints of the hypothesis, which raises. *)
Lemma log_attn_breaks_beam_predict :
  Stub.predict 4 [[3; 3]] 2 false
  = Run [EvEncodeSource; EvEncodeLexicon; EvDecode; EvDecode; EvDecode]
        (Ok (Ret2 [[3; 3]] (Some [7])))
  ∧ Stub.predict 4 [[3; 3]] 2 true
    = Run [EvEncodeSource; EvEncodeLexicon; EvDecode; EvDecode; EvDecode]
          (Raise AttributeError).
Proof. split; vm_compute; reflexivity. Qed.

(** ** Loops over [range(n)] *)

(** An invariant indexed by the number of iterations made carries over a
    run of the loop that does not raise. *)
Lemma for_in_seq_ind {St} (I : nat → St → Prop) (f : nat → St → outcome St) n s0 s' :
  I 0 s0 →
  (∀ k s s1, k < n → I k s → f k s = Ok s1 → I (S k) s1) →
  for_in (seq 0 n) f s0 = Ok s' → I n s'.
Proof.
  revert s'. induction n as [|n IH]; intros s' H0 Hstep.
  - simpl. by intros [= <-].
  - rewrite seq_S, for_in_app. simpl.
    intros (s & Hs & Hlast)%bind_Ok.
    apply bind_Ok in Hlast as (s1 & Hs1 & [= <-]).
    apply (Hstep n s s1); [lia| |done].
    apply IH; [done| |done]. intros k t t1 Hk. apply Hstep. lia.
Qed.

(** If moreover no iteration can raise under the invariant, the loop does
    not raise. *)
Lemma for_in_seq_total {St} (I : nat → St → Prop) (f : nat → St → outcome St) n s0 :
  I 0 s0 →
  (∀ k s, k < n → I k s → ∃ s1, f k s = Ok s1 ∧ I (S k) s1) →
  ∃ s', for_in (seq 0 n) f s0 = Ok s' ∧ I n s'.
Proof.
  induction n as [|n IH]; intros H0 Hstep.
  - exists s0. by split.
  - destruct IH as (s & Hs & HI); [done|intros k t Hk; apply Hstep; lia|].
    destruct (Hstep n s) as (s1 & Hs1 & HI1); [lia|done|].
    exists s1. split; [|done].
    rewrite seq_S, for_in_app, Hs. simpl. by rewrite Hs1.
Qed.

(** ** The greedy path *)

Section GreedyFacts.

Context {constant : Constant} {args : Args}.
Context {H Inp Ctx Attn Logits : Type} {scorer : Scorer H Inp Ctx Attn Logits}.
Context {lens : Lens Inp} {mask : EmbMask Inp}.

Lemma decode_Ok dec_inputs (hn cn : list H) (ctx : list Ctx) tr x :
  decode dec_inputs hn cn ctx = Run tr (Ok x) →
  tr = [EvDecode]
  ∧ length dec_inputs = length hn ∧ length cn = length hn ∧ length ctx = length hn
  ∧ x = (let rows := zip_with (λ c x, step c x.1 x.2) ctx (zip dec_inputs (zip hn cn)) in
         (map (λ r, map r.1.1 (seq 0 vocab_size)) rows,
          (map (λ r, r.1.2.1) rows, map (λ r, r.1.2.2) rows),
          map (λ r, r.2) rows)).
Proof.
  unfold decode. rewrite run_bind_unfold. cbn [emit result trace].
  destruct (decide _) as [(? & ? & ?)|]; [|done].
  cbn. intros [= <- <-]. done.
Qed.

Lemma greedy_body_Ok ctx n st tr st' :
  greedy_body ctx n st = Run tr (Ok st') →
  ∃ log_probs hn cn attn preds dn total outs,
    decode (g_dec_inputs st) (g_hn st) (g_cn st) ctx
      = Run [EvDecode] (Ok (log_probs, (hn, cn), attn))
    ∧ max_preds log_probs = Ok preds
    ∧ for_in (seq 0 n) (greedy_mark preds)
             (g_done st, g_total_done st, g_output_seqs st) = Ok (dn, total, outs)
    ∧ tr = [EvDecode]
    ∧ st' = {| g_dec_inputs := preds; g_hn := hn; g_cn := cn; g_done := dn;
               g_total_done := total; g_max_len := (g_max_len st + 1)%Z;
               g_output_seqs := outs; g_attns := g_attns st ++ [attn] |}.
Proof.
  unfold greedy_body.
  intros (tr1 & [[lp [hn cn]] attn] & tr2 & Hdec & Hrest & ->)%run_bind_Ok.
  pose proof (decode_Ok _ _ _ _ _ _ Hdec) as (-> & _).
  rewrite lift_bind in Hrest.
  destruct (max_preds lp) as [preds|] eqn:Hpreds; [|done].
  rewrite lift_bind in Hrest.
  destruct (for_in _ _ _) as [[[dn total] outs]|] eqn:Hfor; [|done].
  injection Hrest as <- <-.
  exists lp, hn, cn, attn, preds, dn, total, outs. done.
Qed.

(** An invariant of the loop states that the body preserves holds when
    the loop ends. *)
Lemma greedy_loop_ind (P : greedy_state → Prop) fuel ctx n st tr st' :
  (∀ s t s1, greedy_continue n s → P s → greedy_body ctx n s = Run t (Ok s1) → P s1) →
  P st →
  greedy_loop fuel ctx n st = Run tr (Ok st') → P st'.
Proof.
  intros Hbody. revert st tr. induction fuel as [|fuel IH]; intros st tr HP; simpl.
  - destruct (decide _); by intros [= _ <-].
  - destruct (decide _) as [Hc|]; [|by intros [= _ <-]].
    intros (tr1 & s1 & tr2 & Hb & Hl & ->)%run_bind_Ok.
    eapply IH; [|done]. by eapply Hbody.
Qed.

(** The fuel handed to the loop is never exhausted while the loop
    condition holds: when the loop ends, its condition is false. *)
Lemma greedy_loop_fuel fuel ctx n st tr st' :
  (max_dec_len - g_max_len st ≤ Z.of_nat fuel)%Z →
  greedy_loop fuel ctx n st = Run tr (Ok st') →
  ¬ greedy_continue n st'.
Proof.
  revert st tr. induction fuel as [|fuel IH]; intros st tr Hfuel; simpl.
  - destruct (decide _) as [[_ Hc]|Hc]; [lia|]. by intros [= _ <-].
  - destruct (decide _) as [Hc|Hc]; [|by intros [= _ <-]].
    intros (tr1 & s1 & tr2 & Hb & Hl & ->)%run_bind_Ok.
    eapply IH; [|done].
    apply greedy_body_Ok in Hb as (? & ? & ? & ? & ? & ? & ? & ? & _ & _ & _ & _ & ->).
    simpl. lia.
Qed.

(** One pass over the examples leaves a finished example alone. *)
Lemma greedy_marks_frozen preds n i dn total outs dn' total' outs' :
  for_in (seq 0 n) (greedy_mark preds) (dn, total, outs) = Ok (dn', total', outs') →
  dn !! i = Some true →
  dn' !! i = Some true ∧ outs' !! i = outs !! i.
Proof.
  intros Hfor Hi. revert Hfor.
  apply (for_in_seq_ind
           (λ _ acc, acc.1.1 !! i = Some true ∧ acc.2 !! i = outs !! i)); [done|].
  intros k [[d t] o] s1 _ [Hd Ho]. simpl in Hd, Ho. unfold greedy_mark.
  intros (dk & Hdk & Hrest)%bind_Ok. apply index_Ok in Hdk.
  destruct dk; [by injection Hrest as <-|].
  assert (k ≠ i) by congruence.
  apply bind_Ok in Hrest as (tok & _ & Hrest).
  destruct (decide (tok = EOS_ID)).
  - injection Hrest as <-. simpl. by rewrite list_lookup_insert_ne.
  - apply bind_Ok in Hrest as (out & _ & [= <-]). simpl.
    by rewrite list_lookup_insert_ne.
Qed.

(** One pass appends at most one token, never the end-of-sequence token,
    to each output sequence. *)
Lemma greedy_marks_outputs preds n (L : nat) dn total outs dn' total' outs' :
  for_in (seq 0 n) (greedy_mark preds) (dn, total, outs) = Ok (dn', total', outs') →
  Forall (λ out, (EOS_ID ∉ out) ∧ length out ≤ L) outs →
  Forall (λ out, (EOS_ID ∉ out) ∧ length out ≤ S L) outs'.
Proof.
  intros Hfor Houts.
  pose (I := λ (k : nat) (acc : list bool * nat * list (list nat)),
          ∀ j out, acc.2 !! j = Some out →
                   (EOS_ID ∉ out) ∧ length out ≤ (if decide (j < k) then S L else L)).
  enough (HI : I n (dn', total', outs')).
  { apply Forall_lookup. intros j out Hj. destruct (HI j out Hj) as [? Hlen].
    split; [done|]. destruct (decide (j < n)); lia. }
  revert Hfor. apply (for_in_seq_ind I); unfold I.
  - intros j out Hj. simpl in Hj.
    rewrite Forall_lookup in Houts. destruct (Houts j out Hj) as [? ?].
    split; [done|]. destruct (decide (j < 0)); lia.
  - intros k [[d t] o] s1 _ HI. simpl in HI. unfold greedy_mark.
    assert (Hweak : ∀ j out, o !! j = Some out →
              (EOS_ID ∉ out) ∧ length out ≤ (if decide (j < S k) then S L else L)).
    { intros j out Hj. destruct (HI j out Hj) as [? Hlen]. split; [done|].
      destruct (decide (j < k)), (decide (j < S k)); lia. }
    intros (dk & _ & Hrest)%bind_Ok.
    destruct dk; [by injection Hrest as <-|].
    apply bind_Ok in Hrest as (tok & _ & Hrest).
    destruct (decide (tok = EOS_ID)); [by injection Hrest as <-|].
    apply bind_Ok in Hrest as (out & Hout%index_Ok & [= <-]). simpl.
    intros j out' Hj. destruct (decide (j = k)) as [->|Hne].
    + rewrite list_lookup_insert_eq in Hj by (by eapply lookup_lt_Some).
      injection Hj as <-. destruct (HI k out Hout) as [Hno Hlen].
      destruct (decide (k < k)); [lia|]. split.
      * rewrite elem_of_app, list_elem_of_singleton. intros [?|?]; [done|congruence].
      * rewrite length_app. simpl. destruct (decide (k < S k)); lia.
    + rewrite list_lookup_insert_ne in Hj by done. by apply Hweak.
Qed.

(** C10 (amended). In the greedy path every returned sequence is free of
    the end-of-sequence token and no longer than [max_dec_len] (than 0
    when [max_dec_len] is negative); and one iteration of the loop leaves
    an example that already emitted end-of-sequence as it is: it stays
    done and its output sequence is unchanged, while the other examples
    go on. The start-of-sequence token is not filtered. *)
Theorem greedy_outputs_invariant :
  (∀ (batch : list Inp) log_attn tr r,
     predict_greedy batch log_attn = Run tr (Ok r) →
     Forall (λ out, (EOS_ID ∉ out) ∧ (Z.of_nat (length out) ≤ Z.max 0 max_dec_len)%Z)
            (result_hyps r))
  ∧ (∀ (ctx : list Ctx) n st tr st' i,
       greedy_body ctx n st = Run tr (Ok st') →
       g_done st !! i = Some true →
       g_done st' !! i = Some true
       ∧ g_output_seqs st' !! i = g_output_seqs st !! i).
Proof.
  split.
  - intros batch log_attn tr r. unfold predict_greedy.
    intros (tr1 & a & tr2 & (_ & -> & ->)%encode_batch_Ok & Hloop & ->)%run_bind_Ok.
    apply run_bind_Ok in Hloop as (tr3 & st & tr4 & Hloop & Hlog & ->).
    apply run_bind_Ok in Hlog as (tr5 & la & tr6 & _ & [= <- <-] & ->).
    simpl.
    apply (greedy_loop_ind
             (λ s, (0 ≤ g_max_len s ≤ Z.max 0 max_dec_len)%Z
                   ∧ Forall (λ out, (EOS_ID ∉ out)
                                    ∧ (Z.of_nat (length out) ≤ g_max_len s)%Z)
                            (g_output_seqs s))) in Hloop.
    + destruct Hloop as [Hlen Houts]. eapply Forall_impl; [exact Houts|].
      simpl. intros out [? ?]. split; [done|lia].
    + intros s t s1 [_ Hc] [Hlen Houts] Hb.
      apply greedy_body_Ok in Hb
        as (? & ? & ? & ? & preds & d & tot & outs & _ & _ & Hfor & _ & ->).
      simpl. split; [lia|].
      apply (greedy_marks_outputs _ _ (Z.to_nat (g_max_len s))) in Hfor.
      * eapply Forall_impl; [exact Hfor|]. simpl. intros out [? ?]. split; [done|lia].
      * eapply Forall_impl; [exact Houts|]. simpl. intros out [? ?]. split; [done|lia].
    + simpl. split; [lia|]. apply Forall_replicate. split; [|simpl; lia].
      apply not_elem_of_nil.
  - intros ctx n st tr st' i Hb Hi.
    apply greedy_body_Ok in Hb
      as (? & ? & ? & ? & preds & d & tot & outs & _ & _ & Hfor & _ & ->).
    simpl. by eapply greedy_marks_frozen.
Qed.

End GreedyFacts.

(** The stub model on two examples; the second one finishes first. *)
Lemma greedy_outputs_invariant_witness :
  Stub.predict_greedy 4 [[3; 3]; [4]] false
  = Run [EvEncodeSource; EvEncodeLexicon; EvDecode; EvDecode; EvDecode]
        (Ok (Ret3 [[3; 3]; [4]] (Some [7; 7]) None))
  ∧ Forall (λ out, (2 ∉ out) ∧ (Z.of_nat (length out) ≤ Z.max 0 4)%Z) [[3; 3]; [4]].
Proof.
  assert (Hrun : Stub.predict_greedy 4 [[3; 3]; [4]] false
                 = Run [EvEncodeSource; EvEncodeLexicon; EvDecode; EvDecode; EvDecode]
                       (Ok (Ret3 [[3; 3]; [4]] (Some [7; 7]) None)))
    by (vm_compute; reflexivity).
  split; [exact Hrun|].
  exact (proj1 (greedy_outputs_invariant (constant := Stub.constant)
                  (args := Stub.args 4) (scorer := Stub.scorer) (lens := Stub.lens)
                  (mask := Stub.keep))
           [[3; 3]; [4]] false _ (Ret3 [[3; 3]; [4]] (Some [7; 7]) None) Hrun).
Defined.

(** C10, as stated, fails: the scorer favours the start-of-sequence token
    (id 1) at the first step, and the greedy path returns it. *)
Lemma greedy_output_has_sos_counterexample :
  Stub.predict_greedy 3 [[1; 3]] false
  = Run [EvEncodeSource; EvEncodeLexicon; EvDecode; EvDecode; EvDecode]
        (Ok (Ret3 [[1; 3]] (Some [7]) None))
  ∧ SOS_ID (Constant := Stub.constant) ∈ [1; 3].
Proof. split; [vm_compute; reflexivity|]. apply elem_of_cons. by left. Qed.

(** ** [forward] writes into the caller's tensors *)

Section ForwardFacts.

Context {constant : Constant} {args : Args}.
Context {E Enc LexEnc Out : Type}.
Context (table : nat → E).
Context (emb_drop_src emb_drop_tgt emb_drop_lem : nat → nat → E → E).
Context (encoder : list (list E) → attempt Enc).
Context (lexicon_encoder : list (list E) → attempt LexEnc).
Context (decoder : list (list E) → Enc → LexEnc → list (list nat) → list (list nat)
                   → attempt Out).

Lemma length_lem_hide draw n : length (lem_hide draw n) = n.
Proof. unfold lem_hide. by rewrite length_map, length_seq. Qed.

(** Rows that are not selected keep their contents. *)
Lemma masked_rows_none (hide : list bool) (stump : list nat) (t : list (list nat)) :
  existsb id hide = false → length hide = length t →
  zip_with (λ (h : bool) row, if h then stump else row) hide t = t.
Proof.
  revert t. induction hide as [|[] hide IH]; intros [|row t]; simpl; try done.
  intros Hex [= Hlen]. f_equal. by apply IH.
Qed.

Lemma masked_assign_Ok (t : list (list nat)) hide stump :
  length hide = length t → length stump = cols t →
  masked_assign t hide stump
  = Ok (zip_with (λ (h : bool) row, if h then stump else row) hide t).
Proof.
  intros Hh Hs. unfold masked_assign.
  destruct (decide _); [|done]. by destruct (decide _).
Qed.

(** The dropout block as one update of the heap. *)
Lemma lexicon_dropout_block_eq (lem lem_mask : nat) (draw : nat → Q) (h : heap)
    (lem_t mask_t : list (list nat)) :
  is_lexicon = true →
  (0 < lexicon_dropout)%Q →
  lem ≠ lem_mask →
  h !! lem = Some lem_t →
  h !! lem_mask = Some mask_t →
  length mask_t = length lem_t →
  3 ≤ cols lem_t →
  cols mask_t = cols lem_t →
  let hide := lem_hide draw (length lem_t) in
  lexicon_dropout_block lem lem_mask draw h
  = (<[lem_mask := zip_with (λ (b : bool) row,
                               if b then lem_mask_stump (cols lem_t) else row)
                            hide mask_t]>
       (<[lem := zip_with (λ (b : bool) row, if b then lem_stump (cols lem_t) else row)
                          hide lem_t]> h),
     Ok ()).
Proof.
  intros Hlex Hp Hne Hlem Hmask Hrows Hwide Hcols hide.
  assert (Hhide : length hide = length lem_t) by apply length_lem_hide.
  assert (Hpos : Qltb 0 lexicon_dropout = true).
  { unfold Qltb. destruct (Qlt_le_dec 0 lexicon_dropout) as [_|Hle]; [done|].
    exfalso. by apply (Qlt_not_le _ _ Hp). }
  unfold lexicon_dropout_block. rewrite Hlex, Hpos. cbn [andb].
  rewrite Hlem, Hmask. fold hide. destruct (existsb id hide) eqn:Hany.
  - rewrite masked_assign_Ok.
    2:{ done. }
    2:{ unfold lem_stump. rewrite length_app, length_replicate. simpl. lia. }
    rewrite lookup_insert_ne, Hmask by done.
    rewrite masked_assign_Ok.
    2:{ by rewrite Hhide. }
    2:{ unfold lem_mask_stump. rewrite length_app, !length_replicate. lia. }
    done.
  - rewrite !masked_rows_none by (done || by rewrite Hhide).
    rewrite (insert_id h lem lem_t) by done.
    by rewrite (insert_id h lem_mask mask_t) by done.
Qed.

(** The heap that the lexicon part leaves is that of the dropout block. *)
Lemma forward_lexicon_heap (lem lem_mask : nat) (draw : nat → Q) (h : heap) :
  (forward_lexicon table emb_drop_lem lexicon_encoder lem lem_mask draw h).1
  = (lexicon_dropout_block lem lem_mask draw h).1.
Proof.
  unfold forward_lexicon.
  destruct (lexicon_dropout_block lem lem_mask draw h) as [h1 [[]|e]]; [|done].
  simpl. destruct (h1 !! lem); [|done]. by destruct (h1 !! lem_mask).
Qed.

(** When the source is embedded and encoded without error, [forward]
    leaves the heap of the dropout block. *)
Lemma forward_heap src src_mask tgt_in (lem lem_mask : nat) (draw : nat → Q) (h : heap) x :
  source_encoding table emb_drop_src emb_drop_tgt encoder src src_mask tgt_in
  = Returns x →
  (forward table emb_drop_src emb_drop_tgt emb_drop_lem encoder lexicon_encoder decoder
           src src_mask tgt_in lem lem_mask draw h).1
  = (lexicon_dropout_block lem lem_mask draw h).1.
Proof.
  intros Hsrc. unfold forward. rewrite Hsrc. destruct x as [dec_inputs enc].
  rewrite <- forward_lexicon_heap.
  destruct (forward_lexicon _ _ _ _ _ _ _) as [h1 [[lex lem_mask']|e]]; done.
Qed.

(** When the dropout block raises, so does [forward], with the heap that
    the block leaves. *)
Lemma forward_block_raises src src_mask tgt_in (lem lem_mask : nat) (draw : nat → Q)
    (h h1 : heap) x e :
  source_encoding table emb_drop_src emb_drop_tgt encoder src src_mask tgt_in
  = Returns x →
  lexicon_dropout_block lem lem_mask draw h = (h1, Raise e) →
  forward table emb_drop_src emb_drop_tgt emb_drop_lem encoder lexicon_encoder decoder
          src src_mask tgt_in lem lem_mask draw h
  = (h1, Throws (Exn e)).
Proof.
  intros Hsrc Hblock. unfold forward, forward_lexicon.
  rewrite Hsrc, Hblock. by destruct x.
Qed.

(** When the embedding or the encoding of the source raises, nothing has
    been written. *)
Lemma forward_source_raises src src_mask tgt_in (lem lem_mask : nat) (draw : nat → Q)
    (h : heap) e :
  source_encoding table emb_drop_src emb_drop_tgt encoder src src_mask tgt_in
  = Throws e →
  forward table emb_drop_src emb_drop_tgt emb_drop_lem encoder lexicon_encoder decoder
          src src_mask tgt_in lem lem_mask draw h
  = (h, Throws e).
Proof. intros Hsrc. unfold forward. by rewrite Hsrc. Qed.

(** C9. With a lexicon and a positive [lexicon_dropout], a call of
    [forward] whose source is embedded and encoded without error leaves in
    the caller's [lem] and [lem_mask] tensors, at every row that the
    random draw selects, the stub sequence and the stub mask instead of
    what the caller put there; so the caller's buffers are not preserved
    as soon as one selected row differs from the stub. The tensors are
    distinct, have the same number of rows and the same width, at
    least 3. *)
Theorem forward_overwrites_hidden_rows
    (src src_mask tgt_in : list (list nat)) (lem lem_mask : nat) (draw : nat → Q)
    (h : heap) (lem_t mask_t : list (list nat)) x :
  is_lexicon = true →
  (0 < lexicon_dropout)%Q →
  lem ≠ lem_mask →
  h !! lem = Some lem_t →
  h !! lem_mask = Some mask_t →
  length mask_t = length lem_t →
  3 ≤ cols lem_t →
  cols mask_t = cols lem_t →
  source_encoding table emb_drop_src emb_drop_tgt encoder src src_mask tgt_in
  = Returns x →
  let hide := lem_hide draw (length lem_t) in
  let h' := (forward table emb_drop_src emb_drop_tgt emb_drop_lem encoder
                     lexicon_encoder decoder
                     src src_mask tgt_in lem lem_mask draw h).1 in
  h' !! lem
  = Some (zip_with (λ (b : bool) row, if b then lem_stump (cols lem_t) else row)
                   hide lem_t)
  ∧ h' !! lem_mask
    = Some (zip_with (λ (b : bool) row, if b then lem_mask_stump (cols lem_t) else row)
                     hide mask_t)
  ∧ (∀ i row, hide !! i = Some true → lem_t !! i = Some row →
              row ≠ lem_stump (cols lem_t) → h' !! lem ≠ h !! lem).
Proof.
  intros Hlex Hp Hne Hlem Hmask Hrows Hwide Hcols Hsrc hide h'.
  assert (Hh' : h' = <[lem_mask := zip_with (λ (b : bool) row,
                                    if b then lem_mask_stump (cols lem_t) else row)
                                  hide mask_t]>
                       (<[lem := zip_with (λ (b : bool) row,
                                    if b then lem_stump (cols lem_t) else row)
                                  hide lem_t]> h)).
  { subst h'. rewrite (forward_heap _ _ _ _ _ _ _ x Hsrc).
    by rewrite (lexicon_dropout_block_eq lem lem_mask draw h lem_t mask_t). }
  assert (Hl : h' !! lem
               = Some (zip_with (λ (b : bool) row,
                                   if b then lem_stump (cols lem_t) else row)
                                hide lem_t)).
  { rewrite Hh'. by rewrite lookup_insert_ne, lookup_insert_eq by done. }
  split; [done|]. split; [by rewrite Hh', lookup_insert_eq|].
  intros i row Hi Hrow Hdiff. rewrite Hl, Hlem. intros [= Heq].
  apply (f_equal (λ t, t !! i)) in Heq.
  rewrite lookup_zip_with, Hi, Hrow in Heq. simpl in Heq. congruence.
Qed.

End ForwardFacts.

(** Two lemmas of width 4; the draw selects the second one, whose contents
    are lost to the caller. *)
Lemma forward_overwrites_hidden_rows_witness :
  let h : heap := <[0 := [[1; 3; 3; 2]; [1; 4; 2; 0]]]>
                    (<[1 := [[0; 0; 0; 0]; [0; 0; 0; 1]]]> ∅) in
  let draw := λ i : nat, if decide (i = 1) then 1 # 4 else 3 # 4 in
  let h' := (CombinedStub.forward (Stub.args 3) CombinedStub.src CombinedStub.src_mask
               CombinedStub.tgt_in 0 1 draw h).1 in
  CombinedStub.source_encoding CombinedStub.src CombinedStub.src_mask CombinedStub.tgt_in
  = Returns ([[1; 3]; [1; 4]], [[3; 4]; [3]])
  ∧ h' !! 0 = Some [[1; 3; 3; 2]; [1; 2; 0; 0]]
  ∧ h' !! 0 ≠ h !! 0.
Proof.
  intros h draw h'.
  assert (Hsrc : CombinedStub.source_encoding CombinedStub.src CombinedStub.src_mask
                   CombinedStub.tgt_in
                 = Returns ([[1; 3]; [1; 4]], [[3; 4]; [3]])) by reflexivity.
  split; [exact Hsrc|].
  destruct (forward_overwrites_hidden_rows (constant := Stub.constant)
              (args := Stub.args 3) (λ i, i) (λ _ _ x, x) (λ _ _ x, x) (λ _ _ x, x)
              (λ rows, Returns rows) (λ rows, Returns rows)
              (λ dec enc lex _ lem_mask, Returns (dec, enc, lex, lem_mask))
              CombinedStub.src CombinedStub.src_mask CombinedStub.tgt_in 0 1 draw h
              [[1; 3; 3; 2]; [1; 4; 2; 0]] [[0; 0; 0; 0]; [0; 0; 0; 1]]
              ([[1; 3]; [1; 4]], [[3; 4]; [3]]))
    as (Hl & _ & Hchg).
  - reflexivity.
  - reflexivity.
  - discriminate.
  - reflexivity.
  - reflexivity.
  - reflexivity.
  - unfold cols. simpl. lia.
  - reflexivity.
  - exact Hsrc.
  - split; [exact Hl|].
    apply (Hchg 1 [1; 4; 2; 0]); [reflexivity|reflexivity|discriminate].
Defined.

(** ** Beams *)

Lemma insert_desc_perm x l : insert_desc x l ≡ₚ x :: l.
Proof.
  induction l as [|y l IH]; [done|]. simpl.
  destruct (sltb x.2 y.2); [|done].
  rewrite IH. apply Permutation_swap.
Qed.

Lemma rank_desc_perm l : rank_desc l ≡ₚ imap (λ i s, (i, s)) l.
Proof.
  unfold rank_desc. induction (imap (λ i s, (i, s)) l) as [|x l' IH]; [done|].
  simpl. by rewrite insert_desc_perm, IH.
Qed.

(** Every ranked entry is an entry of the list, at the index it carries. *)
Lemma rank_desc_lookup l x : x ∈ rank_desc l → l !! x.1 = Some x.2.
Proof.
  rewrite rank_desc_perm. intros (i & Hi)%list_elem_of_lookup.
  rewrite list_lookup_imap in Hi.
  destruct (l !! i) as [s|] eqn:Hs; simpl in Hi; [|done].
  injection Hi as <-. done.
Qed.

Lemma topk_Ok k l :
  k ≤ length l →
  ∃ best, topk k l = Ok best ∧ length best = k
          ∧ Forall (λ x : nat * score, x.1 < length l) best.
Proof.
  intros Hk. unfold topk. destruct (decide (k ≤ length l)); [|lia].
  eexists. split; [done|]. split.
  - rewrite length_take, length_rank_desc. lia.
  - apply Forall_take, Forall_forall. intros x Hx.
    apply rank_desc_lookup in Hx. by eapply lookup_lt_Some.
Qed.

Lemma first_max_unique l p q : first_max l p → first_max l q → p = q.
Proof.
  intros (m & Hp & Hmax & Hbefore) (m' & Hq & Hmax' & Hbefore').
  destruct (Nat.lt_trichotomy p q) as [Hlt|[->|Hlt]]; [|done|].
  - pose proof (Hbefore' p m Hp Hlt). pose proof (Hmax q m' Hq). lia.
  - pose proof (Hbefore q m' Hq Hlt). pose proof (Hmax' p m Hp). lia.
Qed.

Lemma argmax_from_first_max (pre l : list Z) bi bv :
  pre !! bi = Some bv →
  (∀ j x, pre !! j = Some x → (x ≤ bv)%Z) →
  (∀ j x, pre !! j = Some x → j < bi → (x < bv)%Z) →
  first_max (pre ++ l) (argmax_from (length pre) (bi, bv) l).1.
Proof.
  revert pre bi bv. induction l as [|x l IH]; intros pre bi bv Hbi Hmax Hbefore.
  - simpl. rewrite app_nil_r. by exists bv.
  - simpl. rewrite (cons_middle x pre l), app_assoc.
    replace (S (length pre)) with (length (pre ++ [x]))
      by (rewrite length_app; simpl; lia).
    destruct (bv <? x)%Z eqn:Hcmp.
    + apply Z.ltb_lt in Hcmp. apply IH.
      * rewrite lookup_app_r by lia. by rewrite Nat.sub_diag.
      * intros j y [Hy|[_ Hy]]%lookup_app_Some.
        -- pose proof (Hmax j y Hy). lia.
        -- apply list_lookup_singleton_Some in Hy as [_ <-]. lia.
      * intros j y [Hy|[Hge _]]%lookup_app_Some Hj; [|lia].
        pose proof (Hmax j y Hy). lia.
    + apply Z.ltb_ge in Hcmp. apply IH.
      * by apply lookup_app_l_Some.
      * intros j y [Hy|[_ Hy]]%lookup_app_Some.
        -- by apply (Hmax j).
        -- apply list_lookup_singleton_Some in Hy as [_ <-]. lia.
      * intros j y [Hy|[Hge _]]%lookup_app_Some Hj.
        -- by apply (Hbefore j).
        -- apply lookup_lt_Some in Hbi. lia.
Qed.

(** [max] yields the first maximal entry of a non-empty row. *)
Lemma argmax_first_max l : l ≠ [] → ∃ p, argmax l = Some p ∧ first_max l p.
Proof.
  destruct l as [|x l]; [done|]. intros _. eexists. split; [done|].
  apply (argmax_from_first_max [x] l 0 x); [done| |].
  - intros j y Hy. apply list_lookup_singleton_Some in Hy as [_ <-]. lia.
  - intros j y _ Hj. lia.
Qed.

Lemma sltb_asym a b : sltb a b = true → sltb b a = false.
Proof.
  destruct a, b; simpl; try done. intros Hab%Z.ltb_lt. apply Z.ltb_ge. lia.
Qed.

Lemma sltb_ge_trans a b c : sltb a b = false → sltb b c = false → sltb a c = false.
Proof.
  destruct a, b, c; simpl; try done.
  intros Hab%Z.ltb_ge Hbc%Z.ltb_ge. apply Z.ltb_ge. lia.
Qed.

Lemma sltb_lt_ge_trans a b c : sltb a b = true → sltb c b = false → sltb a c = true.
Proof.
  destruct a, b, c; simpl; try done.
  intros Hab%Z.ltb_lt Hbc%Z.ltb_ge. apply Z.ltb_lt. lia.
Qed.

(** The head of the ranking is maximal, and strictly greater than every
    entry listed before it. *)
Lemma rank_head_spec (xs : list (nat * score)) :
  xs ≠ [] →
  ∃ y q, head (foldr insert_desc [] xs) = Some y
         ∧ xs !! q = Some y
         ∧ (∀ j x, xs !! j = Some x → sltb y.2 x.2 = false)
         ∧ (∀ j x, xs !! j = Some x → j < q → sltb x.2 y.2 = true).
Proof.
  induction xs as [|x xs IH]; [done|]. intros _.
  destruct xs as [|x' xs'].
  { exists x, 0. simpl. split; [done|]. split; [done|]. split.
    - intros j y Hy. apply list_lookup_singleton_Some in Hy as [_ <-].
      destruct x.2; simpl; [done|apply Z.ltb_irrefl].
    - intros j y _ Hj. lia. }
  destruct IH as (z & q & Hhead & Hq & Hmax & Hbefore); [done|].
  change (foldr insert_desc [] (x :: x' :: xs'))
    with (insert_desc x (foldr insert_desc [] (x' :: xs'))).
  destruct (foldr insert_desc [] (x' :: xs')) as [|z' r] eqn:Hr; [done|].
  simpl in Hhead. injection Hhead as ->.
  simpl. destruct (sltb x.2 z.2) eqn:Hxz.
  - exists z, (S q). split; [done|]. split; [done|]. split.
    + intros [|j] y Hy; simpl in Hy.
      * injection Hy as <-. by apply sltb_asym.
      * by apply (Hmax j).
    + intros [|j] y Hy Hj; simpl in Hy.
      * by injection Hy as <-.
      * apply (Hbefore j); [done|lia].
  - exists x, 0. split; [done|]. split; [done|]. split.
    + intros [|j] y Hy; simpl in Hy.
      * injection Hy as <-. destruct x.2; simpl; [done|apply Z.ltb_irrefl].
      * eapply sltb_ge_trans; [exact Hxz|]. by apply (Hmax j).
    + intros j y _ Hj. lia.
Qed.

(** Ranking the continuations of a single candidate of finite score and
    keeping one: the first maximal token, as [max] has it. *)
Lemma topk_1_argmax (s : Z) (row : list Z) p m :
  argmax row = Some p → row !! p = Some m →
  topk 1 (map (sadd (Fin s)) row) = Ok [(p, Fin (s + m))].
Proof.
  intros Harg Hm.
  assert (Hne : row ≠ []) by (by destruct row).
  destruct (argmax_first_max row Hne) as (p' & Harg' & Hfirst).
  assert (p' = p) as -> by congruence.
  unfold topk. rewrite length_map.
  destruct (decide (1 ≤ length row)) as [_|Hno].
  2:{ destruct row; [done|]. simpl in Hno. lia. }
  set (xs := imap (λ i sc, (i, sc)) (map (sadd (Fin s)) row)).
  assert (Hxs : ∀ j, xs !! j = (λ x, (j, Fin (s + x))) <$> row !! j).
  { intros j. unfold xs. rewrite list_lookup_imap, list_lookup_fmap.
    by destruct (row !! j). }
  destruct (rank_head_spec xs) as (y & q & Hhead & Hq & Hmax & Hbefore).
  { intros Hnil. specialize (Hxs p). rewrite Hnil, Hm in Hxs. done. }
  assert (Hq' : first_max row q).
  { rewrite Hxs in Hq. destruct (row !! q) as [mq|] eqn:Hrq; [|done].
    injection Hq as <-. exists mq. split; [done|]. split.
    - intros j x Hx. specialize (Hmax j (j, Fin (s + x))).
      rewrite Hxs, Hx in Hmax. specialize (Hmax eq_refl). simpl in Hmax.
      apply Z.ltb_ge in Hmax. lia.
    - intros j x Hx Hj. specialize (Hbefore j (j, Fin (s + x))).
      rewrite Hxs, Hx in Hbefore. specialize (Hbefore eq_refl Hj). simpl in Hbefore.
      apply Z.ltb_lt in Hbefore. lia. }
  assert (q = p) as -> by (by eapply first_max_unique).
  rewrite Hxs, Hm in Hq. injection Hq as <-.
  unfold rank_desc. fold xs.
  destruct (foldr insert_desc [] xs) as [|y r]; [done|].
  simpl in Hhead. injection Hhead as ->. done.
Qed.


Section BeamFacts.

Context {constant : Constant}.

(** [advance] returns the [done] flag of the beam it leaves. *)
Lemma advance_flag bm slice bm' f : advance bm slice = Ok (bm', f) → f = done bm'.
Proof.
  unfold advance. destruct (done bm) eqn:Hd; [by intros [= <- <-]|].
  intros (row0 & _ & Hrest)%bind_Ok.
  apply bind_Ok in Hrest as (flat & _ & Hrest).
  apply bind_Ok in Hrest as (best & _ & Hrest).
  apply bind_Ok in Hrest as (top & _ & [= <- <-]). done.
Qed.

(** A finished beam is left as it is. *)
Lemma advance_done bm slice : done bm = true → advance bm slice = Ok (bm, true).
Proof. unfold advance. by intros ->. Qed.

(** A step of a live beam appends one row of tokens. *)
Lemma advance_live_rows bm slice bm' f :
  done bm = false → advance bm slice = Ok (bm', f) →
  length (tokens bm') = S (length (tokens bm)).
Proof.
  unfold advance. intros ->.
  intros (row0 & _ & Hrest)%bind_Ok.
  apply bind_Ok in Hrest as (flat & _ & Hrest).
  apply bind_Ok in Hrest as (best & _ & Hrest).
  apply bind_Ok in Hrest as (top & _ & [= <- <-]). simpl.
  rewrite length_app. simpl. lia.
Qed.

Lemma length_concat_rows {A} (ls : list (list A)) (V : nat) :
  Forall (λ row, length row = V) ls → length (concat ls) = length ls * V.
Proof.
  induction 1 as [|row ls Hrow _ IH]; [done|].
  simpl. rewrite length_app, IH, Hrow. lia.
Qed.

(** On a well-formed beam, with one row of [V] log-probabilities per slot
    and at least as many tokens as slots, [advance] does not raise and
    leaves a well-formed beam. *)
Lemma advance_total K V bm (slice : list (list Z)) :
  0 < K → K ≤ V →
  beam_wf K bm →
  length slice = K →
  Forall (λ row, length row = V) slice →
  ∃ bm' f, advance bm slice = Ok (bm', f) ∧ beam_wf K bm'.
Proof.
  intros HK HV Hwf Hslice Hwidth.
  unfold advance. destruct (done bm) eqn:Hd; [by exists bm, true|].
  destruct Hwf as (Hsize & Hscores & Hrows & Htok & Hback & Hdone).
  destruct (index_lt slice 0) as (row0 & -> & Hrow0); [lia|]. simpl.
  assert (Hlen0 : length row0 = V).
  { rewrite Forall_lookup in Hwidth. by eapply Hwidth. }
  assert (Hflat : ∃ flat, candidates bm slice = Ok flat
                          ∧ K ≤ length flat
                          ∧ (length flat = V ∧ tokens bm = []
                             ∨ length flat = K * V)).
  { unfold candidates. destruct (tokens bm) as [|trow trows] eqn:Htoks.
    - destruct (index_lt slice 0) as (r0 & -> & Hr0); [lia|]. simpl.
      destruct (index_lt (scores bm) 0) as (s0 & -> & _); [lia|]. simpl.
      assert (r0 = row0) as -> by congruence.
      eexists. split; [done|]. rewrite length_map. split; [lia|]. left. by split.
    - eexists. split; [done|].
      assert (Hl : length (concat (zip_with (λ s row, map (sadd s) row) (scores bm) slice))
                   = K * V).
      { rewrite (length_concat_rows _ V).
        - rewrite length_zip_with. lia.
        - apply Forall_forall. intros r (s & row & -> & _ & Hrow)%elem_of_zip_with.
          rewrite length_map. rewrite Forall_forall in Hwidth. by apply Hwidth. }
      split; [|by right]. rewrite Hl. nia. }
  destruct Hflat as (flat & -> & HKflat & Hshape). simpl.
  destruct (topk_Ok (size bm) flat) as (best & -> & Hbest & Hidx); [lia|]. simpl.
  destruct (index_lt (map (λ p : nat * score, p.1 `mod` length row0) best) 0)
    as (top & -> & _); [rewrite length_map; lia|]. simpl.
  eexists _, _. split; [done|].
  repeat split; simpl.
  - done.
  - rewrite length_fmap. lia.
  - rewrite !length_app. simpl. lia.
  - apply Forall_app. split; [done|]. apply Forall_singleton.
    rewrite length_map. lia.
  - apply Forall_app. split; [done|]. apply Forall_singleton.
    split; [rewrite length_map; lia|].
    apply Forall_fmap. eapply Forall_impl; [exact Hidx|]. simpl.
    intros [i s] Hi. simpl in *. rewrite Hlen0.
    destruct Hshape as [[Hfl _]|Hfl].
    + rewrite Nat.div_small by lia. lia.
    + apply Nat.Div0.div_lt_upper_bound. lia.
  - intros _. by destruct (tokens bm).
Qed.



End BeamFacts.

(** ** The main loop of the beam path *)

Lemma for_each_total {A B} (f : A → outcome B) (l : list A) :
  (∀ x, x ∈ l → ∃ y, f x = Ok y) →
  ∃ ys, for_each f l = Ok ys ∧ length ys = length l.
Proof.
  induction l as [|x l IH]; intros Hf.
  - by exists [].
  - destruct (Hf x) as [y Hy]; [apply elem_of_cons; by left|].
    destruct IH as (ys & Hys & Hlen).
    { intros z Hz. apply Hf, elem_of_cons. by right. }
    exists (y :: ys). simpl. rewrite Hy. simpl. rewrite Hys. simpl.
    split; [done|]. by rewrite Hlen.
Qed.

Section ReorderFacts.

Context {args : Args} {H : Type}.

Lemma view_beam_Ok (K n : nat) : 0 < K → view_beam (Z.of_nat K) (K * n) = Ok n.
Proof.
  intros HK. unfold view_beam.
  destruct (decide (Z.of_nat K = 0%Z)); [lia|].
  assert (Hdiv : (Z.of_nat (K * n) `div` Z.of_nat K = Z.of_nat n)%Z).
  { rewrite Nat2Z.inj_mul, Z.mul_comm. apply Z.div_mul. lia. }
  rewrite Hdiv. destruct (decide _) as [_|Hno].
  - by rewrite Nat2Z.id.
  - exfalso. apply Hno. split; [lia|]. rewrite Nat2Z.inj_mul. lia.
Qed.

Lemma length_write_slots (e : list H) n idx vals :
  length (write_slots e n idx vals) = length e.
Proof.
  unfold write_slots. induction (imap (λ k x, (k, x)) vals) as [|kv l IH]; [done|].
  simpl. by rewrite length_insert.
Qed.

(** On [K * n] rows, with [K] backpointers below [K], the reordering of
    example [idx] does not raise and keeps the number of rows. *)
Lemma update_tensor_total (K n : nat) (e : list H) idx positions :
  0 < K → length e = K * n → idx < n →
  length positions = K → Forall (λ p, p < K) positions →
  ∃ e', update_tensor e idx positions (Z.of_nat K) = Ok e' ∧ length e' = length e.
Proof.
  intros HK He Hidx Hpos Hlt. unfold update_tensor.
  rewrite He, view_beam_Ok by done. simpl. rewrite Nat2Z.id.
  destruct (decide (idx < n)); [|lia].
  destruct (for_each_total
              (λ p, if decide (p < K) then index e (p * n + idx) else Raise IndexError)
              positions) as (sel & -> & Hsel).
  { intros p Hp. rewrite Forall_forall in Hlt.
    destruct (decide (p < K)) as [HpK|]; [|by (exfalso; auto)].
    destruct (index_lt e (p * n + idx)) as (x & -> & _); [|by eexists].
    rewrite He. nia. }
  simpl. unfold copy_. destruct (decide (length sel = K)); [|lia].
  eexists. split; [done|]. by rewrite length_write_slots.
Qed.

(** With a beam of width 1 the reordering changes nothing. *)
Lemma update_tensor_width_1 (e : list H) idx :
  idx < length e → update_tensor e idx [0] 1 = Ok e.
Proof.
  intros Hidx. unfold update_tensor.
  assert (Hv : view_beam 1 (length e) = Ok (length e)).
  { pose proof (view_beam_Ok 1 (length e)) as Hv. rewrite Nat.mul_1_l in Hv.
    apply Hv. lia. }
  rewrite Hv. simpl.
  destruct (decide (idx < length e)); [|lia].
  destruct (index_lt e idx) as (x & Hx & Hlook); [done|].
  rewrite Hx. simpl. unfold copy_. simpl. unfold write_slots. simpl.
  by rewrite list_insert_id.
Qed.

Lemma update_state_total (K n : nat) (hn cn : list H) idx positions :
  0 < K → length hn = K * n → length cn = K * n → idx < n →
  length positions = K → Forall (λ p, p < K) positions →
  ∃ hn' cn', update_state [hn; cn] idx positions (Z.of_nat K) = Ok [hn'; cn']
             ∧ length hn' = K * n ∧ length cn' = K * n
             ∧ (K = 1 → hn' = hn ∧ cn' = cn).
Proof.
  intros HK Hhn Hcn Hidx Hpos Hlt.
  destruct (update_tensor_total K n hn idx positions) as (hn' & Hhn' & Hlen1); [done..|].
  destruct (update_tensor_total K n cn idx positions) as (cn' & Hcn' & Hlen2); [done..|].
  exists hn', cn'. unfold update_state. simpl. rewrite Hhn', Hcn'. simpl.
  split; [done|]. split; [lia|]. split; [lia|].
  intros ->. destruct positions as [|p [|]]; try done.
  assert (p = 0) as -> by (inversion Hlt; lia).
  change (Z.of_nat 1) with 1%Z in *.
  rewrite update_tensor_width_1 in Hhn', Hcn' by lia. split; congruence.
Qed.

Lemma write_from_miss (e : list H) n idx vals off r :
  (∀ k, k < length vals → r ≠ (off + k) * n + idx) →
  foldr (λ kv acc, <[kv.1 * n + idx := kv.2]> acc) e
        (imap (λ k x, (off + k, x)) vals) !! r = e !! r.
Proof.
  revert off. induction vals as [|x vals IH]; intros off Hr; [done|].
  rewrite imap_cons. cbn [foldr fst snd].
  rewrite list_lookup_insert_ne.
  2:{ intros Heq. apply (Hr 0); [simpl; lia|]. by rewrite <- Heq. }
  rewrite (imap_ext _ (λ k y, (S off + k, y))).
  2:{ intros k y _. simpl. f_equal. lia. }
  apply IH. intros k Hk. replace (S off + k) with (off + S k) by lia.
  apply Hr. simpl. lia.
Qed.

Lemma write_from_hit (e : list H) n idx vals off k :
  idx < n → k < length vals → (off + k) * n + idx < length e →
  foldr (λ kv acc, <[kv.1 * n + idx := kv.2]> acc) e
        (imap (λ k x, (off + k, x)) vals) !! ((off + k) * n + idx) = vals !! k.
Proof.
  intros Hidx. revert off k. induction vals as [|x vals IH]; intros off k Hk Hr.
  { simpl in Hk. lia. }
  rewrite imap_cons. cbn [foldr fst snd].
  rewrite (imap_ext _ (λ k y, (S off + k, y))).
  2:{ intros j y _. simpl. f_equal. lia. }
  destruct k as [|k].
  - rewrite list_lookup_insert_eq; [done|].
    match goal with |- _ < length (foldr ?f _ ?l) =>
      assert (Hlen : length (foldr f e l) = length e)
    end.
    { induction (imap _ vals) as [|kv l IHl]; [done|]. simpl. by rewrite length_insert. }
    by rewrite Hlen.
  - rewrite list_lookup_insert_ne by nia.
    replace (off + S k) with (S off + k) in * by lia.
    apply IH; [simpl in Hk; lia|done].
Qed.

Lemma write_slots_hit (e : list H) n idx vals k :
  idx < n → k < length vals → k * n + idx < length e →
  write_slots e n idx vals !! (k * n + idx) = vals !! k.
Proof. intros. by apply (write_from_hit e n idx vals 0 k). Qed.

Lemma write_slots_miss (e : list H) n idx vals r :
  (∀ k, k < length vals → r ≠ k * n + idx) →
  write_slots e n idx vals !! r = e !! r.
Proof. intros Hr. by apply (write_from_miss e n idx vals 0 r). Qed.

(** What a successful reordering of one tensor looks like. *)
Lemma update_tensor_Ok (e : list H) idx positions beam_size e' :
  update_tensor e idx positions beam_size = Ok e' →
  length positions = Z.to_nat beam_size →
  let K := Z.to_nat beam_size in
  let n := Z.to_nat (Z.of_nat (length e) `div` beam_size) in
  (0 < beam_size)%Z ∧ idx < n
  ∧ ∃ sel, Forall2 (λ p x, p < K ∧ e !! (p * n + idx) = Some x) positions sel
           ∧ e' = write_slots e n idx sel.
Proof.
  intros Hup Hlen K n. unfold update_tensor in Hup.
  apply bind_Ok in Hup as (n' & Hview & Hup).
  assert (Hn : (0 < beam_size)%Z ∧ n' = n).
  { unfold view_beam in Hview. destruct (decide (beam_size = 0%Z)); [done|].
    destruct (decide _) as [[? _]|]; [|done]. by injection Hview as <-. }
  destruct Hn as [Hpos ->]. split; [done|].
  destruct (decide (idx < n)); [|done]. split; [done|].
  apply bind_Ok in Hup as (sel & Hsel & Hcopy).
  apply for_each_Ok in Hsel.
  assert (Hsel' : Forall2 (λ p x, p < K ∧ e !! (p * n + idx) = Some x) positions sel).
  { eapply Forall2_impl; [exact Hsel|]. simpl. intros p x.
    fold K. destruct (decide (p < K)); [|done]. intros ?%index_Ok. done. }
  exists sel. split; [done|].
  unfold copy_ in Hcopy. fold K in Hcopy.
  apply Forall2_length in Hsel. fold K in Hlen.
  destruct (decide (length sel = K)); [|lia]. congruence.
Qed.


(** The tensor as a grid of [K] slots by [n] examples: the reordering
    of example [idx] puts in slot [k] the row that slot [positions[k]] held,
    and leaves the rows of the other examples alone. *)
Lemma update_tensor_grid (K n : nat) (e : list H) idx positions :
  0 < K → length e = K * n → idx < n →
  length positions = K → Forall (λ p, p < K) positions →
  ∃ e', update_tensor e idx positions (Z.of_nat K) = Ok e'
        ∧ length e' = K * n
        ∧ ∀ k b p, positions !! k = Some p → b < n →
            e' !! (k * n + b) = e !! ((if decide (b = idx) then p else k) * n + b).
Proof.
  intros HK He Hidx Hpos Hlt.
  destruct (update_tensor_total K n e idx positions) as (e' & Hup & Hlen); [done..|].
  exists e'. split; [done|]. split; [lia|].
  apply update_tensor_Ok in Hup as (_ & _ & sel & Hsel & ->); [|by rewrite Nat2Z.id].
  rewrite Nat2Z.id in Hsel.
  assert (Hn : Z.to_nat (Z.of_nat (length e) `div` Z.of_nat K) = n).
  { rewrite He, Nat2Z.inj_mul, Z.mul_comm, Z.div_mul by lia. apply Nat2Z.id. }
  rewrite Hn in *.
  intros k b p Hp Hb.
  assert (Hk : k < K) by (rewrite <- Hpos; by eapply lookup_lt_Some).
  destruct (decide (b = idx)) as [->|Hne].
  - rewrite write_slots_hit; [| done | | rewrite He; nia ].
    2:{ rewrite <- (Forall2_length _ _ _ Hsel). lia. }
    destruct (Forall2_lookup_l _ _ _ _ _ Hsel Hp) as (x & Hx & _ & Hex).
    by rewrite Hx, Hex.
  - apply write_slots_miss. intros k' _ Heq.
    assert (k = k') by nia. subst k'. lia.
Qed.

End ReorderFacts.

Section LoopFacts.

Context {constant : Constant} {args : Args}.
Context {H Inp Ctx Attn Logits : Type} {scorer : Scorer H Inp Ctx Attn Logits}.

Lemma length_get_current_state K bm :
  beam_wf K bm → length (get_current_state bm) = K.
Proof.
  intros (Hsize & _ & _ & Htok & _). unfold get_current_state.
  destruct (last (tokens bm)) as [row|] eqn:Hlast.
  - apply last_Some_elem_of in Hlast. rewrite Forall_forall in Htok. by apply Htok.
  - rewrite length_take, length_cons, length_replicate. lia.
Qed.

Lemma get_current_origin_total K bm :
  beam_wf K bm → tokens bm ≠ [] →
  ∃ origin, get_current_origin bm = Ok origin
            ∧ length origin = K ∧ Forall (λ p, p < K) origin.
Proof.
  intros (_ & _ & Hrows & _ & Hback & _) Hne. unfold get_current_origin.
  destruct (last (backpointers bm)) as [row|] eqn:Hlast.
  - apply last_Some_elem_of in Hlast. rewrite Forall_forall in Hback.
    exists row. split; [done|]. by apply Hback.
  - apply last_None in Hlast. rewrite Hlast in Hrows.
    by destruct (tokens bm).
Qed.

Lemma advance_tokens_nonempty K bm slice bm' f :
  beam_wf K bm → advance bm slice = Ok (bm', f) → tokens bm' ≠ [].
Proof.
  intros Hwf Hadv. destruct (done bm) eqn:Hd.
  - rewrite advance_done in Hadv by done. injection Hadv as <- <-.
    by apply Hwf.
  - apply advance_live_rows in Hadv; [|done]. by destruct (tokens bm').
Qed.

(** The tokens fed to the decoder: slot-major, [K * n] of them. *)
Lemma stack_t_total K n (cur : list (list nat)) :
  0 < K → 0 < n → length cur = n → Forall (λ r, length r = K) cur →
  ∃ toks, stack_t cur = Ok toks ∧ length toks = K * n
          ∧ ∀ i row tok, i < K * n → cur !! (i `mod` n) = Some row →
                         row !! (i `div` n) = Some tok → toks !! i = Some tok.
Proof.
  intros HK Hn Hlen Hrows. unfold stack_t.
  destruct cur as [|row0 rest] eqn:Hcur; [simpl in Hlen; lia|].
  rewrite <- Hcur in *.
  assert (Hrow0 : length row0 = K).
  { rewrite Forall_forall in Hrows. apply Hrows. rewrite Hcur. apply elem_of_cons. by left. }
  rewrite Hrow0, Hlen.
  destruct (decide _) as [_|Hno]; [|by exfalso; apply Hno].
  set (f := λ i, row ← index cur (i `mod` n); index row (i `div` n)).
  assert (Hf : ∀ i, i < K * n → ∃ tok, f i = Ok tok).
  { intros i Hi. unfold f.
    destruct (index_lt cur (i `mod` n)) as (row & -> & Hrow).
    { rewrite Hlen. apply Nat.mod_upper_bound. lia. }
    simpl. destruct (index_lt row (i `div` n)) as (tok & -> & _); [|by eexists].
    rewrite Forall_lookup in Hrows. rewrite (Hrows _ _ Hrow).
    apply Nat.Div0.div_lt_upper_bound. lia. }
  destruct (for_each_total f (seq 0 (K * n))) as (toks & Htoks & Hl).
  { intros i (j & Hj)%list_elem_of_lookup. apply lookup_seq in Hj as [-> Hj].
    apply Hf. simpl. lia. }
  exists toks. split; [done|]. rewrite length_seq in Hl. split; [done|].
  intros i row tok Hi Hrow Htok.
  apply for_each_Ok in Htoks.
  destruct (Forall2_lookup_l _ _ _ i i Htoks) as (y & Hy & Hfy).
  { by apply lookup_seq_lt. }
  rewrite Hy. unfold f in Hfy.
  apply index_Ok in Hrow, Htok. rewrite Hrow in Hfy. simpl in Hfy.
  rewrite Htok in Hfy. congruence.
Qed.

(** The [K] rows of log-probabilities of example [b]. *)
Lemma slice_of_total K n b (lp : list (list Z)) :
  length lp = K * n → b < n →
  ∃ sl, slice_of lp K n b = Ok sl ∧ length sl = K
        ∧ (∀ row, row ∈ sl → row ∈ lp)
        ∧ (∀ k, k < K → sl !! k = lp !! (k * n + b)).
Proof.
  intros Hlp Hb. unfold slice_of.
  destruct (for_each_total (λ k, index lp (k * n + b)) (seq 0 K)) as (sl & Hsl & Hl).
  { intros k (j & Hj)%list_elem_of_lookup. apply lookup_seq in Hj as [-> Hj].
    destruct (index_lt lp ((0 + j) * n + b)) as (row & -> & _); [|by eexists].
    rewrite Hlp. nia. }
  exists sl. split; [done|]. rewrite length_seq in Hl. split; [done|].
  apply for_each_Ok in Hsl.
  assert (Hk : ∀ k, k < K → sl !! k = lp !! (k * n + b)).
  { intros k Hk. destruct (Forall2_lookup_l _ _ _ k k Hsl) as (y & Hy & Hfy).
    { by apply lookup_seq_lt. }
    apply index_Ok in Hfy. by rewrite Hy, Hfy. }
  split; [|done].
  intros row (k & Hrow)%list_elem_of_lookup.
  rewrite Hk in Hrow by (apply lookup_lt_Some in Hrow; lia).
  by eapply list_elem_of_lookup_2.
Qed.

(** One pass of "advance each beam": on a well-formed state it does not
    raise; every beam is advanced on its own slice of the log-probabilities,
    the state keeps its shape, and the list [done] holds every example
    exactly when every beam reports done. *)
Lemma advance_all_total K V n (lp : list (list Z)) (beam : list Beam) (hn cn : list H) :
  0 < K → K ≤ V →
  length beam = n → Forall (beam_wf K) beam →
  length hn = K * n → length cn = K * n →
  length lp = K * n → Forall (λ row, length row = V) lp →
  ∃ beam' hn' cn' dn,
    for_in (seq 0 n) (advance_one (Z.of_nat K) n lp) (beam, hn, cn, [])
    = Ok (beam', hn', cn', dn)
    ∧ length beam' = n ∧ Forall (beam_wf K) beam'
    ∧ length hn' = K * n ∧ length cn' = K * n
    ∧ (∀ b bm, beam !! b = Some bm →
         ∃ sl bm' f, slice_of lp K n b = Ok sl ∧ advance bm sl = Ok (bm', f)
                     ∧ beam' !! b = Some bm')
    ∧ (length dn = n ↔ all_done beam')
    ∧ (K = 1 → hn' = hn ∧ cn' = cn).
Proof.
  intros HK HV Hbeam Hwf Hhn Hcn Hlp Hwidth.
  pose (I := λ (k : nat) (acc : list Beam * list H * list H * list nat),
          length acc.1.1.1 = n ∧ Forall (beam_wf K) acc.1.1.1
          ∧ length acc.1.1.2 = K * n ∧ length acc.1.2 = K * n
          ∧ (∀ b bm, b < k → beam !! b = Some bm →
               ∃ sl bm' f, slice_of lp K n b = Ok sl ∧ advance bm sl = Ok (bm', f)
                           ∧ acc.1.1.1 !! b = Some bm')
          ∧ (∀ b, k ≤ b → acc.1.1.1 !! b = beam !! b)
          ∧ length acc.2 ≤ k
          ∧ (length acc.2 = k ↔
             ∀ b bm, b < k → acc.1.1.1 !! b = Some bm → done bm = true)
          ∧ (K = 1 → acc.1.1.2 = hn ∧ acc.1.2 = cn)).
  destruct (for_in_seq_total I (advance_one (Z.of_nat K) n lp) n (beam, hn, cn, []))
    as ([[[beam' hn'] cn'] dn] & Hfor & HI).
  - unfold I. simpl. repeat split; try done; try lia; intros; lia.
  - intros k [[[bk hk] ck] dk] Hk (Hl & Hw & Hh & Hc & Hdone_lt & Hrest & Hdl & Hdn & H1).
    simpl in *.
    destruct (lookup_lt_is_Some_2 beam k) as [bm Hbm]; [lia|].
    assert (Hbk : bk !! k = Some bm) by (rewrite Hrest; [done|lia]).
    destruct (slice_of_total K n k lp) as (sl & Hsl & Hsll & Hslin & _); [done..|].
    destruct (advance_total K V bm sl) as (bm' & f & Hadv & Hwf');
      [exact HK|exact HV| | | |].
    { by eapply Forall_lookup_1. }
    { done. }
    { apply Forall_forall. intros row Hrow. rewrite Forall_forall in Hwidth.
      by apply Hwidth, Hslin. }
    destruct (get_current_origin_total K bm') as (origin & Horig & Hol & Hop); [done| |].
    { eapply advance_tokens_nonempty; [|done]. by eapply Forall_lookup_1. }
    destruct (update_state_total K n hk ck k origin) as (hk' & ck' & Hupd & Hh' & Hc' & Hid);
      [done..|].
    exists (<[k := bm']> bk, hk', ck', if f then dk ++ [k] else dk). split.
    { unfold advance_one. apply index_Ok in Hbk. rewrite Hbk. simpl.
      rewrite Nat2Z.id, Hsl. simpl. rewrite Hadv. simpl. rewrite Horig. simpl.
      rewrite Hupd. simpl. done. }
    pose proof (advance_flag _ _ _ _ Hadv) as Hf.
    unfold I. simpl. split; [by rewrite length_insert|].
    split; [by apply Forall_insert|]. split; [done|]. split; [done|].
    split; [|split; [|split; [|split]]].
    + intros b bm0 Hb Hbm0. destruct (decide (b = k)) as [->|Hne].
      * assert (bm0 = bm) as -> by congruence.
        exists sl, bm', f. split; [done|]. split; [done|].
        apply list_lookup_insert_eq. lia.
      * destruct (Hdone_lt b bm0) as (sl0 & bm0' & f0 & ? & ? & ?); [lia|done|].
        exists sl0, bm0', f0. split; [done|]. split; [done|].
        by rewrite list_lookup_insert_ne.
    + intros b Hb. rewrite list_lookup_insert_ne by lia. apply Hrest. lia.
    + destruct f; [rewrite length_app; simpl|]; lia.
    + assert (Hat : <[k := bm']> bk !! k = Some bm')
        by (apply list_lookup_insert_eq; lia).
      destruct f.
      * rewrite length_app. simpl. split.
        -- intros Hlen b bm0 Hb Hbm0. destruct (decide (b = k)) as [->|Hne].
           ++ congruence.
           ++ rewrite list_lookup_insert_ne in Hbm0 by done.
              apply (proj1 Hdn) with b; [lia|lia|done].
        -- intros Hall. enough (length dk = k) by lia. apply Hdn.
           intros b bm0 Hb Hbm0. apply (Hall b); [lia|].
           rewrite list_lookup_insert_ne by lia. done.
      * split; [lia|]. intros Hall. specialize (Hall k bm' (Nat.lt_succ_diag_r k) Hat).
        congruence.
    + intros HK1. destruct (Hid HK1) as [-> ->]. by apply H1.
  - exists beam', hn', cn', dn. unfold I in HI. simpl in HI.
    destruct HI as (Hl & Hw & Hh & Hc & Hadv & _ & _ & Hdn & H1).
    split; [done|]. split; [done|]. split; [done|]. split; [done|]. split; [done|].
    split; [|split; [|done]].
    + intros b bm Hb. apply Hadv; [|done]. apply lookup_lt_Some in Hb. lia.
    + rewrite Hdn. unfold all_done. rewrite Forall_lookup. split.
      * intros Hall b bm Hb. apply (Hall b); [|done]. apply lookup_lt_Some in Hb. lia.
      * intros Hall b bm _ Hb. by apply (Hall b).
Qed.

(** The decoder step on rows of equal numbers: it does not raise, keeps
    the number of rows and yields [vocab_size] log-probabilities per row,
    each row computed by [step] from its own context, token and state. *)
Lemma decode_total toks (hn cn : list H) (ctx : list Ctx) :
  length toks = length hn → length cn = length hn → length ctx = length hn →
  ∃ lp hn' cn' attn,
    decode toks hn cn ctx = Run [EvDecode] (Ok (lp, (hn', cn'), attn))
    ∧ length lp = length hn
    ∧ Forall (λ row, length row = vocab_size) lp
    ∧ length hn' = length hn ∧ length cn' = length hn
    ∧ ∀ i c t h0 c0, ctx !! i = Some c → toks !! i = Some t →
        hn !! i = Some h0 → cn !! i = Some c0 →
        lp !! i = Some (map (step c t (h0, c0)).1.1 (seq 0 vocab_size))
        ∧ hn' !! i = Some (step c t (h0, c0)).1.2.1
        ∧ cn' !! i = Some (step c t (h0, c0)).1.2.2
        ∧ attn !! i = Some (step c t (h0, c0)).2.
Proof.
  intros Ht Hc Hx. unfold decode. rewrite run_bind_unfold. cbn [emit result trace].
  destruct (decide _) as [_|Hno]; [|by exfalso; apply Hno].
  set (rows := zip_with (λ c x, step c x.1 x.2) ctx (zip toks (zip hn cn))).
  assert (Hrows : length rows = length hn).
  { unfold rows. rewrite length_zip_with, !length_zip. lia. }
  eexists _, _, _, _. split; [reflexivity|].
  rewrite !length_map. split; [done|]. split; [|split; [done|split; [done|]]].
  - apply Forall_fmap, Forall_forall. intros r _. simpl.
    by rewrite length_map, length_seq.
  - intros i c t h0 c0 Hci Hti Hhi Hcni.
    assert (Hr : rows !! i = Some (step c t (h0, c0))).
    { unfold rows. apply lookup_zip_with_Some.
      exists c, (t, (h0, c0)). split; [done|]. split; [done|].
      apply lookup_zip_with_Some. exists t, (h0, c0). split; [done|]. split; [done|].
      apply lookup_zip_with_Some. by exists h0, c0. }
    rewrite !list_lookup_fmap, Hr. done.
Qed.

Lemma beam_body_Ok beam_size (ctx : list Ctx) n st tr st' stop :
  beam_body beam_size ctx n st = Run tr (Ok (st', stop)) →
  ∃ toks lp hn cn attn beam' hn' cn' dn,
    stack_t (map get_current_state (bs_beam st)) = Ok toks
    ∧ decode toks (bs_hn st) (bs_cn st) ctx = Run [EvDecode] (Ok (lp, (hn, cn), attn))
    ∧ for_in (seq 0 n) (advance_one beam_size n lp) (bs_beam st, hn, cn, [])
      = Ok (beam', hn', cn', dn)
    ∧ tr = [EvDecode]
    ∧ st' = {| bs_beam := beam'; bs_hn := hn'; bs_cn := cn';
               bs_attns := bs_attns st ++ [attn] |}
    ∧ stop = bool_decide (length dn = n).
Proof.
  unfold beam_body. rewrite lift_bind.
  destruct (stack_t _) as [toks|] eqn:Hstack; [|done].
  intros (tr1 & [[lp [hn cn]] attn] & tr2 & Hdec & Hrest & ->)%run_bind_Ok.
  pose proof (decode_Ok _ _ _ _ _ _ Hdec) as (-> & _).
  destruct (decide _); [|done]. rewrite lift_bind in Hrest.
  destruct (for_in _ _ _) as [[[[beam' hn'] cn'] dn]|] eqn:Hfor; [|done].
  injection Hrest as <- <- <-.
  exists toks, lp, hn, cn, attn, beam', hn', cn', dn. done.
Qed.

(** Whatever happens, one iteration calls the decoder at most once. *)
Lemma decode_trace toks (hn cn : list H) (ctx : list Ctx) :
  trace (decode toks hn cn ctx) = [EvDecode].
Proof.
  unfold decode. rewrite run_bind_unfold. cbn [emit result trace].
  by destruct (decide _).
Qed.

Lemma beam_body_decodes beam_size (ctx : list Ctx) n st :
  count_event EvDecode (trace (beam_body beam_size ctx n st)) ≤ 1.
Proof.
  unfold beam_body. rewrite lift_bind. destruct (stack_t _) as [toks|]; [|by cbv; lia].
  rewrite run_bind_unfold, decode_trace.
  destruct (result (decode _ _ _ _)) as [[[lp [hn cn]] attn]|]; [|by cbv; lia].
  cbn [trace]. destruct (decide _); [|by cbv; lia].
  rewrite lift_bind. destruct (for_in _ _ _) as [[[[? ?] ?] ?]|]; by cbv; lia.
Qed.

Lemma main_loop_decodes fuel beam_size (ctx : list Ctx) n st :
  count_event EvDecode (trace (main_loop fuel beam_size ctx n st)) ≤ fuel.
Proof.
  revert st. induction fuel as [|fuel IH]; intros st; [by cbv; lia|].
  cbn [main_loop]. rewrite run_bind_unfold.
  pose proof (beam_body_decodes beam_size ctx n st) as Hb.
  destruct (result (beam_body beam_size ctx n st)) as [[st' stop]|]; [|simpl; lia].
  cbn [trace]. rewrite count_event_app. destruct stop.
  - change (count_event EvDecode (trace (mret st'))) with 0. lia.
  - specialize (IH st'). lia.
Qed.

(** If every beam reports done after the pass over the examples, the list
    [done] holds all of them. *)
Lemma advance_all_done beam_size n lp (beam : list Beam) (hn cn : list H)
    beam' hn' cn' dn :
  for_in (seq 0 n) (advance_one beam_size n lp) (beam, hn, cn, [])
  = Ok (beam', hn', cn', dn) →
  length beam = n →
  length beam' = n ∧ (all_done beam' → length dn = n).
Proof.
  intros Hfor Hbeam.
  pose (I := λ (k : nat) (acc : list Beam * list H * list H * list nat),
          length acc.1.1.1 = n
          ∧ (∀ b, k ≤ b → acc.1.1.1 !! b = beam !! b)
          ∧ ((∀ b bm, b < k → acc.1.1.1 !! b = Some bm → done bm = true)
             → length acc.2 = k)).
  enough (HI : I n (beam', hn', cn', dn)).
  { destruct HI as (Hl & _ & Hdn). split; [done|]. intros Hall. apply Hdn.
    intros b bm _ Hb. unfold all_done in Hall.
    by apply (Forall_lookup_1 _ _ _ _ Hall Hb). }
  revert Hfor. apply (for_in_seq_ind I); unfold I.
  - simpl. split; [done|]. split; [done|]. done.
  - intros k [[[bk hk] ck] dk] s1 Hk (Hl & Hrest & Hdn). simpl in *.
    unfold advance_one.
    intros (bm & Hbm%index_Ok & Hr)%bind_Ok.
    apply bind_Ok in Hr as (sl & _ & Hr).
    apply bind_Ok in Hr as ([bm' f] & Hadv & Hr).
    apply bind_Ok in Hr as (origin & _ & Hr).
    apply bind_Ok in Hr as (states & _ & Hr).
    destruct states as [|hk' [|ck' [|]]]; try done. injection Hr as <-. simpl.
    pose proof (advance_flag _ _ _ _ Hadv) as Hf.
    assert (Hat : <[k := bm']> bk !! k = Some bm')
      by (apply list_lookup_insert_eq; lia).
    split; [by rewrite length_insert|]. split.
    + intros b Hb. rewrite list_lookup_insert_ne by lia. apply Hrest. lia.
    + intros Hall. pose proof (Hall k bm' (Nat.lt_succ_diag_r k) Hat) as Hd.
      rewrite Hd in Hf. subst f. rewrite length_app. simpl.
      rewrite Hdn; [lia|]. intros b bm0 Hb Hbm0. apply (Hall b); [lia|].
      by rewrite list_lookup_insert_ne by lia.
Qed.

Lemma beam_body_all_done beam_size (ctx : list Ctx) n st tr st' stop :
  beam_body beam_size ctx n st = Run tr (Ok (st', stop)) →
  length (bs_beam st) = n →
  length (bs_beam st') = n ∧ (all_done (bs_beam st') → stop = true).
Proof.
  intros Hb Hlen.
  apply beam_body_Ok in Hb
    as (toks & lp & hn & cn & attn & beam' & hn' & cn' & dn & _ & _ & Hfor & _ & -> & ->).
  simpl. destruct (advance_all_done _ _ _ _ _ _ _ _ _ _ Hfor Hlen) as [Hl Hdn].
  split; [done|]. intros Hall. apply bool_decide_eq_true. by apply Hdn.
Qed.

(** C2. Early stop: if the main loop bounded by [t + 1] iterations ends
    with every example's beam done, then the loop with any larger bound
    (up to [max_dec_len]) is the very same run: same final state and same
    calls, so the decoder is called at most [t + 1] times and never after
    step [t]. *)
Theorem early_stop fuel t beam_size (ctx : list Ctx) n st tr st' :
  length (bs_beam st) = n →
  S t ≤ fuel →
  main_loop (S t) beam_size ctx n st = Run tr (Ok st') →
  all_done (bs_beam st') →
  main_loop fuel beam_size ctx n st = Run tr (Ok st')
  ∧ count_event EvDecode tr ≤ S t.
Proof.
  intros Hlen Hfuel Hrun Hall. split.
  2:{ pose proof (main_loop_decodes (S t) beam_size ctx n st) as Hc.
      by rewrite Hrun in Hc. }
  revert fuel st tr Hlen Hfuel Hrun.
  induction t as [|t IH]; intros fuel st tr Hlen Hfuel Hrun.
  - destruct fuel as [|fuel]; [lia|]. cbn [main_loop] in *.
    apply run_bind_Ok in Hrun as (tr1 & [s1 stop] & tr2 & Hb & Hrest & ->).
    rewrite Hb, run_bind_unfold. cbn [result trace].
    destruct (beam_body_all_done _ _ _ _ _ _ _ Hb Hlen) as [_ Hstop].
    destruct stop.
    + injection Hrest as <- <-. done.
    + injection Hrest as <- <-. by specialize (Hstop Hall).
  - destruct fuel as [|fuel]; [lia|].
    change (main_loop (S (S t)) beam_size ctx n st)
      with ('(st', stop) ← beam_body beam_size ctx n st;
            if stop : bool then mret st' else main_loop (S t) beam_size ctx n st')
      in Hrun.
    cbn [main_loop].
    apply run_bind_Ok in Hrun as (tr1 & [s1 stop] & tr2 & Hb & Hrest & ->).
    rewrite Hb, run_bind_unfold. cbn [result trace].
    destruct (beam_body_all_done _ _ _ _ _ _ _ Hb Hlen) as [Hlen1 _].
    destruct stop.
    + injection Hrest as <- <-. done.
    + rewrite (IH fuel s1 tr2); [done|done|lia|done].
Qed.

End LoopFacts.

(** The end-to-end scenario of the specification: beam width 2, the scorer
    favours [a], [a], end-of-sequence; every beam is done after 3 steps and
    a bound of 4 makes no further call. *)
Lemma early_stop_witness :
  ∃ tr st',
    Stub.loop 3 [[3; 3]] 2 = Run tr (Ok st')
    ∧ all_done (bs_beam st')
    ∧ Stub.loop 4 [[3; 3]] 2 = Run tr (Ok st')
    ∧ count_event EvDecode tr ≤ 3.
Proof.
  eexists _, _.
  assert (Hrun : Stub.loop 3 [[3; 3]] 2 = Run _ (Ok _)) by (vm_compute; reflexivity).
  split; [exact Hrun|].
  assert (Hall : all_done (bs_beam
                   {| bs_beam := [mkBeam 2 [Fin (-3); Fin (-7)]
                                         [[3; 0]; [3; 0]; [2; 0]]
                                         [[0; 0]; [0; 0]; [0; 0]] true];
                      bs_hn := [3; 3]; bs_cn := [0; 0];
                      bs_attns := [[0; 0]; [1; 1]; [2; 2]] |}))
    by (repeat constructor).
  split; [exact Hall|].
  unfold Stub.loop in Hrun |- *.
  apply (early_stop (constant := Stub.constant) (args := Stub.args 4)
           (scorer := Stub.scorer) 4 2 _ _ _ _ _ _);
    [reflexivity|lia|exact Hrun|exact Hall].
Defined.

(** ** The greedy path and the beam path of width 1 *)

Section WidthOne.

Context {constant : Constant}.

(** One step of a live beam of width 1 whose candidate has a finite
    score: it appends the token that [max] selects, with origin 0, and is
    done exactly when that token is end-of-sequence. *)
Lemma advance_width_1 bm (row : list Z) s p m :
  size bm = 1 → scores bm = [Fin s] → done bm = false →
  argmax row = Some p → row !! p = Some m →
  advance bm [row]
  = Ok ({| size := 1;
           scores := [Fin (s + m)];
           tokens := tokens bm ++ [[p]];
           backpointers := backpointers bm ++ [[0]];
           done := bool_decide (p = EOS_ID) |},
        bool_decide (p = EOS_ID)).
Proof.
  intros Hsize Hscores Hdone Harg Hm. unfold advance. rewrite Hdone. simpl.
  assert (Hflat : candidates bm [row] = Ok (map (sadd (Fin s)) row)).
  { unfold candidates. rewrite Hscores. destruct (tokens bm); simpl; [done|].
    by rewrite app_nil_r. }
  rewrite Hflat. simpl. rewrite Hsize, (topk_1_argmax s row p m) by done. simpl.
  pose proof (lookup_lt_Some _ _ _ Hm) as Hp.
  rewrite Nat.mod_small, Nat.div_small by done. done.
Qed.

End WidthOne.

Lemma count_true_replicate_false n : count_true (replicate n false) = 0.
Proof. unfold count_true. induction n as [|n IH]; [done|]. simpl. by rewrite filter_cons_False. Qed.

Lemma count_true_le l : count_true l ≤ length l.
Proof. unfold count_true. apply length_filter. Qed.

Lemma count_true_insert l k :
  l !! k = Some false → count_true (<[k := true]> l) = S (count_true l).
Proof.
  unfold count_true. revert k. induction l as [|d l IH]; intros [|k] Hk; try done.
  - injection Hk as ->. change (<[0:=true]> (false :: l)) with (true :: l).
    rewrite filter_cons_True by done. rewrite filter_cons_False by done. done.
  - change (<[S k:=true]> (d :: l)) with (d :: <[k:=true]> l).
    change ((d :: l) !! S k) with (l !! k) in Hk. destruct d.
    + rewrite !filter_cons_True by done. simpl. by rewrite IH.
    + rewrite !filter_cons_False by done. by apply IH.
Qed.

Lemma count_true_all l : count_true l = length l ↔ Forall (λ d, d = true) l.
Proof.
  unfold count_true. induction l as [|d l IH]; [done|]. destruct d.
  - rewrite filter_cons_True by done. simpl. rewrite Forall_cons. split.
    + intros [= Hl]. split; [done|]. by apply IH.
    + intros [_ Hall]. f_equal. by apply IH.
  - rewrite filter_cons_False by done. simpl. rewrite Forall_cons. split.
    + intros Hl. pose proof (length_filter (λ d, d = true) l). lia.
    + by intros [? _].
Qed.

Section GreedyMarks.

Context {constant : Constant}.
Context {args : Args} {H Inp Ctx Attn Logits : Type} {scorer : Scorer H Inp Ctx Attn Logits}.

(** What one pass of the greedy loop does to example [b]. *)
Lemma greedy_marks_total (preds : list nat) n dn total outs :
  length dn = n → length outs = n → length preds = n → total = count_true dn →
  ∃ dn' total' outs',
    for_in (seq 0 n) (greedy_mark preds) (dn, total, outs) = Ok (dn', total', outs')
    ∧ length dn' = n ∧ length outs' = n ∧ total' = count_true dn'
    ∧ ∀ b d t out, dn !! b = Some d → preds !! b = Some t → outs !! b = Some out →
        dn' !! b = Some (d || bool_decide (t = EOS_ID))
        ∧ outs' !! b = Some (if d || bool_decide (t = EOS_ID) then out else out ++ [t]).
Proof.
  intros Hdn Houts Hpreds Htotal.
  pose (I := λ (k : nat) (acc : list bool * nat * list (list nat)),
          length acc.1.1 = n ∧ length acc.2 = n ∧ acc.1.2 = count_true acc.1.1
          ∧ (∀ b, k ≤ b → acc.1.1 !! b = dn !! b ∧ acc.2 !! b = outs !! b)
          ∧ (∀ b d t out, b < k → dn !! b = Some d → preds !! b = Some t →
               outs !! b = Some out →
               acc.1.1 !! b = Some (d || bool_decide (t = EOS_ID))
               ∧ acc.2 !! b
                 = Some (if d || bool_decide (t = EOS_ID) then out else out ++ [t]))).
  destruct (for_in_seq_total I (greedy_mark preds) n (dn, total, outs))
    as ([[dn' total'] outs'] & Hfor & HI).
  - unfold I. simpl. split; [done|]. split; [done|]. split; [done|]. split; [done|].
    intros b d t out Hb. lia.
  - intros k [[dk tk] ok] Hk (Hl1 & Hl2 & Htk & Hrest & Hdone). simpl in *.
    destruct (lookup_lt_is_Some_2 dn k) as [d Hd]; [lia|].
    destruct (lookup_lt_is_Some_2 preds k) as [t Ht]; [lia|].
    destruct (lookup_lt_is_Some_2 outs k) as [out Hout]; [lia|].
    destruct (Hrest k (le_n k)) as [Hdk Hok]. rewrite Hd in Hdk. rewrite Hout in Hok.
    assert (Hkeep : ∀ (dk' : list bool) (ok' : list (list nat)),
              (∀ b, b ≠ k → dk' !! b = dk !! b ∧ ok' !! b = ok !! b) →
              dk' !! k = Some (d || bool_decide (t = EOS_ID)) →
              ok' !! k = Some (if d || bool_decide (t = EOS_ID) then out else out ++ [t]) →
              (∀ b, S k ≤ b → dk' !! b = dn !! b ∧ ok' !! b = outs !! b)
              ∧ (∀ b d0 t0 out0, b < S k → dn !! b = Some d0 → preds !! b = Some t0 →
                   outs !! b = Some out0 →
                   dk' !! b = Some (d0 || bool_decide (t0 = EOS_ID))
                   ∧ ok' !! b
                     = Some (if d0 || bool_decide (t0 = EOS_ID) then out0
                             else out0 ++ [t0]))).
    { intros dk' ok' Hother Hdk' Hok'. split.
      - intros b Hb. destruct (Hother b) as [-> ->]; [lia|]. apply Hrest. lia.
      - intros b d0 t0 out0 Hb Hd0 Ht0 Hout0. destruct (decide (b = k)) as [->|Hne].
        + assert (d0 = d) as -> by congruence. assert (t0 = t) as -> by congruence.
          assert (out0 = out) as -> by congruence. done.
        + destruct (Hother b Hne) as [-> ->]. apply Hdone; [lia|done..]. }
    unfold greedy_mark. apply index_Ok in Hdk as Hidx. rewrite Hidx. simpl.
    destruct d.
    + eexists. split; [done|]. unfold I. simpl.
      split; [done|]. split; [done|]. split; [done|]. by apply Hkeep.
    + apply index_Ok in Ht as Hidt. rewrite Hidt. simpl.
      destruct (decide (t = EOS_ID)) as [Heos|Hne].
      * eexists. split; [done|]. unfold I. simpl.
        split; [by rewrite length_insert|]. split; [done|].
        split; [by rewrite count_true_insert, Htk|]. apply Hkeep.
        -- intros b Hb. by rewrite list_lookup_insert_ne.
        -- rewrite list_lookup_insert_eq by lia. by rewrite bool_decide_eq_true_2.
        -- by rewrite bool_decide_eq_true_2.
      * apply index_Ok in Hok as Hido. rewrite Hido. simpl.
        eexists. split; [done|]. unfold I. simpl.
        split; [done|]. split; [by rewrite length_insert|]. split; [done|]. apply Hkeep.
        -- intros b Hb. by rewrite list_lookup_insert_ne.
        -- by rewrite bool_decide_eq_false_2.
        -- rewrite list_lookup_insert_eq by lia. by rewrite bool_decide_eq_false_2.
  - exists dn', total', outs'. destruct HI as (Hl1 & Hl2 & Htk & _ & Hdone). simpl in *.
    split; [done|]. split; [done|]. split; [done|]. split; [done|].
    intros b d t out Hd Ht Hout. apply Hdone; [|done..].
    apply lookup_lt_Some in Hd. lia.
Qed.

Lemma max_preds_total (lp : list (list Z)) V :
  0 < V → Forall (λ row, length row = V) lp →
  ∃ preds, max_preds lp = Ok preds ∧ length preds = length lp
           ∧ ∀ b row, lp !! b = Some row →
               ∃ p, preds !! b = Some p ∧ argmax row = Some p.
Proof.
  intros HV Hrows. unfold max_preds.
  set (f := λ row : list Z, match argmax row with
                            | Some v => Ok v
                            | None => Raise IndexError
                            end).
  destruct (for_each_total f lp) as (preds & Hpreds & Hlen).
  { intros row Hrow. rewrite Forall_forall in Hrows. specialize (Hrows row Hrow).
    destruct (argmax_first_max row) as (p & Hp & _).
    { destruct row; [simpl in Hrows; lia|done]. }
    exists p. unfold f. by rewrite Hp. }
  exists preds. split; [done|]. split; [done|].
  intros b row Hrow. apply for_each_Ok in Hpreds.
  destruct (Forall2_lookup_l _ _ _ _ _ Hpreds Hrow) as (p & Hp & Hf).
  exists p. split; [done|]. unfold f in Hf.
  destruct (argmax row) as [v|]; [|done]. by injection Hf as <-.
Qed.

End GreedyMarks.

Section SimulationFacts.

Context {constant : Constant} {args : Args} {utils : Utils}.
Context {H Inp Ctx Attn Logits : Type} {scorer : Scorer H Inp Ctx Attn Logits}.
Context {lens : Lens Inp} {mask : EmbMask Inp}.

Lemma sim_beam_wf d t out bm : sim_beam d t out bm → beam_wf 1 bm.
Proof.
  intros (Hsize & [s Hs] & Hd & Htok & Hback & _).
  split; [done|]. split; [by rewrite Hs|]. split; [by rewrite Hback, length_map|].
  split; [|split].
  - rewrite Htok. apply Forall_fmap, Forall_forall. by intros x _.
  - rewrite Hback. apply Forall_fmap, Forall_forall. intros x _. simpl.
    split; [done|]. apply Forall_singleton. lia.
  - intros Hdone. rewrite Htok, <- Hd, Hdone.
    destruct out; simpl; intros [=].
Qed.

(** A finished example: its beam stays as it is, whatever is fed. *)
Lemma sim_beam_done t t' out bm sl :
  sim_beam true t out bm → advance bm sl = Ok (bm, true) ∧ sim_beam true t' out bm.
Proof.
  intros (Hsize & Hs & Hd & Htok & Hback & _). split; [by apply advance_done|].
  repeat split; try done.
Qed.

(** A live example: the beam appends the token that the greedy path
    selects, and is done exactly when the greedy path marks it done. *)
Lemma sim_beam_live t out bm (row : list Z) p :
  sim_beam false t out bm → argmax row = Some p →
  let d' := bool_decide (p = EOS_ID) in
  ∃ bm', advance bm [row] = Ok (bm', d')
         ∧ sim_beam d' p (if d' then out else out ++ [p]) bm'.
Proof.
  intros (Hsize & [s Hs] & Hd & Htok & Hback & _) Harg d'.
  destruct (argmax_first_max row) as (p' & Hp' & m & Hm & _); [by destruct row|].
  assert (p' = p) as -> by congruence.
  eexists. split; [by apply (advance_width_1 bm row s p m)|].
  split; [done|]. split; [by eexists|]. split; [done|]. simpl.
  split; [|split].
  - rewrite Htok. subst d'. destruct (bool_decide (p = EOS_ID)) eqn:Hp.
    + apply bool_decide_eq_true in Hp. subst p. by rewrite map_app.
    + by rewrite map_app.
  - rewrite Hback, map_app. done.
  - intros _. unfold get_current_state. simpl. by rewrite last_snoc.
Qed.

(** In matching states, every beam is done exactly when the greedy path
    has counted every example. *)
Lemma sim_state_all_done n (g : greedy_state (H := H) (Attn := Attn))
    (s : beam_state (H := H) (Attn := Attn)) :
  sim_state n g s → (all_done (bs_beam s) ↔ ¬ g_total_done g < n).
Proof.
  intros (Hl1 & _ & _ & Hl4 & Hl5 & Hl6 & _ & _ & Htot & Hsim).
  assert (Hcount : ¬ g_total_done g < n ↔ Forall (λ d, d = true) (g_done g)).
  { rewrite <- count_true_all, Htot, Hl4.
    pose proof (count_true_le (g_done g)). lia. }
  rewrite Hcount. unfold all_done. rewrite !Forall_lookup. split.
  - intros Hall b d Hd.
    destruct (lookup_lt_is_Some_2 (g_dec_inputs g) b) as [t Ht].
    { apply lookup_lt_Some in Hd. lia. }
    destruct (lookup_lt_is_Some_2 (g_output_seqs g) b) as [out Hout].
    { apply lookup_lt_Some in Hd. lia. }
    destruct (Hsim b d t out Hd Ht Hout) as (bm & Hbm & (_ & _ & Hdone & _) & _).
    rewrite <- Hdone. by apply (Hall b).
  - intros Hall b bm Hbm. pose proof (lookup_lt_Some _ _ _ Hbm) as Hb.
    destruct (lookup_lt_is_Some_2 (g_done g) b) as [d Hd]; [lia|].
    destruct (lookup_lt_is_Some_2 (g_dec_inputs g) b) as [t Ht]; [lia|].
    destruct (lookup_lt_is_Some_2 (g_output_seqs g) b) as [out Hout]; [lia|].
    destruct (Hsim b d t out Hd Ht Hout) as (bm' & Hbm' & (_ & _ & Hdone & _) & _).
    assert (bm' = bm) as -> by congruence. rewrite Hdone. by apply (Hall b).
Qed.

(** One iteration of each loop, from matching states: neither raises,
    both call the decoder once, the states match again, and the beam loop
    breaks exactly when the greedy loop has counted every example. *)
Lemma sim_step n (ctx : list Ctx) g s :
  0 < n → 0 < vocab_size → length ctx = n → sim_state n g s →
  ∃ g' s' stop,
    greedy_body ctx n g = Run [EvDecode] (Ok g')
    ∧ beam_body 1 ctx n s = Run [EvDecode] (Ok (s', stop))
    ∧ sim_state n g' s'
    ∧ g_max_len g' = (g_max_len g + 1)%Z
    ∧ (stop = true ↔ ¬ g_total_done g' < n).
Proof.
  intros Hn HV Hctx (Hl1 & Hl2 & Hl3 & Hl4 & Hl5 & Hl6 & Hl7 & Hl8 & Htot & Hsim).
  assert (Hrec : ∀ b, b < n →
            ∃ d t out bm,
              g_done g !! b = Some d ∧ g_dec_inputs g !! b = Some t
              ∧ g_output_seqs g !! b = Some out ∧ bs_beam s !! b = Some bm
              ∧ sim_beam d t out bm
              ∧ (d = false → g_hn g !! b = bs_hn s !! b ∧ g_cn g !! b = bs_cn s !! b)).
  { intros b Hb.
    destruct (lookup_lt_is_Some_2 (g_done g) b) as [d Hd]; [lia|].
    destruct (lookup_lt_is_Some_2 (g_dec_inputs g) b) as [t Ht]; [lia|].
    destruct (lookup_lt_is_Some_2 (g_output_seqs g) b) as [out Hout]; [lia|].
    destruct (Hsim b d t out Hd Ht Hout) as (bm & Hbm & Hsb & Hst).
    by exists d, t, out, bm. }
  (* the greedy side *)
  destruct (decode_total (g_dec_inputs g) (g_hn g) (g_cn g) ctx)
    as (lpG & hnG & cnG & atG & HdecG & HlpG & HrowsG & HhnG & HcnG & HptG); [lia..|].
  destruct (max_preds_total lpG vocab_size HV HrowsG) as (preds & Hpreds & Hplen & Hpp).
  destruct (greedy_marks_total preds n (g_done g) (g_total_done g) (g_output_seqs g))
    as (dn' & total' & outs' & Hmarks & Hdl & Hol & Htot' & Hmk); [lia|lia|lia|done|].
  (* the beam side *)
  assert (Hwf : Forall (beam_wf 1) (bs_beam s)).
  { apply Forall_lookup. intros b bm Hbm.
    destruct (Hrec b) as (d & t & out & bm' & _ & _ & _ & Hbm' & Hsb & _).
    { apply lookup_lt_Some in Hbm. lia. }
    assert (bm' = bm) as -> by congruence. by eapply sim_beam_wf. }
  destruct (stack_t_total 1 n (map get_current_state (bs_beam s)))
    as (toks & Hstack & Htl & Htoks); [lia|done|by rewrite length_map| |].
  { apply Forall_fmap, Forall_forall. intros bm Hbm. simpl.
    apply length_get_current_state. rewrite Forall_forall in Hwf. by apply Hwf. }
  destruct (decode_total toks (bs_hn s) (bs_cn s) ctx)
    as (lpB & hnB & cnB & atB & HdecB & HlpB & HrowsB & HhnB & HcnB & HptB); [lia..|].
  destruct (advance_all_total 1 vocab_size n lpB (bs_beam s) hnB cnB)
    as (beam' & hn' & cn' & dnB & Hfor & Hbl & Hbwf & Hh' & Hc' & Hadv & Hstop & Hid);
    [lia|lia|done|done|lia|lia|lia|done|].
  destruct (Hid eq_refl) as [-> ->].
  change (Z.of_nat 1) with 1%Z in Hfor.
  (* example by example *)
  assert (Hex : ∀ b d t out bm,
            g_done g !! b = Some d → g_dec_inputs g !! b = Some t →
            g_output_seqs g !! b = Some out → bs_beam s !! b = Some bm →
            sim_beam d t out bm →
            (d = false → g_hn g !! b = bs_hn s !! b ∧ g_cn g !! b = bs_cn s !! b) →
            ∃ p bm',
              preds !! b = Some p ∧ beam' !! b = Some bm'
              ∧ sim_beam (d || bool_decide (p = EOS_ID)) p
                         (if d || bool_decide (p = EOS_ID) then out else out ++ [p]) bm'
              ∧ (d || bool_decide (p = EOS_ID) = false →
                 hnG !! b = hnB !! b ∧ cnG !! b = cnB !! b)).
  { intros b d t out bm Hd Ht Hout Hbm Hsb Hst.
    pose proof (lookup_lt_Some _ _ _ Hd) as Hb.
    destruct (lookup_lt_is_Some_2 lpG b) as [rowG HrowG]; [lia|].
    destruct (Hpp b rowG HrowG) as (p & Hp & Harg).
    destruct (Hadv b bm Hbm) as (sl & bm' & f & Hsl & Hbadv & Hbm').
    exists p, bm'. split; [done|]. split; [done|].
    destruct d.
    - destruct (sim_beam_done t p out bm sl Hsb) as [Hsame Hsb'].
      assert (bm' = bm) as -> by congruence. by split.
    - destruct (Hst eq_refl) as [Hh Hc].
      destruct (lookup_lt_is_Some_2 ctx b) as [c Hcx]; [lia|].
      destruct (lookup_lt_is_Some_2 (g_hn g) b) as [h0 Hh0]; [lia|].
      destruct (lookup_lt_is_Some_2 (g_cn g) b) as [c0 Hc0]; [lia|].
      destruct (HptG b c t h0 c0) as (HlG & HhG & HcG & _); [done..|].
      assert (Htb : toks !! b = Some t).
      { apply (Htoks b [t] t); [lia| |].
        - rewrite Nat.mod_small by lia. rewrite list_lookup_fmap, Hbm. simpl.
          f_equal. by apply Hsb.
        - by rewrite Nat.div_small by lia. }
      destruct (HptB b c t h0 c0) as (HlB & HhB & HcB & _); [done|done|congruence..|].
      assert (rowG = map (step c t (h0, c0)).1.1 (seq 0 vocab_size)) as Hrow
        by congruence.
      assert (sl = [rowG]) as ->.
      { destruct (slice_of_total 1 n b lpB) as (sl' & Hsl' & Hlen & _ & Hk); [lia|lia|].
        assert (sl' = sl) as -> by congruence.
        specialize (Hk 0 (Nat.lt_0_1)). simpl in Hk. rewrite HlB, <- Hrow in Hk.
        destruct sl as [|r [|]]; simpl in *; try lia. congruence. }
      destruct (sim_beam_live t out bm rowG p Hsb Harg) as (bm'' & Hadv'' & Hsb'').
      assert (bm'' = bm') as -> by congruence. simpl.
      split; [done|]. intros _. split; congruence. }
  pose (g' := {| g_dec_inputs := preds; g_hn := hnG; g_cn := cnG; g_done := dn';
                 g_total_done := total'; g_max_len := (g_max_len g + 1)%Z;
                 g_output_seqs := outs'; g_attns := g_attns g ++ [atG] |}).
  pose (s' := {| bs_beam := beam'; bs_hn := hnB; bs_cn := cnB;
                 bs_attns := bs_attns s ++ [atB] |}).
  assert (Hsim' : sim_state n g' s').
  { unfold sim_state, g', s'. simpl.
    split; [lia|]. split; [lia|]. split; [lia|]. split; [done|]. split; [done|].
    split; [done|]. split; [lia|]. split; [lia|]. split; [done|].
    intros b d' t' out' Hd' Ht' Hout'.
    destruct (Hrec b) as (d & t & out & bm & Hd & Ht & Hout & Hbm & Hsb & Hst).
    { apply lookup_lt_Some in Hd'. lia. }
    destruct (Hex b d t out bm) as (p & bm' & Hp & Hbm' & Hsb' & Hst'); [done..|].
    assert (p = t') as -> by congruence.
    destruct (Hmk b d t' out) as [Hd2 Hout2]; [done..|].
    assert (d' = d || bool_decide (t' = EOS_ID)) as -> by congruence.
    assert (out' = if d || bool_decide (t' = EOS_ID) then out else out ++ [t']) as ->
      by congruence.
    by exists bm'. }
  exists g', s', (bool_decide (length dnB = n)). split; [|split; [|split; [|split]]].
  - unfold greedy_body. rewrite HdecG, run_bind_unfold. cbn [result trace].
    rewrite Hpreds, lift_bind, Hmarks, lift_bind. reflexivity.
  - unfold beam_body. rewrite Hstack, lift_bind, HdecB, run_bind_unfold.
    cbn [result trace]. destruct (decide _) as [_|Hno].
    + rewrite Hfor, lift_bind. reflexivity.
    + exfalso. apply Hno. simpl. lia.
  - done.
  - done.
  - rewrite bool_decide_eq_true, Hstop.
    apply (sim_state_all_done n g' s' Hsim').
Qed.

Lemma greedy_loop_stop fuel (ctx : list Ctx) n g :
  ¬ greedy_continue n g → greedy_loop fuel ctx n g = mret g.
Proof. intros Hno. destruct fuel; simpl; by destruct (decide _). Qed.

(** The two loops, from matching states in which some example is still
    live: neither raises, they make the same calls and end in matching
    states. *)
Lemma sim_loops n (ctx : list Ctx) fuel g s :
  0 < n → 0 < vocab_size → length ctx = n →
  sim_state n g s →
  g_total_done g < n →
  Z.of_nat fuel = Z.max 0 (max_dec_len - g_max_len g) →
  ∃ tr g' s',
    greedy_loop fuel ctx n g = Run tr (Ok g')
    ∧ main_loop fuel 1 ctx n s = Run tr (Ok s')
    ∧ sim_state n g' s'.
Proof.
  intros Hn HV Hctx. revert g s.
  induction fuel as [|fuel IH]; intros g s Hsim Hlive Hfuel.
  - exists [], g, s. split; [|by split]. simpl. by destruct (decide _).
  - destruct (sim_step n ctx g s Hn HV Hctx Hsim)
      as (g1 & s1 & stop & Hgb & Hbb & Hsim1 & Hlen1 & Hstop).
    cbn [greedy_loop main_loop].
    destruct (decide (greedy_continue n g)) as [_|Hno].
    2:{ exfalso. apply Hno. split; [done|]. lia. }
    rewrite Hgb, Hbb, !run_bind_unfold. cbn [result trace].
    destruct stop.
    + exists [EvDecode], g1, s1. rewrite greedy_loop_stop.
      * by split.
      * intros [Hc _]. by apply (proj1 Hstop).
    + destruct (IH g1 s1 Hsim1) as (tr & g' & s' & Hgl & Hml & Hsim').
      { destruct (decide (g_total_done g1 < n)) as [|Hge]; [done|].
        by apply Hstop in Hge. }
      { lia. }
      exists ([EvDecode] ++ tr), g', s'. by rewrite Hgl, Hml.
Qed.

Lemma backtrace_singletons (l : list nat) :
  backtrace (map (λ x, ([x], [0])) l) 0 = Ok (reverse l).
Proof.
  induction l as [|x l IH]; [done|].
  simpl. rewrite IH. simpl. by rewrite reverse_cons.
Qed.

(** Rank 0 of the beam of an example is its only slot, and the hypothesis
    of that slot is the greedy output, closed by end-of-sequence when the
    example is done. *)
Lemma sim_beam_rank_0 d t out bm :
  sim_beam d t out bm →
  ∃ sc, index (sort_best bm) 0 = Ok (0, sc)
        ∧ get_hyp bm 0 = Ok (if d then out ++ [EOS_ID] else out).
Proof.
  intros (Hsize & [s Hs] & Hd & Htok & Hback & _).
  exists (Fin s). unfold sort_best. rewrite Hs. split; [done|].
  unfold get_hyp. rewrite Hback, Htok.
  set (l := if d then out ++ [EOS_ID] else out).
  assert (Hzip : zip (map (λ x, [x]) l) (map (λ _ : list nat, [0]) (map (λ x, [x]) l))
                 = map (λ x, ([x], [0])) l).
  { induction l as [|x l IH]; [done|]. simpl. by rewrite <- IH. }
  rewrite Hzip, <- fmap_reverse.
  change (fmap (λ x, ([x], [0])) (reverse l)) with (map (λ x, ([x], [0])) (reverse l)).
  rewrite backtrace_singletons, reverse_involutive. done.
Qed.

(** The back trace of the beam of an example gives that hypothesis,
    pruned. *)
Lemma sim_beam_best_hyp d t out bm :
  sim_beam d t out bm →
  ∃ sc, best_hyp bm = Ok (prune_hyp (if d then out ++ [EOS_ID] else out), sc).
Proof.
  intros Hsim. destruct (sim_beam_rank_0 d t out bm Hsim) as (sc & Hidx & Hhyp).
  exists sc. unfold best_hyp. rewrite Hidx. simpl. by rewrite Hhyp.
Qed.

(** With a pruning that only cuts the closing end-of-sequence token, the
    back trace of matching states gives the greedy outputs. *)
Lemma sim_state_back_trace n (g : greedy_state (H := H) (Attn := Attn))
    (s : beam_state (H := H) (Attn := Attn)) :
  cuts_closing_eos →
  Forall (λ out, EOS_ID ∉ out) (g_output_seqs g) →
  sim_state n g s →
  ∃ scs, back_trace (bs_beam s) = Ok (g_output_seqs g, scs).
Proof.
  intros Hcut Hfree (Hl1 & _ & _ & Hl4 & Hl5 & Hl6 & _ & _ & _ & Hsim).
  assert (Hrec : ∀ b bm, bs_beam s !! b = Some bm →
            ∃ out sc, g_output_seqs g !! b = Some out
                      ∧ best_hyp bm = Ok (out, sc)).
  { intros b bm Hbm. pose proof (lookup_lt_Some _ _ _ Hbm) as Hb.
    destruct (lookup_lt_is_Some_2 (g_done g) b) as [d Hd]; [lia|].
    destruct (lookup_lt_is_Some_2 (g_dec_inputs g) b) as [t Ht]; [lia|].
    destruct (lookup_lt_is_Some_2 (g_output_seqs g) b) as [out Hout]; [lia|].
    destruct (Hsim b d t out Hd Ht Hout) as (bm' & Hbm' & Hsb & _).
    assert (bm' = bm) as -> by congruence.
    destruct (sim_beam_best_hyp d t out bm Hsb) as [sc Hsc]. exists out, sc.
    split; [done|]. rewrite Hsc. f_equal. f_equal.
    rewrite Forall_lookup in Hfree. destruct (Hcut out (Hfree b out Hout)) as [Hk Hc].
    by destruct d. }
  destruct (for_each_total best_hyp (bs_beam s)) as (found & Hfound & Hfl).
  { intros bm (b & Hbm)%list_elem_of_lookup.
    destruct (Hrec b bm Hbm) as (out & sc & _ & ->). by eexists. }
  exists found.*2. unfold back_trace. rewrite Hfound. simpl. do 2 f_equal.
  apply (list_eq_same_length _ _ n); [lia|rewrite length_fmap; lia|].
  intros b x y Hb Hx Hy.
  destruct (lookup_lt_is_Some_2 (bs_beam s) b) as [bm Hbm]; [lia|].
  destruct (Hrec b bm Hbm) as (out & sc & Hout & Hbest).
  apply for_each_Ok in Hfound.
  destruct (Forall2_lookup_l _ _ _ _ _ Hfound Hbm) as (z & Hz & Hfz).
  rewrite list_lookup_fmap, Hz in Hx.
  rewrite Hbest in Hfz. injection Hfz as <-. simpl in Hx. congruence.
Qed.

Lemma repeat_rows_1 {X} (l : list X) : repeat_rows 1 l = l.
Proof. unfold repeat_rows. simpl. apply app_nil_r. Qed.

Lemma sim_state_init n (hn cn : list H) :
  length hn = n → length cn = n →
  sim_state (Attn := Attn) n (greedy_init n hn cn) (beam_init 1 n hn cn).
Proof.
  intros Hhn Hcn. unfold sim_state, greedy_init, beam_init. simpl.
  rewrite !repeat_rows_1, !length_replicate, count_true_replicate_false.
  repeat (split; [done|]).
  intros b d t out [-> Hb]%lookup_replicate [-> _]%lookup_replicate
    [-> _]%lookup_replicate.
  exists (new_beam 1). split; [by apply lookup_replicate_2|]. split; [|done].
  split; [done|]. split; [by exists 0%Z|]. done.
Qed.

(** The greedy loop never stores an end-of-sequence token. *)
Lemma greedy_loop_eos_free fuel (ctx : list Ctx) n g tr g' :
  Forall (λ out, EOS_ID ∉ out) (g_output_seqs g) →
  greedy_loop fuel ctx n g = Run tr (Ok g') →
  Forall (λ out, EOS_ID ∉ out) (g_output_seqs g').
Proof.
  intros Hfree Hloop.
  apply (greedy_loop_ind (λ s, Forall (λ out, EOS_ID ∉ out) (g_output_seqs s))
           fuel ctx n g tr g'); [|done|done].
  intros s t s1 _ Hs Hb.
  apply greedy_body_Ok in Hb
    as (? & ? & ? & ? & preds & d & tot & outs & _ & _ & Hfor & _ & ->).
  simpl.
  set (L := max_list (length <$> g_output_seqs s)).
  apply (greedy_marks_outputs _ _ L) in Hfor.
  - eapply Forall_impl; [exact Hfor|]. simpl. by intros out [? _].
  - apply Forall_forall. intros out Hout. rewrite Forall_forall in Hs.
    split; [by apply Hs|]. apply max_list_elem_of_le, list_elem_of_fmap. by exists out.
Qed.

(** C1 (amended). A call of [predict] with [beam_size = 1] is the greedy
    path. On a batch that the encoders accept, with a non-empty vocabulary
    and a pruning that only cuts the end-of-sequence token closing a
    hypothesis, the greedy path and the beam path run with width 1 both
    return normally, without attention logging, after the same calls, with
    the same token sequence for every example and the same edit logits;
    with attention logging the same holds whenever both return. The shape
    of the result differs: the greedy path returns three values
    (sequences, edit logits, attention log) and the beam path two
    (hypotheses, edit logits). *)
Theorem greedy_matches_beam_width_1 (batch : list Inp) :
  packable batch →
  0 < vocab_size →
  cuts_closing_eos →
  (∀ log_attn, predict batch 1 log_attn = predict_greedy batch log_attn)
  ∧ ∃ tr seqs el,
      predict_greedy batch false = Run tr (Ok (Ret3 seqs el None))
      ∧ predict_beam batch 1 false = Run tr (Ok (Ret2 seqs el))
      ∧ ∀ log_attn tr1 r1 tr2 r2,
          predict_greedy batch log_attn = Run tr1 (Ok r1) →
          predict_beam batch 1 log_attn = Run tr2 (Ok r2) →
          (∃ la, r1 = Ret3 seqs el la) ∧ r2 = Ret2 seqs el.
Proof.
  intros Hpack HV Hcut. split; [done|].
  set (enc := imap encoded batch). set (n := length batch).
  assert (Hlenc : length enc = n) by apply length_imap.
  assert (Hn : 0 < n) by (subst n; destruct Hpack as [? _]; destruct batch; [done|simpl; lia]).
  destruct (sim_loops n enc.*1 (Z.to_nat max_dec_len)
              (greedy_init n enc.*2.*1 enc.*2.*2) (beam_init 1 n enc.*2.*1 enc.*2.*2))
    as (tr & g' & s' & Hgl & Hml & Hsim); [done|done| | |done| |].
  { by rewrite !length_fmap. }
  { apply sim_state_init; by rewrite !length_fmap. }
  { simpl. lia. }
  assert (Hfree : Forall (λ out, EOS_ID ∉ out) (g_output_seqs g')).
  { eapply greedy_loop_eos_free; [|exact Hgl]. simpl.
    apply Forall_replicate, not_elem_of_nil. }
  destruct (sim_state_back_trace n g' s' Hcut Hfree Hsim) as [scs Hbt].
  assert (Hgreedy : ∀ log_attn,
            predict_greedy batch log_attn
            = Run ([EvEncodeSource; EvEncodeLexicon] ++ tr)
                  (la ← greedy_log_attns batch log_attn (g_attns g') (g_output_seqs g');
                   Ok (Ret3 (g_output_seqs g') (edit_logits_of enc.*2.*1) la))).
  { intros log_attn. unfold predict_greedy.
    rewrite encode_batch_eq, run_bind_unfold by done. cbn [result trace].
    fold enc. fold n. rewrite Hgl, run_bind_unfold. cbn [result trace].
    rewrite lift_bind. destruct (greedy_log_attns _ _ _ _); cbn; by rewrite ?app_nil_r. }
  assert (Hsearch : beam_search batch 1
                    = Run ([EvEncodeSource; EvEncodeLexicon] ++ tr)
                          (Ok (g_output_seqs g', scs, edit_logits_of enc.*2.*1,
                               bs_attns s'))).
  { unfold beam_search, beam_decode.
    rewrite encode_batch_eq, !run_bind_unfold by done. cbn [result trace].
    destruct (decide (1 < 0)%Z); [lia|].
    change (Z.to_nat 1) with 1. fold enc. fold n.
    rewrite repeat_rows_1, Hml. rewrite !run_bind_unfold. cbn [result trace mret run_ret].
    rewrite Hbt. cbn. by rewrite !app_nil_r. }
  exists ([EvEncodeSource; EvEncodeLexicon] ++ tr), (g_output_seqs g'),
         (edit_logits_of enc.*2.*1).
  split; [by rewrite Hgreedy|]. split.
  - unfold predict_beam. rewrite Hsearch, !run_bind_unfold. cbn. by rewrite !app_nil_r.
  - intros log_attn tr1 r1 tr2 r2 H1 H2. split.
    + rewrite Hgreedy in H1. injection H1 as _ H1.
      destruct (greedy_log_attns _ _ _ _) as [la|]; [|done].
      injection H1 as <-. by exists la.
    + unfold predict_beam in H2. rewrite Hsearch, run_bind_unfold in H2.
      cbn [result trace] in H2. injection H2 as _ H2.
      apply run_bind_result_Ok in H2 as ([] & _ & H2). by injection H2 as <-.
Qed.

End SimulationFacts.

(** The pruning of the stub cuts the closing end-of-sequence token. *)
Lemma stub_cuts_closing_eos :
  cuts_closing_eos (constant := Stub.constant) (utils := Stub.utils).
Proof.
  intros hyp Hfree. simpl. induction hyp as [|t hyp IH]; [done|].
  apply not_elem_of_cons in Hfree as [Hne Hfree]. simpl in Hne.
  destruct (IH Hfree) as [IH1 IH2]. simpl.
  destruct (decide (t = 2)); [done|]. by rewrite IH1, IH2.
Qed.

(** The stub model on two examples. *)
Lemma greedy_matches_beam_width_1_witness :
  packable (lens := Stub.lens) [[3; 3]; [4]] ∧ 0 < 5
  ∧ cuts_closing_eos (constant := Stub.constant) (utils := Stub.utils)
  ∧ Stub.predict_greedy 4 [[3; 3]; [4]] false
    = Run [EvEncodeSource; EvEncodeLexicon; EvDecode; EvDecode; EvDecode]
          (Ok (Ret3 [[3; 3]; [4]] (Some [7; 7]) None))
  ∧ (∀ log_attn, Stub.predict 4 [[3; 3]; [4]] 1 log_attn
                 = Stub.predict_greedy 4 [[3; 3]; [4]] log_attn)
  ∧ ∃ tr seqs el,
      Stub.predict_greedy 4 [[3; 3]; [4]] false = Run tr (Ok (Ret3 seqs el None))
      ∧ Stub.predict_beam 4 [[3; 3]; [4]] 1 false = Run tr (Ok (Ret2 seqs el))
      ∧ ∀ log_attn tr1 r1 tr2 r2,
          Stub.predict_greedy 4 [[3; 3]; [4]] log_attn = Run tr1 (Ok r1) →
          Stub.predict_beam 4 [[3; 3]; [4]] 1 log_attn = Run tr2 (Ok r2) →
          (∃ la, r1 = Ret3 seqs el la) ∧ r2 = Ret2 seqs el.
Proof.
  assert (Hpack : packable (lens := Stub.lens) [[3; 3]; [4]]).
  { split; [discriminate|]. repeat constructor; simpl; lia. }
  split; [exact Hpack|]. split; [lia|]. split; [exact stub_cuts_closing_eos|].
  split; [vm_compute; reflexivity|].
  apply (greedy_matches_beam_width_1 (constant := Stub.constant) (args := Stub.args 4)
           (utils := Stub.utils) (scorer := Stub.scorer) (lens := Stub.lens)
           (mask := Stub.keep) [[3; 3]; [4]]).
  - exact Hpack.
  - simpl. lia.
  - exact stub_cuts_closing_eos.
Defined.

(** C1, as stated, fails on the shape of the result: on the same example and
    the same scorer the greedy path returns three values, the beam path of
    width 1 two. *)
Lemma greedy_result_shape_counterexample :
  Stub.predict 4 [[3; 3]] 1 false
  = Run [EvEncodeSource; EvEncodeLexicon; EvDecode; EvDecode; EvDecode]
        (Ok (Ret3 [[3; 3]] (Some [7]) None))
  ∧ Stub.predict_beam 4 [[3; 3]] 1 false
    = Run [EvEncodeSource; EvEncodeLexicon; EvDecode; EvDecode; EvDecode]
          (Ok (Ret2 [[3; 3]] (Some [7])))
  ∧ Stub.predict 4 [[3; 3]] 1 false ≠ Stub.predict_beam 4 [[3; 3]] 1 false.
Proof.
  split; [vm_compute; reflexivity|]. split; [vm_compute; reflexivity|].
  intros Heq. vm_compute in Heq. discriminate.
Qed.

(** ** Exhausting [max_dec_len] *)

Lemma repeat_rows_lookup {X} (K : nat) (l : list X) k b :
  k < K → b < length l → repeat_rows K l !! (k * length l + b) = l !! b.
Proof.
  unfold repeat_rows. revert k. induction K as [|K IH]; intros k Hk Hb; [lia|].
  simpl. destruct k as [|k].
  - by rewrite lookup_app_l by (simpl; lia).
  - rewrite lookup_app_r by (simpl; lia).
    replace (S k * length l + b - length l) with (k * length l + b) by (simpl; lia).
    apply IH; lia.
Qed.



Section ExhaustionFacts.

Context {constant : Constant} {args : Args} {utils : Utils}.
Context {H Inp Ctx Attn Logits : Type} {scorer : Scorer H Inp Ctx Attn Logits}.
Context {lens : Lens Inp} {mask : EmbMask Inp}.



















End ExhaustionFacts.





(** ** Two calls of [predict] *)

Section DeterminismFacts.

Context {constant : Constant} {args : Args} {utils : Utils}.
Context {H Inp Ctx Attn Logits : Type} {scorer : Scorer H Inp Ctx Attn Logits}.
Context {lens : Lens Inp}.

(** The masks drawn by two calls. *)
Context (m1 m2 : EmbMask Inp).

(** A dropout layer in evaluation mode, or of rate 0, ignores its mask. *)
Lemma emb_drop_inert (m : EmbMask Inp) b x :
  training = false ∨ (emb_dropout <= 0)%Q → emb_drop (mask := m) b x = x.
Proof.
  intros Hoff. unfold emb_drop. destruct training; [|done]. simpl.
  destruct Hoff as [|Hle]; [done|].
  unfold Qltb. destruct (Qlt_le_dec 0 emb_dropout) as [Hlt|]; [|done].
  exfalso. by apply (Qlt_not_le _ _ Hlt).
Qed.




End DeterminismFacts.



(** ** Calls made by [predict] *)

Section CallBudget.

Context {constant : Constant} {args : Args} {utils : Utils}.
Context {H Inp Ctx Attn Logits : Type} {scorer : Scorer H Inp Ctx Attn Logits}.
Context {lens : Lens Inp} {mask : EmbMask Inp}.





Lemma dump_log_attn_cases (all_hyp : list (list nat)) :
  dump_log_attn all_hyp
  = if decide (Forall (λ hyp, hyp = []) all_hyp) then Run [EvJsonDump] (Ok ())
    else Run [] (Raise AttributeError).
Proof.
  unfold dump_log_attn. rewrite lift_bind.
  destruct (decide _) as [Hall|Hsome].
  - assert (Hok : for_each (for_each int_tolist) all_hyp
                  = Ok (replicate (length all_hyp) [])).
    { induction Hall as [|hyp l -> _ IH]; [done|]. simpl. by rewrite IH. }
    by rewrite Hok.
  - assert (Hno : for_each (for_each int_tolist) all_hyp = Raise AttributeError).
    { induction all_hyp as [|hyp l IH]; [by destruct Hsome|].
      destruct hyp as [|x hyp]; [|done]. simpl. rewrite IH; [done|].
      intros Hl. apply Hsome. by constructor. }
    by rewrite Hno.
Qed.



(** X3. In the beam path, the [log_attn] block calls [tolist] on every
    entry of every hypothesis: a call that returns the hypotheses [hyps]
    without logging writes the log, and returns the same, with logging only
    if all of [hyps] are empty; as soon as one hypothesis holds a token the
    call with logging raises [AttributeError], after the same decoder
    calls. *)
Theorem log_attn_dump_needs_empty_hypotheses (batch : list Inp) beam_size tr hyps el :
  predict_beam batch beam_size false = Run tr (Ok (Ret2 hyps el)) →
  predict_beam batch beam_size true
  = if decide (Forall (λ hyp, hyp = []) hyps)
    then Run (tr ++ [EvJsonDump]) (Ok (Ret2 hyps el))
    else Run tr (Raise AttributeError).
Proof.
  unfold predict_beam. rewrite !run_bind_unfold.
  destruct (beam_search batch beam_size) as [tr0 [[[[h0 scs] el0] ats]|]];
    cbn [trace result]; [|done].
  rewrite !run_bind_unfold. cbn [trace result mret run_ret].
  rewrite !app_nil_r. intros [= <- <- <-].
  rewrite dump_log_attn_cases. destruct (decide _); cbn [trace result]; [|by rewrite app_nil_r].
  done.
Qed.

End CallBudget.

(** The stub model, beam width 2: the call without logging returns a
    hypothesis of two tokens, so the call with logging raises. *)
Lemma log_attn_dump_needs_empty_hypotheses_witness :
  Stub.predict_beam 4 [[3; 3]] 2 false
  = Run [EvEncodeSource; EvEncodeLexicon; EvDecode; EvDecode; EvDecode]
        (Ok (Ret2 [[3; 3]] (Some [7])))
  ∧ Stub.predict_beam 4 [[3; 3]] 2 true
    = Run [EvEncodeSource; EvEncodeLexicon; EvDecode; EvDecode; EvDecode]
          (Raise AttributeError).
Proof.
  assert (Hrun : Stub.predict_beam 4 [[3; 3]] 2 false
                 = Run [EvEncodeSource; EvEncodeLexicon; EvDecode; EvDecode; EvDecode]
                       (Ok (Ret2 [[3; 3]] (Some [7])))) by (vm_compute; reflexivity).
  split; [exact Hrun|].
  unfold Stub.predict_beam in *.
  rewrite (log_attn_dump_needs_empty_hypotheses (constant := Stub.constant)
             (args := Stub.args 4) (utils := Stub.utils) (scorer := Stub.scorer)
             (lens := Stub.lens) (mask := Stub.keep) [[3; 3]] 2 _ _ _ Hrun).
  destruct (decide _) as [Hall|_]; [|reflexivity].
  inversion Hall; discriminate.
Defined.

(** ** The greedy path, one example at a time *)

Section GreedySequenceFacts.

Context {constant : Constant} {args : Args}.
Context {H Inp Ctx Attn Logits : Type} {scorer : Scorer H Inp Ctx Attn Logits}.
Context {lens : Lens Inp} {mask : EmbMask Inp}.






End GreedySequenceFacts.


(** ** What [update_state] writes *)

Section ReorderContents.

Context {args : Args} {H : Type}.

(** X4. [update_state] on tensors of [K * n] rows (slot-major: row
    [k * n + b] is slot [k] of example [b]), with one backpointer below [K]
    per slot: the call does not raise; in every tensor, slot [k] of example
    [idx] receives the row that slot [positions[k]] of that example held
    before the call (all rows are read before any is written), and the
    rows of the other examples are left as they were. *)
Theorem update_state_selects_origins (K n : nat) (states : list (list H)) idx positions :
  0 < K → idx < n → length positions = K → Forall (λ p, p < K) positions →
  Forall (λ e, length e = K * n) states →
  ∃ states', update_state states idx positions (Z.of_nat K) = Ok states'
    ∧ Forall2 (λ e e', length e' = K * n
                 ∧ ∀ k b p, positions !! k = Some p → b < n →
                     e' !! (k * n + b)
                     = e !! ((if decide (b = idx) then p else k) * n + b))
              states states'.
Proof.
  intros HK Hidx Hpos Hlt Hstates. unfold update_state.
  induction Hstates as [|e states He _ IH].
  - exists []. split; [done|constructor].
  - destruct (update_tensor_grid K n e idx positions) as (e' & Hup & Hlen & Hrows);
      [done..|].
    destruct IH as (states' & Hrest & Hall).
    exists (e' :: states'). cbn [for_each]. rewrite Hup. cbn. rewrite Hrest. cbn.
    split; [done|]. by constructor.
Qed.

(** X5. Backpointers that send every slot to itself ([positions] is
    [0, 1, ..., K - 1]) make [update_state] return the tensors as they
    were. *)
Theorem update_state_identity_origins (K n : nat) (states : list (list H)) idx :
  0 < K → idx < n → Forall (λ e, length e = K * n) states →
  update_state states idx (seq 0 K) (Z.of_nat K) = Ok states.
Proof.
  intros HK Hidx Hstates. unfold update_state.
  induction Hstates as [|e states He _ IH]; [done|].
  destruct (update_tensor_grid K n e idx (seq 0 K)) as (e' & Hup & Hlen & Hrows);
    [done..|by rewrite length_seq| |].
  { apply Forall_forall. intros p Hp%elem_of_seq. lia. }
  assert (e' = e) as ->.
  { apply (list_eq_same_length _ _ (K * n)); [done..|].
    intros r x y Hr Hx Hy.
    assert (Hn : 0 < n) by lia.
    pose proof (Nat.div_mod_eq r n) as Hdm.
    pose proof (Nat.mod_upper_bound r n ltac:(lia)) as Hb.
    assert (Hk : r `div` n < K).
    { apply Nat.Div0.div_lt_upper_bound. lia. }
    specialize (Hrows (r `div` n) (r `mod` n) (r `div` n)).
    rewrite lookup_seq_lt in Hrows by done.
    specialize (Hrows eq_refl Hb).
    replace (r `div` n * n + r `mod` n) with r in Hrows by lia.
    replace ((if decide (r `mod` n = idx) then r `div` n else r `div` n) * n + r `mod` n)
      with r in Hrows by (destruct (decide _); lia).
    congruence. }
  cbn [for_each]. rewrite Hup. cbn. by rewrite IH.
Qed.

End ReorderContents.

(** Two tensors of width 2 on two examples: both slots of example 0 take
    slot 1 as origin. *)
Lemma update_state_selects_origins_witness :
  let states := [[10; 11; 20; 21]; [30; 31; 40; 41]] in
  0 < 2 ∧ 0 < 2 ∧ length [1; 1] = 2 ∧ Forall (λ p, p < 2) [1; 1]
  ∧ Forall (λ e : list nat, length e = 2 * 2) states
  ∧ ∃ states', update_state (args := Stub.args 4) states 0 [1; 1] (Z.of_nat 2) = Ok states'
      ∧ Forall2 (λ e e', length e' = 2 * 2
                   ∧ ∀ k b p, [1; 1] !! k = Some p → b < 2 →
                       e' !! (k * 2 + b)
                       = e !! ((if decide (b = 0) then p else k) * 2 + b))
                states states'.
Proof.
  intros states.
  assert (H1 : 0 < 2) by lia.
  assert (H2 : length [1; 1] = 2) by reflexivity.
  assert (H3 : Forall (λ p, p < 2) [1; 1]) by (repeat constructor).
  assert (H4 : Forall (λ e : list nat, length e = 2 * 2) states) by (repeat constructor).
  split; [exact H1|]. split; [exact H1|]. split; [exact H2|]. split; [exact H3|].
  split; [exact H4|].
  exact (update_state_selects_origins (args := Stub.args 4) 2 2 states 0 [1; 1]
           H1 H1 H2 H3 H4).
Defined.

(** The same tensors, every slot its own origin. *)
Lemma update_state_identity_origins_witness :
  update_state (args := Stub.args 4) [[10; 11; 20; 21]; [30; 31; 40; 41]] 1
               (seq 0 2) (Z.of_nat 2)
  = Ok [[10; 11; 20; 21]; [30; 31; 40; 41]].
Proof.
  apply (update_state_identity_origins (args := Stub.args 4) 2 2); [lia|lia|].
  repeat constructor.
Defined.

(** ** [forward]: when the dropout block writes, and what *)

(** A packing that receives no row, or a length that is not positive, is
    refused. *)
Lemma pack_padded_sequence_refused {X} (sorted : bool) (inputs : list (list X))
    (lens : list nat) :
  inputs = [] ∨ 0 ∈ lens → ∃ e, pack_padded_sequence sorted inputs lens = Raise e.
Proof.
  intros Hbad. unfold pack_padded_sequence.
  destruct (decide (length inputs < length lens)); [by eexists|].
  destruct (decide (length lens < length inputs ∧ sorted = true)); [by eexists|].
  destruct (decide (lens = [] ∨ width inputs = 0)) as [|Hno]; [by eexists|].
  destruct (decide _) as [[Hpos _]|]; [|by eexists]. exfalso.
  destruct Hbad as [->|Hzero].
  - apply Hno. by right.
  - rewrite Forall_forall in Hpos. specialize (Hpos 0 Hzero). lia.
Qed.

Section ForwardEdges.

Context {constant : Constant} {args : Args}.
Context {E Enc LexEnc Out : Type}.
Context (table : nat → E).
Context (emb_drop_src emb_drop_tgt emb_drop_lem : nat → nat → E → E).
Context (encoder : list (list E) → attempt Enc).
Context (lexicon_encoder : list (list E) → attempt LexEnc).
Context (decoder : list (list E) → Enc → LexEnc → list (list nat) → list (list nat)
                   → attempt Out).

Lemma Qltb_true x y : Qltb x y = true ↔ (x < y)%Q.
Proof.
  unfold Qltb. destruct (Qlt_le_dec x y) as [Hlt|Hle]; split; try done.
  intros Hlt. exfalso. by apply (Qlt_not_le _ _ Hlt).
Qed.

Lemma Qltb_false x y : Qltb x y = false ↔ (y <= x)%Q.
Proof.
  unfold Qltb. destruct (Qlt_le_dec x y) as [Hlt|Hle]; split; try done.
  intros Hle. exfalso. by apply (Qlt_not_le _ _ Hlt).
Qed.

Lemma lem_hide_lookup draw n i :
  i < n → lem_hide draw n !! i = Some (Qltb (draw i) lexicon_dropout).
Proof.
  intros Hi. unfold lem_hide. by rewrite list_lookup_fmap, lookup_seq_lt.
Qed.

Lemma existsb_id_false (l : list bool) :
  existsb id l = false ↔ Forall (λ b, b = false) l.
Proof.
  induction l as [|[] l IH]; simpl.
  - split; [constructor|done].
  - split; [done|]. by inversion 1.
  - rewrite IH. split; [by constructor|]. by inversion 1.
Qed.

(** X6. [forward] leaves the heap, hence the caller's [lem] and
    [lem_mask], untouched whenever the model has no lexicon, or
    [lexicon_dropout] is not positive, or no row draws a number below
    [lexicon_dropout]. *)
Theorem forward_keeps_tensors_without_hidden_row
    (src src_mask tgt_in : list (list nat)) (lem lem_mask : nat) (draw : nat → Q)
    (h : heap) :
  is_lexicon = false ∨ (lexicon_dropout <= 0)%Q
  ∨ (∀ lem_t i, h !! lem = Some lem_t → i < length lem_t →
                (lexicon_dropout <= draw i)%Q) →
  (forward table emb_drop_src emb_drop_tgt emb_drop_lem encoder lexicon_encoder decoder
           src src_mask tgt_in lem lem_mask draw h).1 = h.
Proof.
  intros Hoff.
  assert (Hblock : (lexicon_dropout_block lem lem_mask draw h).1 = h).
  { unfold lexicon_dropout_block.
    destruct is_lexicon eqn:Hlex; [|done]. cbn [andb].
    destruct (Qltb 0 lexicon_dropout) eqn:Hpos; [|done].
    apply Qltb_true in Hpos.
    destruct Hoff as [?|[Hle|Hdraw]]; [done| |].
    { exfalso. by apply (Qlt_not_le _ _ Hpos). }
    destruct (h !! lem) as [lem_t|] eqn:Hlem; [|done].
    destruct (h !! lem_mask) as [mask_t|] eqn:Hmask; [|done].
    assert (Hnone : existsb id (lem_hide draw (length lem_t)) = false).
    { apply existsb_id_false, Forall_lookup. intros i b Hb.
      pose proof (lookup_lt_Some _ _ _ Hb) as Hi. rewrite length_lem_hide in Hi.
      rewrite lem_hide_lookup in Hb by done. injection Hb as <-.
      apply Qltb_false. by apply (Hdraw lem_t). }
    by rewrite Hnone. }
  destruct (source_encoding table emb_drop_src emb_drop_tgt encoder src src_mask tgt_in)
    as [x|e] eqn:Hsrc.
  - by rewrite (forward_heap _ _ _ _ _ _ _ _ _ _ _ _ _ _ x Hsrc).
  - by rewrite (forward_source_raises _ _ _ _ _ _ _ _ _ _ _ _ _ _ e Hsrc).
Qed.

(** X7. The stub mask always begins with three zeros. So when the source
    is embedded and encoded without error, some row is drawn and the lexicon
    tensors have fewer than three columns, [forward] raises [RuntimeError];
    [lem_mask] is then left as it was, and so is [lem] unless it has exactly
    two columns, in which case its drawn rows have already been overwritten
    with [[SOS_ID, EOS_ID]] when the exception leaves. *)
Theorem forward_needs_three_columns
    (src src_mask tgt_in : list (list nat)) (lem lem_mask : nat) (draw : nat → Q)
    (h : heap) (lem_t mask_t : list (list nat)) (i : nat) x :
  is_lexicon = true →
  (0 < lexicon_dropout)%Q →
  lem ≠ lem_mask →
  h !! lem = Some lem_t →
  h !! lem_mask = Some mask_t →
  length mask_t = length lem_t →
  cols mask_t = cols lem_t →
  cols lem_t < 3 →
  i < length lem_t → (draw i < lexicon_dropout)%Q →
  source_encoding table emb_drop_src emb_drop_tgt encoder src src_mask tgt_in
  = Returns x →
  let r := forward table emb_drop_src emb_drop_tgt emb_drop_lem encoder lexicon_encoder
                   decoder src src_mask tgt_in lem lem_mask draw h in
  r.2 = Throws (Exn RuntimeError)
  ∧ r.1 !! lem_mask = Some mask_t
  ∧ r.1 !! lem
    = Some (if decide (cols lem_t = 2)
            then zip_with (λ (b : bool) row, if b then [SOS_ID; EOS_ID] else row)
                          (lem_hide draw (length lem_t)) lem_t
            else lem_t).
Proof.
  intros Hlex Hp Hne Hlem Hmask Hrows Hcols Hnarrow Hi Hdraw Hsrc r.
  assert (Hpos : Qltb 0 lexicon_dropout = true) by by apply Qltb_true.
  assert (Hany : existsb id (lem_hide draw (length lem_t)) = true).
  { destruct (existsb id _) eqn:Hex; [done|]. exfalso.
    apply existsb_id_false in Hex. rewrite Forall_lookup in Hex.
    specialize (Hex i _ (lem_hide_lookup draw _ i Hi)).
    apply Qltb_false in Hex. by apply (Qlt_not_le _ _ Hdraw). }
  assert (Hhide : length (lem_hide draw (length lem_t)) = length lem_t)
    by apply length_lem_hide.
  assert (Hblock : lexicon_dropout_block lem lem_mask draw h
                   = (if decide (cols lem_t = 2)
                      then <[lem := zip_with (λ (b : bool) row,
                                                if b then [SOS_ID; EOS_ID] else row)
                                             (lem_hide draw (length lem_t)) lem_t]> h
                      else h,
                      Raise RuntimeError)).
  { unfold lexicon_dropout_block.
    rewrite Hlex, Hpos. cbn [andb]. rewrite Hlem, Hmask. cbv zeta. rewrite Hany.
    destruct (decide (cols lem_t = 2)) as [H2|H2].
    - rewrite masked_assign_Ok; [|done|by rewrite H2].
      rewrite lookup_insert_ne by done. rewrite Hmask.
      unfold masked_assign. rewrite Hhide, Hrows.
      destruct (decide (length lem_t = length lem_t)); [|done].
      destruct (decide (length (lem_mask_stump (cols lem_t)) = cols mask_t)) as [Hbad|_].
      { exfalso. unfold lem_mask_stump in Hbad.
        rewrite length_app, !length_replicate in Hbad. lia. }
      by rewrite H2.
    - unfold masked_assign. rewrite Hhide.
      destruct (decide (length lem_t = length lem_t)); [|done].
      destruct (decide (length (lem_stump (cols lem_t)) = cols lem_t)) as [Hbad|_].
      { exfalso. unfold lem_stump in Hbad.
        rewrite length_app, length_replicate in Hbad. simpl in Hbad. lia. }
      done. }
  assert (Hr : r = (if decide (cols lem_t = 2)
                    then <[lem := zip_with (λ (b : bool) row,
                                              if b then [SOS_ID; EOS_ID] else row)
                                           (lem_hide draw (length lem_t)) lem_t]> h
                    else h,
                    Throws (Exn RuntimeError))).
  { subst r. by apply (forward_block_raises _ _ _ _ _ _ _ _ _ _ _ _ _ _ _ x). }
  rewrite Hr. cbn [fst snd]. split; [done|].
  destruct (decide (cols lem_t = 2)).
  - by rewrite lookup_insert_ne, lookup_insert_eq by done.
  - done.
Qed.

(** X8. With [lexicon_dropout] at least 1 (the draws of [uniform_] are
    below 1) every row is drawn: after a call of [forward] whose source is
    embedded and encoded without error, the caller's [lem] holds the stub
    sequence in every row, and [lem_mask] the stub mask. *)
Theorem forward_full_dropout_hides_every_row
    (src src_mask tgt_in : list (list nat)) (lem lem_mask : nat) (draw : nat → Q)
    (h : heap) (lem_t mask_t : list (list nat)) x :
  is_lexicon = true →
  (1 <= lexicon_dropout)%Q →
  (∀ i, (draw i < 1)%Q) →
  lem ≠ lem_mask →
  h !! lem = Some lem_t →
  h !! lem_mask = Some mask_t →
  length mask_t = length lem_t →
  3 ≤ cols lem_t →
  cols mask_t = cols lem_t →
  source_encoding table emb_drop_src emb_drop_tgt encoder src src_mask tgt_in
  = Returns x →
  let h' := (forward table emb_drop_src emb_drop_tgt emb_drop_lem encoder
                     lexicon_encoder decoder
                     src src_mask tgt_in lem lem_mask draw h).1 in
  h' !! lem = Some (replicate (length lem_t) (lem_stump (cols lem_t)))
  ∧ h' !! lem_mask = Some (replicate (length lem_t) (lem_mask_stump (cols lem_t))).
Proof.
  intros Hlex Hone Hdraw Hne Hlem Hmask Hrows Hwide Hcols Hsrc h'.
  assert (Hp : (0 < lexicon_dropout)%Q).
  { eapply Qlt_le_trans; [|exact Hone]. reflexivity. }
  assert (Hall : lem_hide draw (length lem_t) = replicate (length lem_t) true).
  { apply (list_eq_same_length _ _ (length lem_t));
      [by rewrite length_replicate|apply length_lem_hide|].
    intros i b b' Hi Hb Hb'. rewrite lem_hide_lookup in Hb by done.
    rewrite lookup_replicate_2 in Hb' by done.
    injection Hb as <-. injection Hb' as <-.
    apply Qltb_true. eapply Qlt_le_trans; [apply Hdraw|done]. }
  assert (Hzip : ∀ (stump : list nat) (t : list (list nat)) n, length t = n →
            zip_with (λ (b : bool) row, if b then stump else row) (replicate n true) t
            = replicate n stump).
  { intros stump t n <-. induction t as [|row t IH]; [done|]. simpl. by rewrite IH. }
  subst h'. rewrite (forward_heap _ _ _ _ _ _ _ _ _ _ _ _ _ _ x Hsrc).
  rewrite (lexicon_dropout_block_eq lem lem_mask draw h lem_t mask_t) by done.
  rewrite Hall, !Hzip by done. cbn [fst].
  rewrite lookup_insert_eq. split; [|done].
  by rewrite lookup_insert_ne, lookup_insert_eq by done.
Qed.

(** X21. [forward] embeds and encodes the source before it looks at the
    lexicon. When the source or the target holds an id outside the
    vocabulary, or the batch is empty, or a row of [src_mask] has no
    position that is not masked, the call raises and the heap, hence the
    caller's [lem] and [lem_mask], is as before, whatever the lexicon
    dropout would have drawn. *)
Theorem forward_checks_source_first
    (src src_mask tgt_in : list (list nat)) (lem lem_mask : nat) (draw : nat → Q)
    (h : heap) :
  ¬ Forall (Forall (λ i, i < vocab_size)) src
  ∨ ¬ Forall (Forall (λ i, i < vocab_size)) tgt_in
  ∨ src = []
  ∨ (∃ row, row ∈ src_mask ∧ PAD_ID ∉ row) →
  ∃ e, forward table emb_drop_src emb_drop_tgt emb_drop_lem encoder lexicon_encoder
               decoder src src_mask tgt_in lem lem_mask draw h
       = (h, Throws e).
Proof.
  intros Hbad.
  assert (Hsrc : ∃ e, source_encoding table emb_drop_src emb_drop_tgt encoder
                        src src_mask tgt_in = Throws e).
  { unfold source_encoding, embed.
    destruct (decide (Forall (Forall (λ i, i < vocab_size)) src)) as [Hs|];
      [|by eexists].
    destruct (decide (Forall (Forall (λ i, i < vocab_size)) tgt_in)) as [Ht|];
      [|by eexists].
    cbn.
    destruct (pack_padded_sequence_refused false
                (dropout emb_drop_src (map (map table) src)) (mask_lens src_mask))
      as [e ->]; [|by eexists].
    destruct Hbad as [?|[?|[->|(row & Hrow & Hpad)]]]; [done|done|by left|].
    right. unfold mask_lens. apply list_elem_of_fmap. exists row. split; [|done].
    symmetry. apply length_zero_iff_nil.
    clear Hrow. induction row as [|m row IH]; [done|].
    apply not_elem_of_cons in Hpad as [Hne Hpad].
    rewrite filter_cons_False by done. by apply IH. }
  destruct Hsrc as [e Hsrc]. exists e.
  by apply forward_source_raises.
Qed.

End ForwardEdges.

(** Dropout 1/2 and two rows that both draw 3/4: nothing is written. *)
Lemma forward_keeps_tensors_without_hidden_row_witness :
  let h : heap := <[0 := [[1; 3; 3; 2]; [1; 4; 2; 0]]]>
                    (<[1 := [[0; 0; 0; 0]; [0; 0; 0; 1]]]> ∅) in
  (CombinedStub.forward (Stub.args 3) CombinedStub.src CombinedStub.src_mask
     CombinedStub.tgt_in 0 1 (λ _, 3 # 4) h).1 = h.
Proof.
  intros h.
  apply (forward_keeps_tensors_without_hidden_row (constant := Stub.constant)
           (args := Stub.args 3)).
  right. right. intros lem_t i _ _. cbn. unfold Qle. cbn. lia.
Defined.

(** Lexicon tensors of width 2; the second row is drawn. *)
Lemma forward_needs_three_columns_witness :
  let h : heap := <[0 := [[1; 3]; [1; 4]]]> (<[1 := [[0; 0]; [0; 0]]]> ∅) in
  let draw := λ i : nat, if decide (i = 1) then 1 # 4 else 3 # 4 in
  let r := CombinedStub.forward (Stub.args 3) CombinedStub.src CombinedStub.src_mask
             CombinedStub.tgt_in 0 1 draw h in
  CombinedStub.source_encoding CombinedStub.src CombinedStub.src_mask CombinedStub.tgt_in
  = Returns ([[1; 3]; [1; 4]], [[3; 4]; [3]])
  ∧ r.2 = Throws (Exn RuntimeError)
  ∧ r.1 !! 1 = Some [[0; 0]; [0; 0]]
  ∧ r.1 !! 0 = Some [[1; 3]; [1; 2]].
Proof.
  intros h draw r.
  assert (Hsrc : CombinedStub.source_encoding CombinedStub.src CombinedStub.src_mask
                   CombinedStub.tgt_in
                 = Returns ([[1; 3]; [1; 4]], [[3; 4]; [3]])) by reflexivity.
  split; [exact Hsrc|].
  apply (forward_needs_three_columns (constant := Stub.constant) (args := Stub.args 3)
           (λ i, i) (λ _ _ x, x) (λ _ _ x, x) (λ _ _ x, x)
           (λ rows, Returns rows) (λ rows, Returns rows)
           (λ dec enc lex _ lem_mask, Returns (dec, enc, lex, lem_mask))
           CombinedStub.src CombinedStub.src_mask CombinedStub.tgt_in 0 1 draw h
           [[1; 3]; [1; 4]] [[0; 0]; [0; 0]] 1 ([[1; 3]; [1; 4]], [[3; 4]; [3]])).
  - reflexivity.
  - reflexivity.
  - discriminate.
  - reflexivity.
  - reflexivity.
  - reflexivity.
  - reflexivity.
  - unfold cols. simpl. lia.
  - simpl. lia.
  - reflexivity.
  - exact Hsrc.
Defined.

(** Dropout 1: both rows are replaced, whatever they draw. *)
Lemma forward_full_dropout_hides_every_row_witness :
  let full : Args := {| vocab_size := 5; dec_hidden_dim := 4; max_dec_len := 3;
                        edit := true; is_lexicon := true; lexicon_dropout := 1;
                        emb_dropout := 0; training := true |} in
  let h : heap := <[0 := [[1; 3; 3; 2]; [1; 4; 2; 0]]]>
                    (<[1 := [[0; 0; 0; 0]; [0; 0; 0; 1]]]> ∅) in
  let h' := (CombinedStub.forward full CombinedStub.src CombinedStub.src_mask
               CombinedStub.tgt_in 0 1 (λ _, 3 # 4) h).1 in
  source_encoding (constant := Stub.constant) (args := full)
    (λ i, i) (λ _ _ x, x) (λ _ _ x, x) (λ rows, Returns rows)
    CombinedStub.src CombinedStub.src_mask CombinedStub.tgt_in
  = Returns ([[1; 3]; [1; 4]], [[3; 4]; [3]])
  ∧ h' !! 0 = Some [[1; 2; 0; 0]; [1; 2; 0; 0]]
  ∧ h' !! 1 = Some [[0; 0; 0; 1]; [0; 0; 0; 1]].
Proof.
  intros full h h'.
  assert (Hsrc : source_encoding (constant := Stub.constant) (args := full)
                   (λ i, i) (λ _ _ x, x) (λ _ _ x, x) (λ rows, Returns rows)
                   CombinedStub.src CombinedStub.src_mask CombinedStub.tgt_in
                 = Returns ([[1; 3]; [1; 4]], [[3; 4]; [3]])) by reflexivity.
  split; [exact Hsrc|].
  apply (forward_full_dropout_hides_every_row (constant := Stub.constant) (args := full)
           (λ i, i) (λ _ _ x, x) (λ _ _ x, x) (λ _ _ x, x)
           (λ rows, Returns rows) (λ rows, Returns rows)
           (λ dec enc lex _ lem_mask, Returns (dec, enc, lex, lem_mask))
           CombinedStub.src CombinedStub.src_mask CombinedStub.tgt_in 0 1 (λ _, 3 # 4) h
           [[1; 3; 3; 2]; [1; 4; 2; 0]] [[0; 0; 0; 0]; [0; 0; 0; 1]]
           ([[1; 3]; [1; 4]], [[3; 4]; [3]])).
  - reflexivity.
  - cbn. unfold Qle. cbn. lia.
  - intros _. reflexivity.
  - discriminate.
  - reflexivity.
  - reflexivity.
  - reflexivity.
  - unfold cols. simpl. lia.
  - reflexivity.
  - exact Hsrc.
Defined.

(** A source that holds the id 9, outside the vocabulary of five tokens;
    dropout 1 would replace both rows of the lexicon. *)
Lemma forward_checks_source_first_witness :
  let full : Args := {| vocab_size := 5; dec_hidden_dim := 4; max_dec_len := 3;
                        edit := true; is_lexicon := true; lexicon_dropout := 1;
                        emb_dropout := 0; training := true |} in
  let h : heap := <[0 := [[1; 3; 3; 2]; [1; 4; 2; 0]]]>
                    (<[1 := [[0; 0; 0; 0]; [0; 0; 0; 1]]]> ∅) in
  CombinedStub.forward full [[3; 9]; [3; 2]] CombinedStub.src_mask
    CombinedStub.tgt_in 0 1 (λ _, 3 # 4) h
  = (h, Throws (Exn IndexError))
  ∧ ∃ e, CombinedStub.forward full [[3; 9]; [3; 2]] CombinedStub.src_mask
           CombinedStub.tgt_in 0 1 (λ _, 3 # 4) h
         = (h, Throws e).
Proof.
  intros full h. split; [reflexivity|].
  apply (forward_checks_source_first (constant := Stub.constant) (args := full)).
  left. intros Hall. apply Forall_cons in Hall as [Hrow _].
  apply Forall_cons in Hrow as [_ Hrow]. apply Forall_cons in Hrow as [H9 _].
  simpl in H9. lia.
Defined.

(** ** What the encoders read *)

Lemma attempt_bind_Returns {A B} (m : attempt A) (f : A → attempt B) b :
  m ≫= f = Returns b ↔ ∃ a, m = Returns a ∧ f a = Returns b.
Proof.
  destruct m as [a|e]; simpl; split.
  - intros Hf. by exists a.
  - by intros (a' & [= ->] & Hf).
  - intros [=].
  - by intros (a & [=] & _).
Qed.

Lemma of_outcome_Returns {A} (o : outcome A) a : of_outcome o = Returns a ↔ o = Ok a.
Proof. destruct o; simpl; split; congruence. Qed.

Section RowFacts.

Context {X : Type}.

Lemma width_cons (row : list X) t : width (row :: t) = length row.
Proof. done. Qed.

Lemma length_dropout (drop : nat → nat → X → X) t : length (dropout drop t) = length t.
Proof. unfold dropout. apply length_imap. Qed.

Lemma lookup_dropout (drop : nat → nat → X → X) t b :
  dropout drop t !! b = (λ row, imap (drop b) row) <$> t !! b.
Proof. unfold dropout. by rewrite list_lookup_imap. Qed.

Lemma embed_Ok size (table : nat → X) ids t :
  embed size table ids = Ok t →
  Forall (Forall (λ i, i < size)) ids ∧ t = map (map table) ids.
Proof. unfold embed. destruct (decide _); [|done]. by intros [= <-]. Qed.

(** The packing, when it succeeds. *)
Lemma pack_padded_sequence_Ok es (inputs : list (list X)) lens packed :
  pack_padded_sequence es inputs lens = Ok packed →
  length lens ≤ length inputs ∧ (es = true → length lens = length inputs)
  ∧ lens ≠ [] ∧ 0 < width inputs
  ∧ Forall (λ l, 0 < l) lens ∧ (es = true → decreasing lens = true)
  ∧ packed = zip_with take lens inputs.
Proof.
  unfold pack_padded_sequence.
  destruct (decide (length inputs < length lens)); [by destruct es|].
  destruct (decide (length lens < length inputs ∧ es = true)) as [|Hlen]; [done|].
  destruct (decide (lens = [] ∨ width inputs = 0)) as [|Hne]; [done|].
  destruct (decide _) as [[Hpos Hdec]|]; [|done].
  intros [= <-]. split; [lia|]. split.
  { intros ->. destruct (decide (length lens = length inputs)); [done|].
    exfalso. apply Hlen. split; [lia|done]. }
  split; [by intros ->; apply Hne; left|]. split; [|done].
  destruct (decide (width inputs = 0)); [|lia]. exfalso. apply Hne. by right.
Qed.

(** The packing depends on the rows through their number, through
    whether they are empty, and through the prefixes it keeps. *)
Lemma pack_padded_sequence_ext es (a b : list (list X)) lens :
  length a = length b →
  (width a = 0 ↔ width b = 0) →
  (Forall (λ l, 0 < l) lens → zip_with take lens a = zip_with take lens b) →
  pack_padded_sequence es a lens = pack_padded_sequence es b lens.
Proof.
  intros Hlen Hw Htake. unfold pack_padded_sequence. rewrite Hlen.
  destruct (decide (length b < length lens)); [done|].
  destruct (decide (length lens < length b ∧ es = true)); [done|].
  destruct (decide (lens = [] ∨ width a = 0)) as [Ha|Ha];
    destruct (decide (lens = [] ∨ width b = 0)) as [Hb|Hb]; [done|tauto|tauto|].
  destruct (decide _) as [[Hpos _]|]; [|done]. by rewrite Htake.
Qed.

End RowFacts.

Section AppendedRows.

Context {X : Type}.

Lemma zip_with_app_nil (a : list (list X)) :
  zip_with app a (map (λ _, []) a) = a.
Proof. induction a as [|r a IH]; [done|]. simpl. by rewrite app_nil_r, IH. Qed.

Lemma zip_with_app_assoc (a s1 s2 : list (list X)) :
  zip_with app (zip_with app a s1) s2 = zip_with app a (zip_with app s1 s2).
Proof.
  revert s1 s2. induction a as [|r a IH]; intros [|r1 s1] [|r2 s2]; simpl; try done.
  by rewrite IH, app_assoc.
Qed.

Lemma zip_take_appended (a suffix : list (list X)) lens :
  (∀ b l row, lens !! b = Some l → a !! b = Some row → l ≤ length row) →
  length suffix = length a →
  zip_with take lens (zip_with app a suffix) = zip_with take lens a.
Proof.
  revert a suffix. induction lens as [|l lens IH]; intros [|r a] [|s suffix] Hle Hlen;
    simpl in *; try done.
  rewrite take_app_le by (by apply (Hle 0 l r)).
  f_equal. apply IH; [|lia]. intros b l' row Hl Hr. by apply (Hle (S b)).
Qed.

Lemma pack_appended es (a suffix : list (list X)) lens packed :
  length suffix = length a →
  (∀ b l row, lens !! b = Some l → a !! b = Some row → l ≤ length row) →
  pack_padded_sequence es (zip_with app a suffix) lens = Ok packed →
  pack_padded_sequence es a lens = Ok packed.
Proof.
  intros Hlen Hle Hpack.
  apply pack_padded_sequence_Ok in Hpack as (Hl & Hes & Hne & Hw & Hpos & Hdec & ->).
  rewrite length_zip_with_l_eq in Hl, Hes by done.
  rewrite zip_take_appended by done.
  unfold pack_padded_sequence.
  destruct (decide (length a < length lens)); [lia|].
  destruct (decide (length lens < length a ∧ es = true)) as [[? Hes']|_].
  { specialize (Hes Hes'). lia. }
  destruct (decide (lens = [] ∨ width a = 0)) as [[?|Hw0]|_]; [done| |].
  { exfalso. destruct lens as [|l lens]; [done|]. destruct a as [|r a]; [simpl in Hl; lia|].
    rewrite width_cons in Hw0. specialize (Hle 0 l r eq_refl eq_refl).
    inversion Hpos; subst. lia. }
  destruct (decide _) as [_|Hno]; [done|]. exfalso. apply Hno. by split.
Qed.

Lemma take_imap {Y} (f : nat → X → Y) (l : list X) k :
  take k (imap f l) = imap f (take k l).
Proof.
  revert f k. induction l as [|x l IH]; intros f [|k]; simpl; try done.
  by rewrite IH.
Qed.

Lemma zip_take_prepended (P a a' : list (list X)) lens :
  Forall (λ p, length p = 1) P →
  (∀ b l r r', lens !! b = Some l → a !! b = Some r → a' !! b = Some r' →
               take (l - 1) r = take (l - 1) r') →
  length a = length a' →
  zip_with take lens (zip_with app P a) = zip_with take lens (zip_with app P a').
Proof.
  intros HP. revert a a' lens.
  induction HP as [|p P Hp _ IH]; intros [|r a] [|r' a'] [|l lens] Hpre Hlen;
    simpl in *; try done.
  rewrite !take_app, Hp, (Hpre 0 l r r') by done.
  f_equal. apply IH; [|lia]. intros b l' t t' Hl Ht Ht'. by apply (Hpre (S b)).
Qed.

Lemma pack_prepended es (P a a' : list (list X)) lens :
  Forall (λ p, length p = 1) P →
  (∀ b l r r', lens !! b = Some l → a !! b = Some r → a' !! b = Some r' →
               take (l - 1) r = take (l - 1) r') →
  length a = length a' →
  pack_padded_sequence es (zip_with app P a) lens
  = pack_padded_sequence es (zip_with app P a') lens.
Proof.
  intros HP Hpre Hlen. apply pack_padded_sequence_ext.
  - rewrite !length_zip_with. lia.
  - destruct HP as [|p P Hp _]; [done|].
    destruct a as [|r a], a' as [|r' a']; simpl in *; try done.
    rewrite !width_cons, !length_app. lia.
  - intros _. by apply zip_take_prepended.
Qed.

End AppendedRows.

Section SingleFacts.

Context {constant : Constant} {args : Args}.
Context {E Feats Enc Logits LogProbs : Type} {single : SingleArgs E}.
Context (emb_drop_src emb_drop_tgt emb_drop_lem : nat → nat → E → E).
Context (pos_drop : nat → E → E).
Context (feats_inputs : Feats → attempt (list (list E))).
Context (encoder : list (list E) → attempt Enc).
Context (edit_classifier : Enc → attempt Logits).
Context (decoder : list (list E) → Enc → list (list nat) → attempt LogProbs).

Lemma mask_lens_le (mask : list (list nat)) b l m :
  mask_lens mask !! b = Some l → mask !! b = Some m → l ≤ length m.
Proof.
  unfold mask_lens. rewrite list_lookup_fmap. intros Hl Hm. rewrite Hm in Hl.
  injection Hl as <-. apply length_filter.
Qed.

Lemma cat_extra_appended d (extra enc enc' : list (list E)) :
  cat_extra false d extra enc = Ok enc' →
  length extra = length enc ∧ enc' = zip_with app enc extra.
Proof.
  unfold cat_extra, cat_rows. destruct (decide _) as [[Hlen _]|]; [|done].
  by intros [= <-].
Qed.

(** With the three [first] flags off, the optional inputs go behind the
    rows of the source. *)
Lemma extra_inputs_appended (enc : list (list E)) pos feats lem lem_mask enc' :
  pos_first = false → feats_first = false → vabamorf_first = false →
  extra_inputs emb_drop_lem pos_drop feats_inputs enc pos feats lem lem_mask
    = Returns enc' →
  ∃ suffix, length suffix = length enc ∧ enc' = zip_with app enc suffix.
Proof.
  intros Hp Hf Hv. unfold extra_inputs. rewrite Hp, Hf, Hv.
  intros (enc1 & H1 & Hrest)%attempt_bind_Returns.
  apply attempt_bind_Returns in Hrest as (enc2 & H2 & H3).
  assert (A1 : ∃ s, length s = length enc ∧ enc1 = zip_with app enc s).
  { destruct use_pos.
    - destruct pos as [pos|]; [|done]. destruct (decide _); [|done].
      apply of_outcome_Returns, cat_extra_appended in H1 as [Hlen ->]. eauto.
    - injection H1 as <-. exists (map (λ _, []) enc).
      by rewrite length_fmap, zip_with_app_nil. }
  destruct A1 as (s1 & Hs1 & ->).
  assert (A2 : ∃ s, length s = length enc ∧ enc2 = zip_with app enc s).
  { destruct use_feats.
    - destruct feats as [feats|]; [|done].
      apply attempt_bind_Returns in H2 as (f & _ & H2).
      apply of_outcome_Returns, cat_extra_appended in H2 as [Hlen ->].
      rewrite length_zip_with_l_eq in Hlen by done.
      exists (zip_with app s1 f). rewrite zip_with_app_assoc.
      split; [|done]. rewrite length_zip_with_l_eq; lia.
    - injection H2 as <-. eauto. }
  destruct A2 as (s2 & Hs2 & ->).
  destruct use_vabamorf.
  - destruct lem as [lem|]; [|done]. destruct lem_mask as [lem_mask|]; [|done].
    apply attempt_bind_Returns in H3 as (v & _ & H3).
    apply of_outcome_Returns, cat_extra_appended in H3 as [Hlen ->].
    rewrite length_zip_with_l_eq in Hlen by done.
    exists (zip_with app s2 (dropout emb_drop_lem v)). rewrite zip_with_app_assoc.
    split; [|done]. rewrite length_zip_with_l_eq; lia.
  - injection H3 as <-. eauto.
Qed.

Lemma extra_inputs_without_extras (enc : list (list E)) :
  extra_inputs (single := without_extras single)
    emb_drop_lem pos_drop feats_inputs enc None None None None = Returns enc.
Proof. reflexivity. Qed.

(** The lengths taken from a mask of the shape of the source do not
    exceed the rows of the embedded source. *)
Lemma lens_within_rows (drop : nat → nat → E → E) table
    (src src_mask : list (list nat)) :
  Forall2 (λ row m, length m = length row) src src_mask →
  ∀ b l row, mask_lens src_mask !! b = Some l →
             dropout drop (map (map table) src) !! b = Some row → l ≤ length row.
Proof.
  intros Hshape b l row Hl Hrow.
  rewrite lookup_dropout, list_lookup_fmap in Hrow.
  destruct (src !! b) as [r|] eqn:Hr; [|done]. injection Hrow as <-.
  destruct (Forall2_lookup_l _ _ _ _ _ Hshape Hr) as (m & Hm & Hlen).
  pose proof (mask_lens_le _ _ _ _ Hl Hm). rewrite length_imap, length_fmap. lia.
Qed.

Lemma lens_within_rows_plain table (src src_mask : list (list nat)) :
  Forall2 (λ row m, length m = length row) src src_mask →
  ∀ b l (row : list E), mask_lens src_mask !! b = Some l →
             map (map table) src !! b = Some row → l ≤ length row.
Proof.
  intros Hshape b l row Hl Hrow.
  rewrite list_lookup_fmap in Hrow.
  destruct (src !! b) as [r|] eqn:Hr; [|done]. injection Hrow as <-.
  destruct (Forall2_lookup_l _ _ _ _ _ Hshape Hr) as (m & Hm & Hlen).
  pose proof (mask_lens_le _ _ _ _ Hl Hm). rewrite length_fmap. lia.
Qed.

(** X9. In [Seq2SeqModel], the lengths handed to the encoder are counted
    on the source mask before the optional inputs are concatenated. So
    when these go behind the source (the three [first] flags are off) and
    the mask has the shape of the source, the encoder never reads them:
    whenever [forward], or the encoding phase of [predict], returns, it
    returns what the model without part-of-speech tags, features and
    lemmas returns on the source alone. *)
Theorem single_model_ignores_appended_inputs
    (src src_mask tgt_in : list (list nat)) pos feats lem lem_mask :
  pos_first = false → feats_first = false → vabamorf_first = false →
  Forall2 (λ row m, length m = length row) src src_mask →
  (∀ out,
     forward_single emb_drop_src emb_drop_tgt emb_drop_lem pos_drop feats_inputs
       encoder edit_classifier decoder src src_mask tgt_in pos feats lem lem_mask
     = Returns out →
     forward_single (single := without_extras single)
       emb_drop_src emb_drop_tgt emb_drop_lem pos_drop feats_inputs
       encoder edit_classifier decoder src src_mask tgt_in None None None None
     = Returns out)
  ∧ (∀ enc,
       predict_single_encoding emb_drop_lem pos_drop feats_inputs
         encoder edit_classifier src src_mask pos feats lem lem_mask
       = Returns enc →
       predict_single_encoding (single := without_extras single)
         emb_drop_lem pos_drop feats_inputs
         encoder edit_classifier src src_mask None None None None
       = Returns enc).
Proof.
  intros Hp Hf Hv Hshape. split.
  - intros out. unfold forward_single.
    intros (enc0 & H0 & Hrest)%attempt_bind_Returns.
    apply attempt_bind_Returns in Hrest as (dec0 & Hd & Hrest).
    apply attempt_bind_Returns in Hrest as (enc_inputs & Hx & Hrest).
    apply attempt_bind_Returns in Hrest as (enc & Henc & Hout).
    change (embedding (SingleArgs := without_extras single)) with (embedding (E := E)).
    rewrite H0. cbn [mbind attempt_bind]. rewrite Hd. cbn [mbind attempt_bind].
    rewrite extra_inputs_without_extras. cbn [mbind attempt_bind].
    apply of_outcome_Returns in H0. apply embed_Ok in H0 as [_ ->].
    apply (extra_inputs_appended _ _ _ _ _ _ Hp Hf Hv) in Hx as (suffix & Hlen & ->).
    unfold encode_single in *.
    apply attempt_bind_Returns in Henc as (packed & Hpack & Henc).
    apply of_outcome_Returns, pack_appended in Hpack; [|done|by apply lens_within_rows].
    rewrite Hpack. cbn [of_outcome mbind attempt_bind]. rewrite Henc. exact Hout.
  - intros enc. unfold predict_single_encoding.
    intros (enc0 & H0 & Hrest)%attempt_bind_Returns.
    apply attempt_bind_Returns in Hrest as (enc_inputs & Hx & Hrest).
    apply attempt_bind_Returns in Hrest as (enc1 & Henc & Hout).
    change (embedding (SingleArgs := without_extras single)) with (embedding (E := E)).
    rewrite H0. cbn [mbind attempt_bind].
    rewrite extra_inputs_without_extras. cbn [mbind attempt_bind].
    apply of_outcome_Returns in H0. apply embed_Ok in H0 as [_ ->].
    apply (extra_inputs_appended _ _ _ _ _ _ Hp Hf Hv) in Hx as (suffix & Hlen & ->).
    unfold encode_single in *.
    apply attempt_bind_Returns in Henc as (packed & Hpack & Henc).
    apply of_outcome_Returns, pack_appended in Hpack;
      [|done|by apply lens_within_rows_plain].
    rewrite Hpack. cbn [of_outcome mbind attempt_bind]. rewrite Henc. exact Hout.
Qed.

(** X11. [Seq2SeqModel.encode] packs with the default
    [enforce_sorted]: [forward] and the encoding phase of [predict] return
    only for a non-empty batch whose rows each have at least one unmasked
    position and whose lengths never increase from one row to the next. *)
Theorem single_model_needs_sorted_batch
    (src src_mask tgt_in : list (list nat)) pos feats lem lem_mask :
  let lens := mask_lens src_mask in
  let accepted := lens ≠ [] ∧ Forall (λ l, 0 < l) lens ∧ decreasing lens = true in
  (∀ out,
     forward_single emb_drop_src emb_drop_tgt emb_drop_lem pos_drop feats_inputs
       encoder edit_classifier decoder src src_mask tgt_in pos feats lem lem_mask
     = Returns out → accepted)
  ∧ (∀ enc,
       predict_single_encoding emb_drop_lem pos_drop feats_inputs
         encoder edit_classifier src src_mask pos feats lem lem_mask
       = Returns enc → accepted).
Proof.
  intros lens accepted. split.
  - intros out. unfold forward_single.
    intros (enc0 & H0 & Hrest)%attempt_bind_Returns.
    apply attempt_bind_Returns in Hrest as (dec0 & Hd & Hrest).
    apply attempt_bind_Returns in Hrest as (enc_inputs & Hx & Hrest).
    apply attempt_bind_Returns in Hrest as (enc & Henc & Hout).
    unfold encode_single in Henc.
    apply attempt_bind_Returns in Henc as (packed & Hpack & _).
    apply of_outcome_Returns, pack_padded_sequence_Ok in Hpack
      as (_ & _ & Hne & _ & Hpos & Hdec & _).
    split; [done|]. split; [done|]. by apply Hdec.
  - intros enc. unfold predict_single_encoding.
    intros (enc0 & H0 & Hrest)%attempt_bind_Returns.
    apply attempt_bind_Returns in Hrest as (enc_inputs & Hx & Hrest).
    apply attempt_bind_Returns in Hrest as (enc1 & Henc & Hout).
    unfold encode_single in Henc.
    apply attempt_bind_Returns in Henc as (packed & Hpack & _).
    apply of_outcome_Returns, pack_padded_sequence_Ok in Hpack
      as (_ & _ & Hne & _ & Hpos & Hdec & _).
    split; [done|]. split; [done|]. by apply Hdec.
Qed.

Lemma embed_in_range size (table : nat → E) ids :
  Forall (Forall (λ i, i < size)) ids → embed size table ids = Ok (map (map table) ids).
Proof. intros Hr. unfold embed. by destruct (decide _). Qed.

(** With the part-of-speech tag in front and no other optional input,
    the encoder input is the tag followed by the source. *)
Lemma extra_inputs_pos_first (enc : list (list E)) pos feats lem lem_mask :
  use_pos = true → pos_first = true → use_feats = false → use_vabamorf = false →
  extra_inputs emb_drop_lem pos_drop feats_inputs enc pos feats lem lem_mask
  = match pos with
    | None => Throws AssertionError
    | Some pos =>
        if decide (Forall (λ i, i < pos_vocab_size) pos) then
          if decide (length pos = length enc ∧ pos_dim = emb_dim) then
            Returns (zip_with app (imap (λ b p, [pos_drop b (pos_embedding p)]) pos) enc)
          else Throws (Exn RuntimeError)
        else Throws (Exn IndexError)
    end.
Proof.
  intros Hp Hf Hfe Hv. unfold extra_inputs. rewrite Hp, Hf, Hfe, Hv.
  destruct pos as [pos|]; [|done]. destruct (decide _); [|done].
  unfold cat_extra, cat_rows. rewrite length_imap.
  by destruct (decide _).
Qed.

Lemma pos_rows_singletons (pos : list nat) :
  Forall (λ p : list E, length p = 1) (imap (λ b p, [pos_drop b (pos_embedding p)]) pos).
Proof.
  apply Forall_lookup. intros b p. rewrite list_lookup_imap.
  destruct (pos !! b); [|done]. by intros [= <-].
Qed.

(** X10. With the part-of-speech tag in front of the source (and no
    features or lemmas), the tag takes one of the positions that the length
    grants to a row: [forward] and the encoding phase of [predict] do not
    depend on the source beyond the first [l - 1] tokens of a row of length
    [l], so the last unmasked token of every row is never read. *)
Theorem single_model_pos_first_hides_last_position
    (src src' src_mask tgt_in : list (list nat)) pos feats lem lem_mask :
  use_pos = true → pos_first = true → use_feats = false → use_vabamorf = false →
  Forall (Forall (λ i, i < vocab_size)) src →
  Forall (Forall (λ i, i < vocab_size)) src' →
  length src = length src' →
  (∀ b l row row', mask_lens src_mask !! b = Some l →
                   src !! b = Some row → src' !! b = Some row' →
                   take (l - 1) row = take (l - 1) row') →
  forward_single emb_drop_src emb_drop_tgt emb_drop_lem pos_drop feats_inputs
    encoder edit_classifier decoder src src_mask tgt_in pos feats lem lem_mask
  = forward_single emb_drop_src emb_drop_tgt emb_drop_lem pos_drop feats_inputs
      encoder edit_classifier decoder src' src_mask tgt_in pos feats lem lem_mask
  ∧ predict_single_encoding emb_drop_lem pos_drop feats_inputs
      encoder edit_classifier src src_mask pos feats lem lem_mask
    = predict_single_encoding emb_drop_lem pos_drop feats_inputs
        encoder edit_classifier src' src_mask pos feats lem lem_mask.
Proof.
  intros Hp Hf Hfe Hv Hr Hr' Hlen Hpre. split.
  - unfold forward_single. rewrite (embed_in_range _ _ src), (embed_in_range _ _ src') by done. cbn [of_outcome mbind attempt_bind].
    destruct (of_outcome (embed vocab_size embedding tgt_in)) as [dec0|]; [|done].
    cbn [mbind attempt_bind]. rewrite !extra_inputs_pos_first by done.
    destruct pos as [pos|]; [|done]. destruct (decide _); [|done].
    rewrite !length_dropout, !length_fmap, <- Hlen.
    destruct (decide _); [|done]. cbn [mbind attempt_bind]. unfold encode_single.
    rewrite (pack_prepended true _ (dropout emb_drop_src (map (map embedding) src))
               (dropout emb_drop_src (map (map embedding) src'))); [done| | |].
    + apply pos_rows_singletons.
    + intros b l r r' Hl. rewrite !lookup_dropout, !list_lookup_fmap.
      destruct (src !! b) as [row|] eqn:Hrow; [|done].
      destruct (src' !! b) as [row'|] eqn:Hrow'; [|done].
      intros [= <-] [= <-]. rewrite !take_imap, <- !fmap_take.
      by rewrite (Hpre b l row row').
    + by rewrite !length_dropout, !length_fmap.
  - unfold predict_single_encoding. rewrite (embed_in_range _ _ src), (embed_in_range _ _ src') by done.
    cbn [of_outcome mbind attempt_bind]. rewrite !extra_inputs_pos_first by done.
    destruct pos as [pos|]; [|done]. destruct (decide _); [|done].
    rewrite !length_fmap, <- Hlen.
    destruct (decide _); [|done]. cbn [mbind attempt_bind]. unfold encode_single.
    rewrite (pack_prepended true _ (map (map embedding) src)
               (map (map embedding) src')); [done| | |].
    + apply pos_rows_singletons.
    + intros b l r r' Hl. rewrite !list_lookup_fmap.
      destruct (src !! b) as [row|] eqn:Hrow; [|done].
      destruct (src' !! b) as [row'|] eqn:Hrow'; [|done].
      intros [= <-] [= <-]. rewrite <- !fmap_take.
      by rewrite (Hpre b l row row').
    + by rewrite !length_fmap.
Qed.

End SingleFacts.

(** Two rows of lengths 2 and 1 with tags 1 and 2 behind them: the encoder
    reads the source alone. *)
Lemma single_model_ignores_appended_inputs_witness :
  SingleStub.forward (SingleStub.tagged false) [[3; 4]; [3; 0]] [[0; 0]; [0; 1]]
                     [[1; 3]] (Some [1; 2])
  = Returns ([[1; 3]], [[3; 4]; [3]], [[0; 0]; [0; 1]], Some 2)
  ∧ SingleStub.forward (without_extras (SingleStub.tagged false))
                       [[3; 4]; [3; 0]] [[0; 0]; [0; 1]] [[1; 3]] None
    = Returns ([[1; 3]], [[3; 4]; [3]], [[0; 0]; [0; 1]], Some 2).
Proof.
  assert (Hrun : SingleStub.forward (SingleStub.tagged false) [[3; 4]; [3; 0]]
                   [[0; 0]; [0; 1]] [[1; 3]] (Some [1; 2])
                 = Returns ([[1; 3]], [[3; 4]; [3]], [[0; 0]; [0; 1]], Some 2))
    by (vm_compute; reflexivity).
  split; [exact Hrun|].
  refine (proj1 (single_model_ignores_appended_inputs
                   (constant := Stub.constant) (args := Stub.args 3)
                   (single := SingleStub.tagged false)
                   (λ _ _ x, x) (λ _ _ x, x) (λ _ _ x, x) (λ _ x, x)
                   (λ _ : (), Throws TypeError)
                   (λ rows, Returns rows) (λ rows, Returns (length rows))
                   (λ dec enc mask, Returns (dec, enc, mask))
                   [[3; 4]; [3; 0]] [[0; 0]; [0; 1]] [[1; 3]] (Some [1; 2]) None None None
                   eq_refl eq_refl eq_refl _) _ Hrun).
  repeat constructor.
Defined.

(** The tag in front: the last token of each row, 4 and 3 here, can be
    replaced without any effect. *)
Lemma single_model_pos_first_hides_last_position_witness :
  SingleStub.forward (SingleStub.tagged true) [[3; 4]; [3; 0]] [[0; 0]; [0; 1]]
                     [[1; 3]] (Some [1; 2])
  = SingleStub.forward (SingleStub.tagged true) [[3; 3]; [4; 0]] [[0; 0]; [0; 1]]
                       [[1; 3]] (Some [1; 2])
  ∧ SingleStub.forward (SingleStub.tagged true) [[3; 4]; [3; 0]] [[0; 0]; [0; 1]]
                       [[1; 3]] (Some [1; 2])
    = Returns ([[1; 3]], [[101; 3]; [102]], [[0; 0]; [0; 1]], Some 2).
Proof.
  split; [|vm_compute; reflexivity].
  refine (proj1 (single_model_pos_first_hides_last_position
                   (constant := Stub.constant) (args := Stub.args 3)
                   (single := SingleStub.tagged true)
                   (λ _ _ x, x) (λ _ _ x, x) (λ _ _ x, x) (λ _ x, x)
                   (λ _ : (), Throws TypeError)
                   (λ rows, Returns rows) (λ rows, Returns (length rows))
                   (λ dec enc mask, Returns (dec, enc, mask))
                   [[3; 4]; [3; 0]] [[3; 3]; [4; 0]] [[0; 0]; [0; 1]] [[1; 3]]
                   (Some [1; 2]) None None None
                   eq_refl eq_refl eq_refl eq_refl _ _ eq_refl _)).
  - repeat constructor.
  - repeat constructor.
  - intros [|[|b]] l row row' Hl Hrow Hrow'; try done.
    + injection Hl as <-. injection Hrow as <-. injection Hrow' as <-. reflexivity.
    + injection Hl as <-. injection Hrow as <-. injection Hrow' as <-. reflexivity.
Defined.

(** A run that returns: the lengths 2 and 1 are positive and decreasing. *)
Lemma single_model_needs_sorted_batch_witness :
  SingleStub.forward (SingleStub.tagged false) [[3; 4]; [3; 0]] [[0; 0]; [0; 1]]
                     [[1; 3]] (Some [1; 2])
  = Returns ([[1; 3]], [[3; 4]; [3]], [[0; 0]; [0; 1]], Some 2)
  ∧ mask_lens (constant := Stub.constant) [[0; 0]; [0; 1]] ≠ []
  ∧ Forall (λ l, 0 < l) (mask_lens (constant := Stub.constant) [[0; 0]; [0; 1]])
  ∧ decreasing (mask_lens (constant := Stub.constant) [[0; 0]; [0; 1]]) = true.
Proof.
  assert (Hrun : SingleStub.forward (SingleStub.tagged false) [[3; 4]; [3; 0]]
                   [[0; 0]; [0; 1]] [[1; 3]] (Some [1; 2])
                 = Returns ([[1; 3]], [[3; 4]; [3]], [[0; 0]; [0; 1]], Some 2))
    by (vm_compute; reflexivity).
  split; [exact Hrun|].
  exact (proj1 (single_model_needs_sorted_batch
                  (constant := Stub.constant) (args := Stub.args 3)
                  (single := SingleStub.tagged false)
                  (λ _ _ x, x) (λ _ _ x, x) (λ _ _ x, x) (λ _ x, x)
                  (λ _ : (), Throws TypeError)
                  (λ rows, Returns rows) (λ rows, Returns (length rows))
                  (λ dec enc mask, Returns (dec, enc, mask))
                  [[3; 4]; [3; 0]] [[0; 0]; [0; 1]] [[1; 3]] (Some [1; 2]) None None None)
               _ Hrun).
Defined.

Lemma foldl_max_le (l : list nat) a : a ≤ foldl Nat.max a l.
Proof.
  revert a. induction l as [|x l IH]; intros a; simpl; [done|].
  etrans; [|apply IH]. lia.
Qed.

Lemma foldl_max_spec (l : list nat) a :
  foldl Nat.max a l ∈ a :: l ∧ Forall (λ x, x ≤ foldl Nat.max a l) (a :: l).
Proof.
  revert a. induction l as [|x l IH]; intros a; simpl.
  - split; [apply elem_of_cons; by left|]. by repeat constructor.
  - destruct (IH (a `max` x)) as [Hin Hall]. split.
    + apply elem_of_cons in Hin as [Heq|Hin].
      * destruct (Nat.max_spec a x) as [[_ Hm]|[_ Hm]]; rewrite Heq, Hm.
        -- apply elem_of_cons. right. apply elem_of_cons. by left.
        -- apply elem_of_cons. by left.
      * apply elem_of_cons. right. apply elem_of_cons. by right.
    + inversion Hall as [|? ? Hmax Hrest]; subst.
      constructor; [lia|]. constructor; [lia|done].
Qed.

Lemma filter_none {A} (P : A → Prop) `{∀ x, Decision (P x)} (l : list A) :
  Forall (λ x, ¬ P x) l → filter P l = [].
Proof.
  induction 1 as [|x l Hx _ IH]; [done|]. by rewrite filter_cons_False.
Qed.

Lemma filter_all {A} (P : A → Prop) `{∀ x, Decision (P x)} (l : list A) :
  Forall P l → filter P l = l.
Proof.
  induction 1 as [|x l Hx _ IH]; [done|]. rewrite filter_cons_True by done.
  by rewrite IH.
Qed.

Section LexiconFacts.

Context {constant : Constant} {args : Args}.
Context {E : Type}.
Context (table : nat → E).
Context (emb_drop_lem : nat → nat → E → E).

Lemma py_max_Returns lens m :
  py_max lens = Returns m → m ∈ lens ∧ Forall (λ l, l ≤ m) lens.
Proof.
  destruct lens as [|l lens]; [done|]. simpl. intros [= <-]. apply foldl_max_spec.
Qed.

(** The lexicon part of [forward], when it returns. *)
Lemma lexicon_packed_Returns (lem lem_mask : list (list nat)) packed mask' :
  lexicon_packed table emb_drop_lem lem lem_mask = Returns (packed, mask') →
  ∃ m, py_max (mask_lens lem_mask) = Returns m
       ∧ m ≤ width lem_mask
       ∧ mask' = (if decide (width lem_mask ≠ m) then map (take m) lem_mask
                  else lem_mask)
       ∧ length (mask_lens lem_mask) ≤ length lem
       ∧ packed = zip_with take (mask_lens lem_mask)
                    (dropout emb_drop_lem (map (map table) lem)).
Proof.
  unfold lexicon_packed.
  intros (lem0 & H0 & Hrest)%attempt_bind_Returns.
  apply of_outcome_Returns, embed_Ok in H0 as [_ ->].
  apply attempt_bind_Returns in Hrest as (m & Hm & Hrest).
  apply attempt_bind_Returns in Hrest as (mk & Hmk & Hrest).
  apply attempt_bind_Returns in Hrest as (pk & Hpk & [= <- <-]).
  apply of_outcome_Returns, pack_padded_sequence_Ok in Hpk as (Hlen & _ & _ & _ & _ & _ & ->).
  rewrite length_dropout, length_fmap in Hlen.
  exists m. split; [done|].
  destruct (decide (width lem_mask ≠ m)) as [Hne|Heq].
  - unfold narrow in Hmk. destruct (decide (m ≤ width lem_mask)); [|done].
    by injection Hmk as <-.
  - injection Hmk as <-. split; [lia|done].
Qed.

(** X12. The lexicon part of [Seq2SeqModelCombined.forward] returns for
    every non-empty batch of lemmas with ids inside the vocabulary and a
    rectangular mask of the same shape in which every row has an unmasked
    position: the rows need not be sorted by length, and the narrowing
    of the mask cannot raise. The encoder reads the first [lens[i]]
    positions of row [i]; the decoder gets the first [max(lens)] columns of
    the mask. *)
Theorem lexicon_packed_returns (lem lem_mask : list (list nat)) :
  Forall (Forall (λ i, i < vocab_size)) lem →
  Forall (λ row, length row = width lem_mask) lem_mask →
  Forall2 (λ row m, length m = length row) lem lem_mask →
  Forall (λ l, 0 < l) (mask_lens lem_mask) →
  lem ≠ [] →
  ∃ m, py_max (mask_lens lem_mask) = Returns m
       ∧ lexicon_packed table emb_drop_lem lem lem_mask
         = Returns (zip_with take (mask_lens lem_mask)
                             (dropout emb_drop_lem (map (map table) lem)),
                    map (take m) lem_mask).
Proof.
  intros Hrange Hrect Hshape Hpos Hne.
  pose proof (Forall2_length _ _ _ Hshape) as Hrows.
  assert (Hlens : length (mask_lens lem_mask) = length lem).
  { unfold mask_lens. rewrite length_fmap. lia. }
  destruct (mask_lens lem_mask) as [|l0 lens] eqn:Hml.
  { destruct lem; [done|]. simpl in Hlens. lia. }
  exists (foldl Nat.max l0 lens). split; [done|].
  destruct (foldl_max_spec lens l0) as [Hin Hmax].
  assert (Hw : foldl Nat.max l0 lens ≤ width lem_mask).
  { rewrite <- Hml in Hin. apply list_elem_of_lookup in Hin as [b Hb].
    destruct (lookup_lt_is_Some_2 lem_mask b) as [mk Hmk].
    { apply lookup_lt_Some in Hb. unfold mask_lens in Hb.
      by rewrite length_fmap in Hb. }
    pose proof (mask_lens_le _ _ _ _ Hb Hmk) as Hle.
    rewrite Forall_lookup in Hrect. pose proof (Hrect b mk Hmk). lia. }
  unfold lexicon_packed. rewrite embed_in_range by done.
  cbn [of_outcome mbind attempt_bind]. rewrite Hml. cbn [py_max mbind attempt_bind].
  assert (Hmask : (if decide (width lem_mask ≠ foldl Nat.max l0 lens)
                   then narrow lem_mask (foldl Nat.max l0 lens)
                   else Returns lem_mask)
                  = Returns (map (take (foldl Nat.max l0 lens)) lem_mask)).
  { destruct (decide _) as [_|Heq].
    - unfold narrow. by destruct (decide _).
    - f_equal. symmetry. etrans; [|apply list_fmap_id].
      apply list_fmap_ext. intros b mk Hmk. cbn.
      rewrite Forall_lookup in Hrect. apply take_ge. rewrite (Hrect b mk Hmk). lia. }
  rewrite Hmask. cbn [mbind attempt_bind].
  assert (Hpack : pack_padded_sequence false
                    (dropout emb_drop_lem (map (map table) lem)) (l0 :: lens)
                  = Ok (zip_with take (l0 :: lens)
                          (dropout emb_drop_lem (map (map table) lem)))).
  { unfold pack_padded_sequence. rewrite length_dropout, length_fmap.
    destruct (decide (length lem < length (l0 :: lens))); [lia|].
    destruct (decide (length (l0 :: lens) < length lem ∧ false = true)) as [[_ ?]|_];
      [done|].
    destruct (decide (l0 :: lens = [] ∨ _)) as [[?|Hw0]|_]; [done| |].
    - exfalso. destruct lem as [|r lem]; [done|].
      destruct lem_mask as [|mk lem_mask]; [done|].
      inversion Hshape; subst. inversion Hpos; subst.
      unfold mask_lens in Hml. cbn in Hml. injection Hml as Hl0 _.
      pose proof (length_filter (λ m, m = PAD_ID) mk).
      assert (Hwr : width (dropout emb_drop_lem (map (map table) (r :: lem)))
                    = length r).
      { unfold width, dropout. cbn. by rewrite length_imap, length_map. }
      rewrite Hwr in Hw0. lia.
    - destruct (decide (Forall _ _ ∧ _)) as [_|Hno]; [done|].
      exfalso. apply Hno. by split. }
  rewrite Hpack. done.
Qed.

(** X13. When the lexicon part of [forward] returns, the mask that it
    hands to the decoder has as many rows as the batch and exactly as many
    columns as the longest row that the lexicon encoder reads. The mask is
    rectangular and has the shape of the lemmas. *)
Theorem lexicon_mask_is_as_wide_as_longest_packed_row
    (lem lem_mask : list (list nat)) packed mask' :
  Forall (λ row, length row = width lem_mask) lem_mask →
  Forall2 (λ row m, length m = length row) lem lem_mask →
  lexicon_packed table emb_drop_lem lem lem_mask = Returns (packed, mask') →
  ∃ m, length mask' = length lem_mask
       ∧ Forall (λ row, length row = m) mask'
       ∧ length packed = length lem
       ∧ Forall (λ row, length row ≤ m) packed
       ∧ Exists (λ row, length row = m) packed.
Proof.
  intros Hrect Hshape (m & Hm & Hw & -> & Hlen & ->)%lexicon_packed_Returns.
  apply py_max_Returns in Hm as [Hin Hmax].
  pose proof (Forall2_length _ _ _ Hshape) as Hrows.
  assert (Hlens : length (mask_lens lem_mask) = length lem).
  { unfold mask_lens. rewrite length_fmap. lia. }
  assert (Hrow : ∀ b l, mask_lens lem_mask !! b = Some l →
            ∃ row, zip_with take (mask_lens lem_mask)
                     (dropout emb_drop_lem (map (map table) lem)) !! b = Some row
                   ∧ length row = l).
  { intros b l Hl. pose proof (lookup_lt_Some _ _ _ Hl) as Hb.
    destruct (lookup_lt_is_Some_2 lem b) as [r Hr]; [lia|].
    destruct (Forall2_lookup_l _ _ _ _ _ Hshape Hr) as (mk & Hmk & Hlenm).
    pose proof (mask_lens_le _ _ _ _ Hl Hmk) as Hle.
    eexists. rewrite lookup_zip_with, Hl, lookup_dropout, list_lookup_fmap, Hr.
    cbn. split; [done|]. rewrite length_take, length_imap, length_fmap. lia. }
  exists m. split.
  { destruct (decide _); [by rewrite length_fmap|done]. }
  split.
  { destruct (decide _) as [Hne|Heq].
    - apply Forall_fmap. eapply Forall_impl; [exact Hrect|]. cbn.
      intros row Hr. rewrite length_take. lia.
    - assert (width lem_mask = m) as <- by lia. done. }
  split.
  { rewrite length_zip_with_l_eq; [done|]. by rewrite length_dropout, length_fmap. }
  split.
  - apply Forall_lookup. intros b row Hb.
    destruct (lookup_lt_is_Some_2 (mask_lens lem_mask) b) as [l Hl].
    { apply lookup_lt_Some in Hb. rewrite length_zip_with in Hb. lia. }
    destruct (Hrow b l Hl) as (row' & Hrow' & <-).
    assert (row' = row) as -> by congruence.
    rewrite Forall_lookup in Hmax. by apply (Hmax b).
  - apply list_elem_of_lookup in Hin as [b Hb].
    destruct (Hrow b m Hb) as (row & Hr & Hlenr).
    apply Exists_exists. exists row. split; [|done].
    apply list_elem_of_lookup. eauto.
Qed.

(** X14. The narrowing of the lexicon mask cuts no unmasked position
    when every row of the mask is a run of unmasked entries followed by
    masked ones: the lengths counted on the narrowed mask are those counted
    on the mask. *)
Theorem lexicon_mask_narrowing_keeps_lengths
    (lem lem_mask : list (list nat)) packed mask' :
  Forall (λ row, ∃ l rest, row = replicate l PAD_ID ++ rest ∧ PAD_ID ∉ rest) lem_mask →
  lexicon_packed table emb_drop_lem lem lem_mask = Returns (packed, mask') →
  mask_lens mask' = mask_lens lem_mask.
Proof.
  intros Hprefix (m & Hm & Hw & -> & Hlen & ->)%lexicon_packed_Returns.
  destruct (decide _) as [_|_]; [|done].
  apply py_max_Returns in Hm as [_ Hmax].
  unfold mask_lens in *. rewrite <- list_fmap_compose.
  apply list_fmap_ext. intros b row Hrow. cbn.
  rewrite Forall_lookup in Hprefix. destruct (Hprefix b row Hrow) as (l & rest & -> & Hrest).
  rewrite Forall_lookup in Hmax.
  assert (Hfilter : ∀ k, length (filter (λ x, x = PAD_ID) (take k rest)) = 0).
  { intros k. rewrite filter_none; [done|]. apply Forall_forall.
    intros x Hx%subseteq_take. congruence. }
  assert (Hfull : length (filter (λ x, x = PAD_ID) (replicate l PAD_ID ++ rest)) = l).
  { rewrite filter_app, length_app.
    assert (Hr : filter (λ x, x = PAD_ID) rest = []).
    { apply filter_none, Forall_forall. intros x Hx. congruence. }
    rewrite Hr, Nat.add_0_r. rewrite filter_all; [apply length_replicate|].
    apply Forall_forall. by intros x [-> _]%elem_of_replicate. }
  rewrite Hfull.
  assert (Hl : l ≤ m).
  { specialize (Hmax b l). rewrite list_lookup_fmap, Hrow in Hmax. cbn in Hmax.
    rewrite Hfull in Hmax. by apply Hmax. }
  rewrite take_app, length_replicate, filter_app, length_app, Hfilter.
  rewrite take_ge by (rewrite length_replicate; lia).
  rewrite filter_all; [rewrite length_replicate; lia|].
  apply Forall_forall. by intros x [-> _]%elem_of_replicate.
Qed.

Lemma lem_mask_stump_len L :
  PAD_ID = 0 → length (filter (λ m, m = PAD_ID) (lem_mask_stump L)) = 3.
Proof.
  intros ->. unfold lem_mask_stump. rewrite filter_app, length_app.
  rewrite (filter_none _ (replicate (L - 3) 1)).
  2:{ apply Forall_forall. by intros x [-> _]%elem_of_replicate. }
  done.
Qed.

Lemma lem_stump_prefix (f : nat → E → E) L :
  3 ≤ L →
  take 3 (imap f (map table (lem_stump L)))
  = [f 0 (table SOS_ID); f 1 (table EOS_ID); f 2 (table PAD_ID)].
Proof.
  intros HL. unfold lem_stump.
  replace (L - 2) with (S (L - 3)) by lia. reflexivity.
Qed.

(** X15. A row that the dropout block of [forward] hides is read by the
    lexicon encoder as three positions, the embeddings of the
    start-of-sequence token, of the end-of-sequence token and of one
    padding token: the stub mask unmasks three positions, while the stub
    sequence has two tokens. [PAD_ID] is 0; the two tensors are distinct,
    have the same number of rows and the same width, at least 3. *)
Theorem hidden_lexicon_row_is_read_as_three_positions
    (lem lem_mask : nat) (draw : nat → Q) (h h' : heap)
    (lem_t mask_t : list (list nat)) (i : nat) packed mask' :
  is_lexicon = true →
  (0 < lexicon_dropout)%Q →
  lem ≠ lem_mask →
  h !! lem = Some lem_t →
  h !! lem_mask = Some mask_t →
  length mask_t = length lem_t →
  3 ≤ cols lem_t →
  cols mask_t = cols lem_t →
  PAD_ID = 0 →
  i < length lem_t → (draw i < lexicon_dropout)%Q →
  forward_lexicon table emb_drop_lem (λ rows, Returns rows) lem lem_mask draw h
    = (h', Returns (packed, mask')) →
  packed !! i = Some [emb_drop_lem i 0 (table SOS_ID);
                      emb_drop_lem i 1 (table EOS_ID);
                      emb_drop_lem i 2 (table PAD_ID)].
Proof.
  intros Hlex Hp Hne Hlem Hmask Hrows Hwide Hcols Hpad Hi Hdraw.
  unfold forward_lexicon.
  rewrite (lexicon_dropout_block_eq lem lem_mask draw h lem_t mask_t) by done.
  rewrite lookup_insert_ne, !lookup_insert_eq by done.
  unfold lexicon_encoding. intros [= <- Hret].
  apply attempt_bind_Returns in Hret as ([pk mk] & Hpk & [= <- <-]).
  apply lexicon_packed_Returns in Hpk as (m & _ & _ & _ & _ & ->).
  assert (Hhide : lem_hide draw (length lem_t) !! i = Some true).
  { rewrite lem_hide_lookup by done. f_equal. by apply Qltb_true. }
  destruct (lookup_lt_is_Some_2 lem_t i Hi) as [row Hrow].
  destruct (lookup_lt_is_Some_2 mask_t i) as [mrow Hmrow]; [lia|].
  rewrite lookup_zip_with. unfold mask_lens.
  rewrite list_lookup_fmap, lookup_zip_with, Hhide, Hmrow.
  cbn [fmap option_fmap option_map mbind option_bind].
  rewrite lookup_dropout, list_lookup_fmap, lookup_zip_with, Hhide, Hrow.
  cbn [fmap option_fmap option_map mbind option_bind].
  rewrite lem_mask_stump_len by done. f_equal. by apply lem_stump_prefix.
Qed.

End LexiconFacts.

(** Two lemmas of lengths 2 and 3, not sorted; the mask loses its last
    column. *)
Lemma lexicon_packed_returns_witness :
  ∃ m, py_max (mask_lens (constant := Stub.constant) [[0; 0; 1; 1]; [0; 0; 0; 1]])
       = Returns m
       ∧ SingleStub.lexicon_packed [[1; 2; 0; 0]; [1; 3; 2; 0]]
                                   [[0; 0; 1; 1]; [0; 0; 0; 1]]
         = Returns (zip_with take
                      (mask_lens (constant := Stub.constant)
                                 [[0; 0; 1; 1]; [0; 0; 0; 1]])
                      (dropout (λ _ _ x, x)
                               (map (map (λ i, i)) [[1; 2; 0; 0]; [1; 3; 2; 0]])),
                    map (take m) [[0; 0; 1; 1]; [0; 0; 0; 1]]).
Proof.
  apply (lexicon_packed_returns (constant := Stub.constant) (args := Stub.args 3)
           (λ i, i) (λ _ _ x, x) [[1; 2; 0; 0]; [1; 3; 2; 0]]
           [[0; 0; 1; 1]; [0; 0; 0; 1]]).
  - repeat constructor.
  - repeat constructor.
  - repeat constructor.
  - repeat constructor.
  - discriminate.
Defined.

Lemma lexicon_mask_is_as_wide_as_longest_packed_row_witness :
  SingleStub.lexicon_packed [[1; 2; 0; 0]; [1; 3; 2; 0]] [[0; 0; 1; 1]; [0; 0; 0; 1]]
  = Returns ([[1; 2]; [1; 3; 2]], [[0; 0; 1]; [0; 0; 0]])
  ∧ ∃ m, length [[0; 0; 1]; [0; 0; 0]] = length [[0; 0; 1; 1]; [0; 0; 0; 1]]
         ∧ Forall (λ row : list nat, length row = m) [[0; 0; 1]; [0; 0; 0]]
         ∧ length [[1; 2]; [1; 3; 2]] = length [[1; 2; 0; 0]; [1; 3; 2; 0]]
         ∧ Forall (λ row : list nat, length row ≤ m) [[1; 2]; [1; 3; 2]]
         ∧ Exists (λ row : list nat, length row = m) [[1; 2]; [1; 3; 2]].
Proof.
  assert (Hrun : SingleStub.lexicon_packed [[1; 2; 0; 0]; [1; 3; 2; 0]]
                   [[0; 0; 1; 1]; [0; 0; 0; 1]]
                 = Returns ([[1; 2]; [1; 3; 2]], [[0; 0; 1]; [0; 0; 0]]))
    by (vm_compute; reflexivity).
  split; [exact Hrun|].
  refine (lexicon_mask_is_as_wide_as_longest_packed_row
            (constant := Stub.constant) (args := Stub.args 3)
            (λ i, i) (λ _ _ x, x) [[1; 2; 0; 0]; [1; 3; 2; 0]]
            [[0; 0; 1; 1]; [0; 0; 0; 1]] _ _ _ _ Hrun).
  - repeat constructor.
  - repeat constructor.
Defined.

Lemma lexicon_mask_narrowing_keeps_lengths_witness :
  SingleStub.lexicon_packed [[1; 2; 0; 0]; [1; 3; 2; 0]] [[0; 0; 1; 1]; [0; 0; 0; 1]]
  = Returns ([[1; 2]; [1; 3; 2]], [[0; 0; 1]; [0; 0; 0]])
  ∧ mask_lens (constant := Stub.constant) [[0; 0; 1]; [0; 0; 0]]
    = mask_lens (constant := Stub.constant) [[0; 0; 1; 1]; [0; 0; 0; 1]].
Proof.
  assert (Hrun : SingleStub.lexicon_packed [[1; 2; 0; 0]; [1; 3; 2; 0]]
                   [[0; 0; 1; 1]; [0; 0; 0; 1]]
                 = Returns ([[1; 2]; [1; 3; 2]], [[0; 0; 1]; [0; 0; 0]]))
    by (vm_compute; reflexivity).
  split; [exact Hrun|].
  refine (lexicon_mask_narrowing_keeps_lengths
            (constant := Stub.constant) (args := Stub.args 3)
            (λ i, i) (λ _ _ x, x) [[1; 2; 0; 0]; [1; 3; 2; 0]]
            [[0; 0; 1; 1]; [0; 0; 0; 1]] _ _ _ Hrun).
  repeat constructor.
  - exists 2, [1; 1]. split; [reflexivity|]. intros Hin.
    repeat (apply elem_of_cons in Hin as [Hin|Hin]; [discriminate|]).
    by apply elem_of_nil in Hin.
  - exists 3, [1]. split; [reflexivity|]. intros Hin.
    repeat (apply elem_of_cons in Hin as [Hin|Hin]; [discriminate|]).
    by apply elem_of_nil in Hin.
Defined.

(** Two lemmas of width 4; the draw hides the second one. *)
Lemma hidden_lexicon_row_is_read_as_three_positions_witness :
  let h : heap := <[0 := [[1; 3; 3; 2]; [1; 4; 2; 0]]]>
                    (<[1 := [[0; 0; 0; 0]; [0; 0; 0; 1]]]> ∅) in
  let draw := λ i : nat, if decide (i = 1) then 1 # 4 else 3 # 4 in
  let r := forward_lexicon (constant := Stub.constant) (args := Stub.args 3)
             (λ i, i) (λ _ _ x, x) (λ rows : list (list nat), Returns rows)
             0 1 draw h in
  r.2 = Returns ([[1; 3; 3; 2]; [1; 2; 0]], [[0; 0; 0; 0]; [0; 0; 0; 1]])
  ∧ [[1; 3; 3; 2]; [1; 2; 0]] !! 1 = Some [1; 2; 0].
Proof.
  intros h draw r.
  assert (Hrun : r = (r.1, Returns ([[1; 3; 3; 2]; [1; 2; 0]],
                                    [[0; 0; 0; 0]; [0; 0; 0; 1]])))
    by (vm_compute; reflexivity).
  split; [by rewrite Hrun|].
  exact (hidden_lexicon_row_is_read_as_three_positions
           (constant := Stub.constant) (args := Stub.args 3)
           (λ i, i) (λ _ _ x, x) 0 1 draw h r.1
           [[1; 3; 3; 2]; [1; 4; 2; 0]] [[0; 0; 0; 0]; [0; 0; 0; 1]] 1
           [[1; 3; 3; 2]; [1; 2; 0]] [[0; 0; 0; 0]; [0; 0; 0; 1]]
           eq_refl eq_refl ltac:(discriminate) eq_refl eq_refl eq_refl
           ltac:(unfold cols; simpl; lia) eq_refl eq_refl ltac:(simpl; lia) eq_refl
           Hrun).
Defined.

(** ** Reshaping the outputs of the decoder *)

Section ReshapeFacts.

Context {X : Type}.

Lemma length_concat_uniform (rows : list (list X)) w :
  Forall (λ r, length r = w) rows → length (concat rows) = length rows * w.
Proof.
  induction 1 as [|r rows Hr _ IH]; [done|]. simpl. rewrite length_app, IH. lia.
Qed.

Lemma rows_of_concat (rows : list (list X)) w :
  Forall (λ r, length r = w) rows →
  rows_of (length rows) w (concat rows) = rows.
Proof.
  unfold rows_of. induction 1 as [|r rows Hr Hall IH]; [done|].
  cbn [length seq map concat]. rewrite Nat.mul_0_l, drop_0.
  rewrite take_app_length' by done. f_equal.
  rewrite <- IH at 2. rewrite <- fmap_S_seq, <- list_fmap_compose.
  apply list_fmap_ext. intros i k _. cbn.
  replace (w + k * w) with (length r + k * w) by lia.
  by rewrite drop_app_add'.
Qed.

Lemma length_rows_of n w (entries : list X) : length (rows_of n w entries) = n.
Proof. unfold rows_of. by rewrite length_fmap, length_seq. Qed.

Lemma rows_of_uniform n w (entries : list X) :
  length entries = n * w → Forall (λ r, length r = w) (rows_of n w entries).
Proof.
  intros Hlen. unfold rows_of. apply Forall_fmap, Forall_forall.
  intros r [_ Hr]%elem_of_seq. cbn. rewrite length_take, length_drop. nia.
Qed.

Lemma view_rows (s : list nat) (entries : list X) (w : nat) :
  0 < w → length entries `mod` w = 0 →
  view (Tensor s entries) [None; Some w]
  = Ok (Tensor [length entries `div` w; w] entries).
Proof.
  intros Hw Hmod. unfold view. cbn [data omap] . cbn.
  rewrite Nat.mul_1_r.
  destruct (decide (0 < w ∧ length entries `mod` w = 0)) as [_|Hno]; [done|].
  exfalso. by apply Hno.
Qed.

Lemma view_rows_refused (s : list nat) (entries : list X) (w : nat) :
  length entries `mod` w ≠ 0 →
  view (Tensor s entries) [None; Some w] = Raise RuntimeError.
Proof.
  intros Hmod. unfold view. cbn [data omap]. cbn.
  rewrite Nat.mul_1_r.
  destruct (decide (0 < w ∧ length entries `mod` w = 0)) as [[_ Hbad]|_]; done.
Qed.

Lemma view_back (s : list nat) (entries : list X) (a b c : nat) :
  length entries = a * b * c →
  view (Tensor s entries) [Some a; Some b; Some c] = Ok (Tensor [a; b; c] entries).
Proof.
  intros Hlen. unfold view. cbn.
  destruct (decide (a * (b * (c * 1)) = length entries)) as [_|Hno]; [done|].
  exfalso. apply Hno. lia.
Qed.

End ReshapeFacts.

Section DecoderOutputFacts.

Context {args : Args}.
Context {X : Type}.
Context (log_softmax : list X → list X).
Context (dec2vocab : list X → list X).

(** [get_log_prob] on entries that [vocab_size] divides. *)
Lemma get_log_prob_Ok (s : list nat) (entries : list X) :
  0 < vocab_size → length entries `mod` vocab_size = 0 →
  (∀ row, length (log_softmax row) = length row) →
  let n := length entries `div` vocab_size in
  let out := concat (map log_softmax (rows_of n vocab_size entries)) in
  length out = length entries
  ∧ get_log_prob log_softmax (Tensor s entries)
    = if decide (length s = 2) then Ok (Tensor [n; vocab_size] out)
      else s0 ← index s 0; s1 ← index s 1; s2 ← index s 2;
           view (Tensor [n; vocab_size] out) [Some s0; Some s1; Some s2].
Proof.
  intros HV Hmod Hlsm n out.
  assert (Hn : length entries = n * vocab_size).
  { subst n. pose proof (Nat.div_mod_eq (length entries) vocab_size). lia. }
  assert (Hout : length out = length entries).
  { subst out. rewrite (length_concat_uniform _ vocab_size).
    - by rewrite length_fmap, length_rows_of.
    - apply Forall_fmap. eapply Forall_impl; [by apply rows_of_uniform|].
      cbn. intros r Hr. by rewrite Hlsm. }
  split; [done|].
  unfold get_log_prob. rewrite view_rows by done. cbn [mbind outcome_bind shape data head default].
  done.
Qed.

(** X16. [get_log_prob] does not look at the last axis of its argument:
    it normalises the entries in consecutive groups of [vocab_size]. It
    raises when [vocab_size] does not divide the number of entries;
    otherwise a 3-D argument keeps its shape, and a 2-D argument comes back
    with [vocab_size] columns, whatever its own number of columns. *)
Theorem get_log_prob_groups_by_vocab_size (s : list nat) (entries : list X) :
  0 < vocab_size →
  length entries = numel s →
  (∀ row, length (log_softmax row) = length row) →
  let n := length entries `div` vocab_size in
  let out := concat (map log_softmax (rows_of n vocab_size entries)) in
  (length entries `mod` vocab_size ≠ 0 →
   get_log_prob log_softmax (Tensor s entries) = Raise RuntimeError)
  ∧ (length entries `mod` vocab_size = 0 →
     (length s = 2 →
      get_log_prob log_softmax (Tensor s entries) = Ok (Tensor [n; vocab_size] out))
     ∧ (length s = 3 →
        get_log_prob log_softmax (Tensor s entries) = Ok (Tensor s out))).
Proof.
  intros HV Hwf Hlsm n out. split.
  - intros Hmod. unfold get_log_prob. by rewrite view_rows_refused.
  - intros Hmod.
    destruct (get_log_prob_Ok s entries HV Hmod Hlsm) as [Hlen Hget].
    fold n out in Hlen, Hget. rewrite Hget. split.
    + intros H2. by destruct (decide _).
    + intros H3. destruct (decide _); [lia|].
      destruct s as [|a [|b [|c [|? ?]]]]; try done. cbn.
      apply view_back. rewrite Hlen, Hwf. cbn. lia.
Qed.

(** X17. The reshaping in [decode] is sound: on an output of the decoder
    of shape (B, T, [dec_hidden_dim]) with B * T > 0, the result has shape
    (B, T, [vocab_size]) and holds, for every row of the batch and every
    step, the log-softmax of the projection of the vector of that row and
    step; the views to two axes and back mix nothing up. *)
Theorem decode_log_probs_position_wise (B T : nat) (entries : list X) :
  0 < B * T → 0 < vocab_size →
  length entries = B * T * dec_hidden_dim →
  (∀ v, length v = dec_hidden_dim → length (dec2vocab v) = vocab_size) →
  (∀ row, length (log_softmax row) = length row) →
  decode_log_probs log_softmax dec2vocab (Tensor [B; T; dec_hidden_dim] entries)
  = Ok (Tensor [B; T; vocab_size]
               (concat (map (λ v, log_softmax (dec2vocab v))
                            (rows_of (B * T) dec_hidden_dim entries)))).
Proof.
  intros HBT HV Hlen Hlin Hlsm.
  set (rows := rows_of (B * T) dec_hidden_dim entries).
  assert (Hrows : Forall (λ r, length r = dec_hidden_dim) rows)
    by by apply rows_of_uniform.
  assert (Hlogits : Forall (λ r, length r = vocab_size) (map dec2vocab rows)).
  { apply Forall_fmap. eapply Forall_impl; [exact Hrows|]. cbn. apply Hlin. }
  assert (Hl : length (concat (map dec2vocab rows)) = B * T * vocab_size).
  { rewrite (length_concat_uniform _ vocab_size) by done.
    unfold rows. by rewrite length_fmap, length_rows_of. }
  unfold decode_log_probs. cbn [size_at shape index lookup list_lookup mbind outcome_bind].
  assert (Hv1 : view (Tensor [B; T; dec_hidden_dim] entries) [Some (B * T); None]
                = Ok (Tensor [B * T; dec_hidden_dim] entries)).
  { unfold view. cbn [data omap]. cbn. rewrite Nat.mul_1_r, Hlen.
    rewrite (Nat.mul_comm (B * T) dec_hidden_dim).
    rewrite Nat.div_mul, Nat.Div0.mod_mul by lia.
    destruct (decide (0 < B * T ∧ 0 = 0)) as [_|Hno]; [done|].
    exfalso. by apply Hno. }
  rewrite Hv1. cbn [mbind outcome_bind].
  unfold linear. cbn [shape reverse rev_append data numel foldr].
  change (reverse [B * T; dec_hidden_dim]) with [dec_hidden_dim; B * T].
  cbn [numel foldr]. rewrite Nat.mul_1_r.
  destruct (decide (dec_hidden_dim = dec_hidden_dim)); [|done].
  change (reverse [vocab_size; B * T]) with [B * T; vocab_size].
  fold rows. cbn [mbind outcome_bind].
  assert (Hv2 : view (Tensor [B * T; vocab_size] (concat (map dec2vocab rows)))
                     [Some B; Some T; None]
                = Ok (Tensor [B; T; vocab_size] (concat (map dec2vocab rows)))).
  { unfold view. cbn [data omap]. cbn. rewrite Nat.mul_1_r, Hl.
    rewrite (Nat.mul_comm (B * T) vocab_size).
    rewrite Nat.div_mul, Nat.Div0.mod_mul by lia.
    destruct (decide (0 < B * T ∧ 0 = 0)) as [_|Hno]; [done|].
    exfalso. by apply Hno. }
  rewrite Hv2. cbn [mbind outcome_bind].
  assert (Hmod : length (concat (map dec2vocab rows)) `mod` vocab_size = 0).
  { rewrite Hl. apply Nat.Div0.mod_mul. }
  destruct (get_log_prob_Ok [B; T; vocab_size] _ HV Hmod Hlsm) as [Hlen' Hget].
  rewrite Hget. destruct (decide _) as [|_]; [done|]. cbn.
  assert (Hdiv : length (concat (map dec2vocab rows)) `div` vocab_size
                 = length (map dec2vocab rows)).
  { rewrite Hl, Nat.div_mul by lia. unfold rows. by rewrite length_fmap, length_rows_of. }
  rewrite Hdiv in *. rewrite rows_of_concat in * by done.
  rewrite <- list_fmap_compose in Hlen' |- *.
  apply view_back. etrans; [exact Hlen'|exact Hl].
Qed.

End DecoderOutputFacts.

(** Vocabulary of size 5 against six entries, then against ten entries
    in two rows of five and in five rows of two. *)
Lemma get_log_prob_groups_by_vocab_size_witness :
  get_log_prob (args := Stub.args 3) (λ row : list nat, row) (Tensor [2; 3] [1; 2; 3; 4; 5; 6])
  = Raise RuntimeError
  ∧ get_log_prob (args := Stub.args 3) (λ row : list nat, row)
                 (Tensor [5; 2] [1; 2; 3; 4; 5; 6; 7; 8; 9; 10])
    = Ok (Tensor [2; 5] [1; 2; 3; 4; 5; 6; 7; 8; 9; 10]).
Proof.
  split.
  - apply (get_log_prob_groups_by_vocab_size (args := Stub.args 3)
             (λ row : list nat, row) [2; 3] [1; 2; 3; 4; 5; 6]);
      [simpl; lia|reflexivity|done|discriminate].
  - apply (get_log_prob_groups_by_vocab_size (args := Stub.args 3)
             (λ row : list nat, row) [5; 2] [1; 2; 3; 4; 5; 6; 7; 8; 9; 10]);
      [simpl; lia|reflexivity|done|reflexivity|reflexivity].
Defined.

(** One row, two steps, hidden size 4, vocabulary of size 5; the
    projection repeats the sum of the vector. *)
Lemma decode_log_probs_position_wise_witness :
  decode_log_probs (args := Stub.args 3) (λ row : list nat, row)
                   (λ v, replicate 5 (sum_list v))
                   (Tensor [1; 2; 4] [1; 1; 1; 1; 2; 2; 2; 2])
  = Ok (Tensor [1; 2; 5] [4; 4; 4; 4; 4; 8; 8; 8; 8; 8]).
Proof.
  apply (decode_log_probs_position_wise (args := Stub.args 3)
           (λ row : list nat, row) (λ v, replicate 5 (sum_list v))
           1 2 [1; 1; 1; 1; 2; 2; 2; 2]).
  - simpl. lia.
  - simpl. lia.
  - reflexivity.
  - intros v _. apply length_replicate.
  - done.
Defined.

(** ** One sequence per example *)

Section ResultShape.

Context {constant : Constant} {args : Args} {utils : Utils}.
Context {H Inp Ctx Attn Logits : Type} {scorer : Scorer H Inp Ctx Attn Logits}.
Context {lens : Lens Inp} {mask : EmbMask Inp}.

Lemma greedy_marks_length preds n dn total outs dn' total' outs' :
  for_in (seq 0 n) (greedy_mark preds) (dn, total, outs) = Ok (dn', total', outs') →
  length outs' = length outs.
Proof.
  apply (for_in_seq_ind (λ _ acc, length acc.2 = length outs)); [done|].
  intros k [[d t] o] s1 _ Hlen. simpl in Hlen. unfold greedy_mark.
  intros (dk & _ & Hrest)%bind_Ok.
  destruct dk; [by injection Hrest as <-|].
  apply bind_Ok in Hrest as (tok & _ & Hrest).
  destruct (decide (tok = EOS_ID)); [by injection Hrest as <-|].
  apply bind_Ok in Hrest as (out & _ & [= <-]). simpl. by rewrite length_insert.
Qed.

Lemma advance_all_length beam_size n lp (beam : list Beam) (hn cn : list H) dn
    beam' hn' cn' dn' :
  for_in (seq 0 n) (advance_one beam_size n lp) (beam, hn, cn, dn)
    = Ok (beam', hn', cn', dn') →
  length beam' = length beam.
Proof.
  apply (for_in_seq_ind (λ _ acc, length acc.1.1.1 = length beam)); [done|].
  intros k [[[bm h1] c1] d1] s1 _ Hlen. simpl in Hlen. unfold advance_one.
  intros (b0 & _ & Hrest)%bind_Ok.
  apply bind_Ok in Hrest as (slice & _ & Hrest).
  apply bind_Ok in Hrest as ([bm' is_done] & _ & Hrest).
  apply bind_Ok in Hrest as (origin & _ & Hrest).
  apply bind_Ok in Hrest as (states & _ & Hrest).
  destruct states as [|h2 [|c2 [|]]]; try done.
  injection Hrest as <-. simpl. by rewrite length_insert.
Qed.

Lemma main_loop_length fuel beam_size (ctx : list Ctx) n st tr st' :
  main_loop fuel beam_size ctx n st = Run tr (Ok st') →
  length (bs_beam st') = length (bs_beam st).
Proof.
  revert st tr. induction fuel as [|fuel IH]; intros st tr; cbn [main_loop].
  - by intros [= _ <-].
  - intros (tr1 & [st1 stop] & tr2 & Hb & Hrest & _)%run_bind_Ok.
    apply beam_body_Ok in Hb as (? & ? & ? & ? & ? & beam' & ? & ? & ? & _ & _ & Hfor & _ & -> & _).
    apply advance_all_length in Hfor. destruct stop.
    + injection Hrest as _ <-. done.
    + apply IH in Hrest. simpl in Hrest. lia.
Qed.

(** X18. Whenever [predict] returns, on either path, it returns exactly
    one token sequence per example of the batch. *)
Theorem predict_returns_one_sequence_per_example (batch : list Inp) beam_size log_attn tr r :
  predict batch beam_size log_attn = Run tr (Ok r) →
  length (result_hyps r) = length batch.
Proof.
  unfold predict. destruct (decide (beam_size = 1%Z)) as [_|_].
  - unfold predict_greedy.
    intros (tr1 & [ctx [hn cn]] & tr2 & Henc & Hloop & ->)%run_bind_Ok.
    apply encode_batch_Ok in Henc as (_ & _ & Henc). injection Henc as -> -> ->.
    apply run_bind_Ok in Hloop as (tr3 & st & tr4 & Hloop & Hlog & ->).
    rewrite lift_bind in Hlog.
    destruct (greedy_log_attns _ _ _ _) as [la|]; [|done].
    injection Hlog as _ <-. simpl.
    apply (greedy_loop_ind (λ s, length (g_output_seqs s) = length batch)) in Hloop;
      [done| |].
    + intros s t s1 _ Hlen Hb.
      apply greedy_body_Ok in Hb
        as (? & ? & ? & ? & preds & d & tot & outs & _ & _ & Hfor & _ & ->).
      simpl. apply greedy_marks_length in Hfor. lia.
    + simpl. apply length_replicate.
  - unfold predict_beam.
    intros (tr1 & [[[hyps scs] el] ats] & tr2 & Hsearch & Hrest & ->)%run_bind_Ok.
    apply run_bind_Ok in Hrest as (tr3 & u & tr4 & _ & [= <- <-] & ->).
    simpl. unfold beam_search in Hsearch.
    apply run_bind_Ok in Hsearch as (tr5 & [st el'] & tr6 & Hdec & Hrest & ->).
    rewrite lift_bind in Hrest.
    destruct (back_trace (bs_beam st)) as [[hyps' scs']|] eqn:Hback; [|done].
    injection Hrest as _ <- _ _ _.
    unfold back_trace in Hback. apply bind_Ok in Hback as (found & Hfound & [= <- _]).
    apply for_each_Ok, Forall2_length in Hfound. rewrite length_fmap, <- Hfound.
    unfold beam_decode in Hdec.
    apply run_bind_Ok in Hdec as (tr7 & [ctx [hn cn]] & tr8 & Henc & Hdec & ->).
    apply encode_batch_Ok in Henc as (_ & _ & Henc). injection Henc as -> -> ->.
    simpl in Hdec. destruct (decide (beam_size < 0)%Z); [done|].
    apply run_bind_Ok in Hdec as (tr9 & st9 & tr10 & Hloop & [= <- <- _] & ->).
    apply main_loop_length in Hloop. rewrite Hloop. simpl. apply length_replicate.
Qed.

End ResultShape.

(** The stub model on two examples, beam width 2. *)
Lemma predict_returns_one_sequence_per_example_witness :
  Stub.predict 4 [[3; 3]; [4]] 2 false
  = Run [EvEncodeSource; EvEncodeLexicon; EvDecode; EvDecode; EvDecode]
        (Ok (Ret2 [[3; 3]; [4]] (Some [7; 7])))
  ∧ length (result_hyps (Ret2 (Inp := list nat) (Attn := nat) [[3; 3]; [4]] (Some [7; 7])))
    = length [[3; 3]; [4]].
Proof.
  assert (Hrun : Stub.predict 4 [[3; 3]; [4]] 2 false
                 = Run [EvEncodeSource; EvEncodeLexicon; EvDecode; EvDecode; EvDecode]
                       (Ok (Ret2 [[3; 3]; [4]] (Some [7; 7])))) by (vm_compute; reflexivity).
  split; [exact Hrun|].
  exact (predict_returns_one_sequence_per_example (constant := Stub.constant)
           (args := Stub.args 4) (utils := Stub.utils) (scorer := Stub.scorer)
           (lens := Stub.lens) (mask := Stub.keep) [[3; 3]; [4]] 2 false _ _ Hrun).
Defined.




Section GreedyProgress.

Context {constant : Constant} {args : Args}.
Context {H Inp Ctx Attn Logits : Type} {scorer : Scorer H Inp Ctx Attn Logits}.
Context {lens : Lens Inp} {mask : EmbMask Inp}.






End GreedyProgress.


(** ** The rows of the beam search *)

(** X20. The beam search keeps [beam_size * batch_size] rows in one order
    throughout. With [K] slots and [n] examples, row [k * n + b] of the
    decoder's input tokens is the current token of slot [k] of example [b],
    row [k * n + b] of every repeated encoder output is that of example
    [b], and the [k]-th of the rows handed to [advance] for example [b] is
    row [k * n + b] of the decoder's log-probabilities. *)
Theorem beam_rows_are_slot_major {X} (K n : nat) (h_in : list X)
    (cur : list (list nat)) (log_probs : list (list Z)) :
  0 < K → 0 < n → length h_in = n → length cur = n →
  Forall (λ r, length r = K) cur → length log_probs = K * n →
  ∃ dec_inputs,
    stack_t cur = Ok dec_inputs ∧ length dec_inputs = K * n
    ∧ ∀ b k, b < n → k < K →
        dec_inputs !! (k * n + b) = cur !! b ≫= (.!! k)
        ∧ is_Some (dec_inputs !! (k * n + b))
        ∧ repeat_rows K h_in !! (k * n + b) = h_in !! b
        ∧ ∃ rows, slice_of log_probs K n b = Ok rows
                  ∧ rows !! k = log_probs !! (k * n + b).
Proof.
  intros HK Hn Hh Hcur Hrows Hlp.
  destruct (stack_t_total K n cur HK Hn Hcur Hrows) as (toks & Htoks & Hlen & Hat).
  exists toks. split; [done|]. split; [done|]. intros b k Hb Hk.
  destruct (lookup_lt_is_Some_2 cur b) as [row Hrow]; [lia|].
  assert (Hrl : length row = K) by (rewrite Forall_lookup in Hrows; eauto).
  destruct (lookup_lt_is_Some_2 row k) as [tok Htok]; [lia|].
  assert (Hi : toks !! (k * n + b) = Some tok).
  { apply (Hat _ row tok); [nia| |].
    - rewrite Nat.add_comm, Nat.Div0.mod_add, Nat.mod_small by lia. done.
    - rewrite Nat.add_comm, Nat.div_add, Nat.div_small by lia. done. }
  split; [by rewrite Hi, Hrow|]. split; [by rewrite Hi|].
  split; [subst n; by apply repeat_rows_lookup|].
  destruct (slice_of_total K n b log_probs Hlp Hb) as (sl & Hsl & _ & _ & Hk').
  exists sl. split; [done|]. by apply Hk'.
Qed.

(** Two slots, two examples. *)
Lemma beam_rows_are_slot_major_witness :
  0 < 2 ∧ 0 < 2 ∧ length [7; 8] = 2 ∧ length [[1; 2]; [3; 4]] = 2
  ∧ Forall (λ r : list nat, length r = 2) [[1; 2]; [3; 4]]
  ∧ length [[0]; [1]; [2]; [3]]%Z = 2 * 2
  ∧ ∃ dec_inputs,
      stack_t [[1; 2]; [3; 4]] = Ok dec_inputs ∧ length dec_inputs = 2 * 2
      ∧ ∀ b k, b < 2 → k < 2 →
          dec_inputs !! (k * 2 + b) = [[1; 2]; [3; 4]] !! b ≫= (.!! k)
          ∧ is_Some (dec_inputs !! (k * 2 + b))
          ∧ repeat_rows 2 [7; 8] !! (k * 2 + b) = [7; 8] !! b
          ∧ ∃ rows, slice_of [[0]; [1]; [2]; [3]]%Z 2 2 b = Ok rows
                    ∧ rows !! k = [[0]; [1]; [2]; [3]]%Z !! (k * 2 + b).
Proof.
  assert (H1 : 0 < 2) by lia.
  assert (H2 : length [7; 8] = 2) by reflexivity.
  assert (H3 : length [[1; 2]; [3; 4]] = 2) by reflexivity.
  assert (H4 : Forall (λ r : list nat, length r = 2) [[1; 2]; [3; 4]])
    by (repeat constructor).
  assert (H5 : length [[0]; [1]; [2]; [3]]%Z = 2 * 2) by reflexivity.
  repeat (split; [done|]).
  exact (beam_rows_are_slot_major 2 2 [7; 8] [[1; 2]; [3; 4]] [[0]; [1]; [2]; [3]]%Z
           H1 H1 H2 H3 H4 H5).
Defined.
